(** * Removal of unnecessary parentheses: tokenizer, shunting yard, restorer

    A shallow embedding of [mediaalpha/unnecessary_parentheses_removal.py].

    The file has three parts: the functions of the source ([tokenize],
    [shunt], [restore], [remove_unnecessary_parentheses]); the notions the
    specification speaks of (valid expressions, postfix sequences and their
    trees, matching parentheses) together with the devices of the proofs (a
    tree-building reading of [shunt], the text of a tree token by token);
    and the properties, from the single functions up to the whole
    transformation.

    Conventions of the embedding.
    - A Python [str] is a [string]; its characters are code points below 256
      ([ascii]).  [list(cleaned)] is a [list ascii].
    - A Python list used as a stack ([operators] in [shunt]) is kept with its
      LAST element first: the head of the Rocq list is [operators[-1]], so
      that [operators[::-1]] is the Rocq list as it stands.
    - [restore] is a [while] loop that need not terminate; it is modelled
      with explicit fuel, the body of the loop being [restore_body]. *)

From Stdlib Require Import String Ascii List Arith Bool Lia Permutation.
From Stdlib Require QArith Qcanon.
Import ListNotations.
Open Scope string_scope.
Open Scope list_scope.

(* ================================================================= *)
(** ** The operator table *)

Inductive State := UNKNOWN | OPERAND | OPERATOR.

Inductive Associativity := LEFT | RIGHT.

Record opinfo := Operator { precedence : nat; associativity : Associativity }.

Definition operator_info (k : string) : option opinfo :=
  if k =? "+" then Some (Operator 0 LEFT)
  else if k =? "-" then Some (Operator 0 LEFT)
  else if k =? "*" then Some (Operator 1 LEFT)
  else if k =? "/" then Some (Operator 1 LEFT)
  else if k =? "^" then Some (Operator 2 RIGHT)
  else None.

(** [k in operator_info] *)
Definition in_operator_info (k : string) : bool :=
  match operator_info k with Some _ => true | None => false end.

(** [operator_info[k].precedence].  The source only evaluates it at keys of
    the table (lemmas [shunt_loop_keys] and [restore_rounds_keys] below), so
    the value chosen outside the table is never observed. *)
Definition prec (k : string) : nat :=
  match operator_info k with Some i => precedence i | None => 0 end.

(** [operator_info[k].associativity == Associativity.LEFT] *)
Definition is_left (k : string) : bool :=
  match operator_info k with
  | Some i => match associativity i with LEFT => true | RIGHT => false end
  | None => false
  end.

Definition State_eqb (a b : State) : bool :=
  match a, b with
  | UNKNOWN, UNKNOWN | OPERAND, OPERAND | OPERATOR, OPERATOR => true
  | _, _ => false
  end.

(* ================================================================= *)
(** ** tokenize *)

(** The one-character string of a character. *)
Definition str (c : ascii) : string := String c EmptyString.

(** Characters matched by the regular expression [\s] on a [str] pattern:
    the Unicode white space below 256. *)
Definition is_space (c : ascii) : bool :=
  let n := nat_of_ascii c in
  ((9 <=? n)%nat && (n <=? 13)%nat) || ((28 <=? n)%nat && (n <=? 32)%nat)
  || (n =? 133)%nat || (n =? 160)%nat.

(** [list(re.sub(r"\s+", "", input_string))] *)
Definition cleaned (input_string : string) : list ascii :=
  filter (fun c => negb (is_space c)) (list_ascii_of_string input_string).

(** [char in ["(", ")"]] *)
Definition is_paren (c : ascii) : bool :=
  (str c =? "(") || (str c =? ")").

(** [output.append(buf) if buf != "" else False] *)
Definition flush (output : list string) (buf : string) : list string :=
  if buf =? "" then output else output ++ [buf].

Fixpoint tokenize_loop (chars : list ascii) (output : list string)
    (state : State) (buf : string) : list string :=
  match chars with
  | [] => flush output buf
  | char :: chars' =>
      if is_paren char then
        tokenize_loop chars' (flush output buf ++ [str char]) state ""
      else if in_operator_info (str char) then
        let state' :=
          if (str char =? "-")
             && (State_eqb state OPERATOR || State_eqb state UNKNOWN)
          then OPERAND else OPERATOR in
        tokenize_loop chars' (flush output buf) state' (str char)
      else
        if negb (State_eqb state OPERAND) then
          tokenize_loop chars' (flush output buf) OPERAND ("" ++ str char)%string
        else
          tokenize_loop chars' output OPERAND (buf ++ str char)%string
  end.

Definition tokenize (input_string : string) : list string :=
  tokenize_loop (cleaned input_string) [] UNKNOWN "".

(* ================================================================= *)
(** ** shunt *)

(** The test that decides whether [operators[-1]] is popped before
    [current_token] is pushed (the variable [satisfied] of the source). *)
Definition satisfied (top current_token : string) : bool :=
  if negb (top =? "(") then
    if (prec current_token <? prec top)%nat then true
    else if (prec top =? prec current_token)%nat then is_left top
    else false
  else false.

(** The inner loop of the operator branch. *)
Fixpoint pop_operators (current_token : string) (operators output : list string)
    : list string * list string :=
  match operators with
  | [] => (operators, output)
  | top :: rest =>
      if satisfied top current_token
      then pop_operators current_token rest (output ++ [top])
      else (operators, output)
  end.

(** The inner loop of the [")"] branch. *)
Fixpoint pop_to_paren (operators output : list string)
    : list string * list string :=
  match operators with
  | [] => (operators, output)
  | top :: rest =>
      if top =? "(" then (operators, output)
      else pop_to_paren rest (output ++ [top])
  end.

(** One round of the outer loop, on [(operators, output)]. *)
Definition shunt_step (st : list string * list string) (current_token : string)
    : list string * list string :=
  let (operators, output) := st in
  if in_operator_info current_token then
    let (operators', output') := pop_operators current_token operators output in
    (current_token :: operators', output')
  else if current_token =? "(" then
    (current_token :: operators, output)
  else if current_token =? ")" then
    let (operators', output') := pop_to_paren operators output in
    match operators' with
    | top :: rest => if top =? "(" then (rest, output') else (operators', output')
    | [] => (operators', output')
    end
  else (operators, output ++ [current_token]).

(** The outer loop: the sentinel ["end"] only makes [len(tokens) != 1] stop
    once every token has been taken with [pop(0)]. *)
Definition shunt_loop (tokens : list string) (st : list string * list string)
    : list string * list string :=
  fold_left shunt_step tokens st.

Definition shunt (tokens : list string) : list string :=
  let (operators, output) := shunt_loop tokens ([], []) in
  output ++ operators.

(* ================================================================= *)
(** ** restore *)

(** An entry of [postfix_obj_list]: the text and its pivotal operator. *)
Definition entry := (string * string)%type.

Definition dummy : entry := ("", "").

(** The text of the left operand in the new expression. *)
Definition left_text (cur l : entry) : string :=
  if negb (snd l =? "") && (prec (snd l) <? prec (fst cur))%nat
  then ("(" ++ fst l ++ ")")%string
  else fst l.

(** The text of the right operand in the new expression. *)
Definition right_text (cur r : entry) : string :=
  if negb (snd r =? "") then
    if (prec (snd r) <? prec (fst cur))%nat
       || ((prec (fst cur) =? prec (snd r))%nat
           && ((fst cur =? "/") || (fst cur =? "-")))
    then ("(" ++ fst r ++ ")")%string
    else fst r
  else fst r.

Definition new_entry (cur l r : entry) : entry :=
  ((left_text cur l ++ fst cur ++ right_text cur r)%string, fst cur).

(** One round of the [while] loop, on [(idx, postfix_obj_list)]; it is run
    only when [idx < len(postfix_obj_list)]. *)
Definition restore_body (idx : nat) (postfix_obj_list : list entry)
    : nat * list entry :=
  let cur := nth idx postfix_obj_list dummy in
  if in_operator_info (fst cur) then
    if (2 <=? idx)%nat then
      let l := nth (idx - 2) postfix_obj_list dummy in
      let r := nth (idx - 1) postfix_obj_list dummy in
      (idx - 2,
       firstn (idx - 2) postfix_obj_list
         ++ [new_entry cur l r]
         ++ skipn (idx + 1) postfix_obj_list)
    else (idx, postfix_obj_list)
  else (idx + 1, postfix_obj_list).

(** The [while] loop with fuel: [None] when the fuel runs out before the
    loop condition fails, otherwise the final [postfix_obj_list]. *)
Fixpoint restore_loop (fuel : nat) (idx : nat) (postfix_obj_list : list entry)
    : option (list entry) :=
  if (idx <? length postfix_obj_list)%nat then
    match fuel with
    | O => None
    | S fuel' =>
        let (idx', l') := restore_body idx postfix_obj_list in
        restore_loop fuel' idx' l'
    end
  else Some postfix_obj_list.

(** What a call can do: return a string, raise [IndexError] (at
    [postfix_obj_list[0][0]]), or still be looping when the fuel is spent. *)
Inductive outcome :=
| Returned (s : string)
| IndexError
| OutOfFuel.

Definition initial_list (postfix_list : list string) : list entry :=
  map (fun v => (v, "")) postfix_list.

Definition restore (fuel : nat) (postfix_list : list string) : outcome :=
  match restore_loop fuel 0 (initial_list postfix_list) with
  | None => OutOfFuel
  | Some [] => IndexError
  | Some (e :: _) => Returned (fst e)
  end.

Definition remove_unnecessary_parentheses (fuel : nat) (input_expr : string)
    : outcome :=
  restore fuel (shunt (tokenize input_expr)).

(** The call returns [s]: some amount of fuel is enough. *)
Definition returns (input_expr s : string) : Prop :=
  exists fuel, remove_unnecessary_parentheses fuel input_expr = Returned s.

(** The call never leaves the loop. *)
Definition diverges (postfix_list : list string) : Prop :=
  forall fuel, restore fuel postfix_list = OutOfFuel.

(** The state after [n] rounds of the [while] loop (fewer when the loop
    condition fails before). *)
Fixpoint restore_rounds (n : nat) (idx : nat) (postfix_obj_list : list entry)
    : nat * list entry :=
  match n with
  | O => (idx, postfix_obj_list)
  | S n' =>
      if (idx <? length postfix_obj_list)%nat then
        let (idx', l') := restore_body idx postfix_obj_list in
        restore_rounds n' idx' l'
      else (idx, postfix_obj_list)
  end.

(* ================================================================= *)
(** ** Notions the specification speaks of *)

(** ["".join(tokens)] *)
Definition join (tokens : list string) : string :=
  fold_right append "" tokens.

(** A token that is neither an operator nor a parenthesis. *)
Definition is_operand (tok : string) : bool :=
  negb (in_operator_info tok) && negb (tok =? "(") && negb (tok =? ")").

(** A character that reaches the last branch of [tokenize]. *)
Definition is_operand_char (c : ascii) : bool :=
  negb (is_paren c) && negb (in_operator_info (str c)).

(** The standard two-operand stack machine on a postfix sequence, on the
    entries [restore] works with; [None] is an underflow. *)
Fixpoint eval_postfix (p : list string) (stack : list entry)
    : option (list entry) :=
  match p with
  | [] => Some stack
  | tok :: p' =>
      if in_operator_info tok then
        match stack with
        | r :: l :: s => eval_postfix p' (new_entry (tok, "") l r :: s)
        | _ => None
        end
      else eval_postfix p' ((tok, "") :: stack)
  end.

(** The machine never underflows on [p], started with [depth] entries. *)
Fixpoint never_underflows (p : list string) (depth : nat) : bool :=
  match p with
  | [] => true
  | tok :: p' =>
      if in_operator_info tok
      then (2 <=? depth)%nat && never_underflows p' (depth - 1)
      else never_underflows p' (S depth)
  end.

(** The number of entries the machine ends with. *)
Fixpoint final_depth (p : list string) (depth : nat) : nat :=
  match p with
  | [] => depth
  | tok :: p' =>
      if in_operator_info tok then final_depth p' (depth - 1)
      else final_depth p' (S depth)
  end.

(** Tokens are not empty strings ([tokenize] never emits one). *)
Definition nonempty (tok : string) : Prop := tok <> "".

(** Expression trees: operands at the leaves, a binary operator at each
    node. *)
Inductive expr :=
| Leaf (s : string)
| Node (l : expr) (op : string) (r : expr).

(** The postfix sequence of a tree. *)
Fixpoint postfix (t : expr) : list string :=
  match t with
  | Leaf s => [s]
  | Node l op r => postfix l ++ postfix r ++ [op]
  end.

(** The entry [restore] builds for a tree: its text and pivotal operator. *)
Fixpoint entry_of (t : expr) : entry :=
  match t with
  | Leaf s => (s, "")
  | Node l op r => new_entry (op, "") (entry_of l) (entry_of r)
  end.

(** The string [restore] returns for the postfix sequence of a tree. *)
Definition text (t : expr) : string := fst (entry_of t).

(** The tree a postfix sequence stands for, by the stack machine. *)
Fixpoint build (p : list string) (stack : list expr) : option (list expr) :=
  match p with
  | [] => Some stack
  | tok :: p' =>
      if in_operator_info tok then
        match stack with
        | r :: l :: s => build p' (Node l tok r :: s)
        | _ => None
        end
      else build p' (Leaf tok :: stack)
  end.

Definition tree_of_postfix (p : list string) : option expr :=
  match build p [] with
  | Some [t] => Some t
  | _ => None
  end.

(** Well-formed token sequences: operands and operators alternate, a ["("]
    stands where an operand may start, a [")"] where one has ended, and the
    parentheses match. *)
Fixpoint valid_from (expect_operand : bool) (depth : nat) (tokens : list string)
    : bool :=
  match tokens with
  | [] => negb expect_operand && (depth =? 0)%nat
  | tok :: rest =>
      if expect_operand then
        if tok =? "(" then valid_from true (S depth) rest
        else if is_operand tok then valid_from false depth rest
        else false
      else
        if tok =? ")" then
          match depth with
          | O => false
          | S d => valid_from false d rest
          end
        else if in_operator_info tok then valid_from true depth rest
        else false
  end.

Definition valid_tokens (tokens : list string) : bool :=
  valid_from true 0 tokens.

(** A valid expression: [tokenize] finds a well-formed token sequence in
    it. *)
Definition valid_expression (e : string) : Prop :=
  valid_tokens (tokenize e) = true.

(* ================================================================= *)
(** ** The parse [shunt] computes, as trees *)

(** [shunt] with trees in place of the output list.  A frame is a pending
    operator together with its left operand, or an open parenthesis; the
    operators of the frames, in order, are the stack of [shunt], and the
    postfix forms of their operands, from the bottom up, are its output. *)
Inductive frame :=
| FOp (l : expr) (op : string)
| FParen.

(** Between tokens the machine either expects an operand or has just read
    one, [cur]. *)
Inductive mstate :=
| Expect (fs : list frame)
| After (fs : list frame) (cur : expr).

(** The pops of the operator branch. *)
Fixpoint reduce_op (tok : string) (fs : list frame) (cur : expr)
    : list frame * expr :=
  match fs with
  | FOp l x :: fs' =>
      if satisfied x tok then reduce_op tok fs' (Node l x cur) else (fs, cur)
  | _ => (fs, cur)
  end.

(** The pops of the [")"] branch and of the final flush. *)
Fixpoint reduce_all (fs : list frame) (cur : expr) : list frame * expr :=
  match fs with
  | FOp l x :: fs' => reduce_all fs' (Node l x cur)
  | _ => (fs, cur)
  end.

Definition fstep (st : mstate) (tok : string) : option mstate :=
  match st with
  | Expect fs =>
      if tok =? "(" then Some (Expect (FParen :: fs))
      else if is_operand tok then Some (After fs (Leaf tok))
      else None
  | After fs cur =>
      if tok =? ")" then
        match reduce_all fs cur with
        | (FParen :: fs', t) => Some (After fs' t)
        | _ => None
        end
      else if in_operator_info tok then
        let (fs', t) := reduce_op tok fs cur in
        Some (Expect (FOp t tok :: fs'))
      else None
  end.

Fixpoint frun (tokens : list string) (st : mstate) : option mstate :=
  match tokens with
  | [] => Some st
  | tok :: rest =>
      match fstep st tok with
      | Some st' => frun rest st'
      | None => None
      end
  end.

Definition parse (tokens : list string) : option expr :=
  match frun tokens (Expect []) with
  | Some (After fs cur) =>
      match reduce_all fs cur with
      | ([], t) => Some t
      | _ => None
      end
  | _ => None
  end.

(** The state of [shunt] a machine state stands for. *)
Definition frame_op (f : frame) : string :=
  match f with FOp _ x => x | FParen => "(" end.

Definition frame_out (f : frame) : list string :=
  match f with FOp l _ => postfix l | FParen => [] end.

Definition frames_ops (fs : list frame) : list string := map frame_op fs.

Fixpoint frames_out (fs : list frame) : list string :=
  match fs with
  | [] => []
  | f :: fs' => frames_out fs' ++ frame_out f
  end.

Definition shunt_state (st : mstate) : list string * list string :=
  match st with
  | Expect fs => (frames_ops fs, frames_out fs)
  | After fs cur => (frames_ops fs, frames_out fs ++ postfix cur)
  end.

Definition frame_ok (f : frame) : bool :=
  match f with FOp _ x => in_operator_info x | FParen => true end.

Definition is_fparen (f : frame) : bool :=
  match f with FParen => true | FOp _ _ => false end.

Definition open_parens (fs : list frame) : nat :=
  length (filter is_fparen fs).

Definition state_frames (st : mstate) : list frame :=
  match st with Expect fs => fs | After fs _ => fs end.

Definition state_expects (st : mstate) : bool :=
  match st with Expect _ => true | After _ _ => false end.

(** Characters of operands: neither operators, parentheses nor white
    space. *)
Definition word_char (c : ascii) : bool :=
  is_operand_char c && negb (is_space c).

(** The operand tokens [tokenize] forms: a run of operand characters,
    possibly after one ["-"]. *)
Definition operand_token (tok : string) : bool :=
  match list_ascii_of_string tok with
  | [] => false
  | c :: cs =>
      if str c =? "-" then
        match cs with
        | [] => false
        | _ :: _ => forallb word_char cs
        end
      else forallb word_char (c :: cs)
  end.

Definition token_ok (tok : string) : bool :=
  (tok =? "(") || (tok =? ")") || in_operator_info tok || operand_token tok.

(** Trees over the tokens of the tokenizer. *)
Fixpoint wf_expr (t : expr) : bool :=
  match t with
  | Leaf s => operand_token s
  | Node l op r => wf_expr l && in_operator_info op && wf_expr r
  end.

Definition frame_wf (f : frame) : bool :=
  match f with FOp l x => wf_expr l && in_operator_info x | FParen => true end.

Definition state_wf (st : mstate) : bool :=
  match st with
  | Expect fs => forallb frame_wf fs
  | After fs cur => forallb frame_wf fs && wf_expr cur
  end.

(* ================================================================= *)
(** ** The text of a tree, token by token *)

Definition pivot (t : expr) : string :=
  match t with Leaf _ => "" | Node _ op _ => op end.

(** The left operand is put in parentheses. *)
Definition wraps_left (op : string) (l : expr) : bool :=
  negb (pivot l =? "") && (prec (pivot l) <? prec op)%nat.

(** The right operand is put in parentheses. *)
Definition wraps_right (op : string) (r : expr) : bool :=
  negb (pivot r =? "")
  && ((prec (pivot r) <? prec op)%nat
      || ((prec op =? prec (pivot r))%nat && ((op =? "/") || (op =? "-")))).

Definition wrap (b : bool) (tokens : list string) : list string :=
  if b then "(" :: tokens ++ [")"] else tokens.

Fixpoint tokens_of (t : expr) : list string :=
  match t with
  | Leaf s => [s]
  | Node l op r =>
      wrap (wraps_left op l) (tokens_of l)
      ++ op :: wrap (wraps_right op r) (tokens_of r)
  end.

Definition bit (b : bool) : nat := if b then 1 else 0.

(** The number of parenthesis pairs in the text of a tree. *)
Fixpoint wraps (t : expr) : nat :=
  match t with
  | Leaf _ => 0
  | Node l op r =>
      wraps l + bit (wraps_left op l) + wraps r + bit (wraps_right op r)
  end.

(** The text of a tree seen from outside its parentheses: a first operand,
    then operators each followed by an operand, where an operand is a leaf
    or a parenthesised part, given by the tree [shunt] makes of it. *)
Definition feed (st : list frame * expr) (item : string * expr)
    : list frame * expr :=
  let (fs, cur) := st in
  let (op, a) := item in
  let (fs', t) := reduce_op op fs cur in
  (FOp t op :: fs', a).

Definition feed_all (items : list (string * expr)) (st : list frame * expr)
    : list frame * expr :=
  fold_left feed items st.

Definition close (st : list frame * expr) : expr :=
  snd (reduce_all (fst st) (snd st)).

Definition parse_chain (c : expr * list (string * expr)) : expr :=
  close (feed_all (snd c) ([], fst c)).

Fixpoint chain (t : expr) : expr * list (string * expr) :=
  match t with
  | Leaf s => (Leaf s, [])
  | Node l op r =>
      let cl := if wraps_left op l then (parse_chain (chain l), [])
                else chain l in
      let cr := if wraps_right op r then (parse_chain (chain r), [])
                else chain r in
      (fst cl, snd cl ++ (op, fst cr) :: snd cr)
  end.

(** The tree [shunt] makes of the text of [t]. *)
Definition norm (t : expr) : expr := parse_chain (chain t).

(** Trees whose text parses back to them: no ["+"] or ["*"] has a right
    operand led by an operator of its own precedence, and no ["^"] has a
    left operand led by ["^"]. *)
Definition regroups_right (op : string) (r : expr) : bool :=
  negb (pivot r =? "") && (prec (pivot r) =? prec op)%nat
  && ((op =? "+") || (op =? "*")).

Definition regroups_left (op : string) (l : expr) : bool :=
  (pivot l =? "^") && (op =? "^").

Fixpoint regular (t : expr) : bool :=
  match t with
  | Leaf _ => true
  | Node l op r =>
      regular l && regular r
      && negb (regroups_left op l) && negb (regroups_right op r)
  end.

(** The top of the stack is not popped by the operators of the text of
    [t]. *)
Definition blocks (fs : list frame) (t : expr) : Prop :=
  match fs with
  | FOp _ x :: _ =>
      pivot t = ""
      \/ (in_operator_info x = true
          /\ ((prec x < prec (pivot t))%nat
              \/ (prec x = prec (pivot t) /\ prec x = 2)))
  | _ => True
  end.

(** A frame left pending by the text of [t]. *)
Definition pend_ok (t : expr) (f : frame) : Prop :=
  exists l x,
    f = FOp l x /\ in_operator_info x = true
    /\ (pivot t =? "") = false /\ (prec (pivot t) <= prec x)%nat.

(** A frame that the operator [op] pops. *)
Definition popped_by (op : string) (f : frame) : Prop :=
  exists l x, f = FOp l x /\ satisfied x op = true.

(* ================================================================= *)
(** ** Operands that need their parentheses *)

(** [l] is the left operand of [op] although its own operator would not
    have been popped when [op] arrived: only parentheses put it there. *)
Definition grouped_left (op : string) (l : expr) : bool :=
  negb (pivot l =? "") && negb (satisfied (pivot l) op).

(** [r] is the right operand of [op] although [op] would have been popped
    when the operator of [r] arrived. *)
Definition grouped_right (op : string) (r : expr) : bool :=
  negb (pivot r =? "") && satisfied op (pivot r).

(** The number of operands of [t] that only parentheses can put where they
    are. *)
Fixpoint groupings (t : expr) : nat :=
  match t with
  | Leaf _ => 0
  | Node l op r =>
      groupings l + bit (grouped_left op l)
      + groupings r + bit (grouped_right op r)
  end.

Definition compound (t : expr) : nat :=
  match t with Leaf _ => 0 | Node _ _ _ => 1 end.

(** The groupings already inside the frames. *)
Fixpoint frames_groupings (fs : list frame) : nat :=
  match fs with
  | [] => 0
  | FOp l x :: fs' => groupings l + bit (grouped_left x l) + frames_groupings fs'
  | FParen :: fs' => frames_groupings fs'
  end.

(** No frame would have been popped by the one pushed on it. *)
Fixpoint stacked (fs : list frame) : Prop :=
  match fs with
  | FOp _ x :: fs' =>
      match fs' with
      | FOp _ y :: _ => satisfied y x = false
      | _ => True
      end /\ stacked fs'
  | FParen :: fs' => stacked fs'
  | [] => True
  end.

Definition count_close (tokens : list string) : nat :=
  length (filter (fun k => k =? ")") tokens).

Definition groupings_bound (st : mstate) (n : nat) : Prop :=
  match st with
  | Expect fs => (frames_groupings fs <= n)%nat /\ stacked fs
  | After fs cur =>
      (frames_groupings fs + groupings cur + compound cur <= n)%nat
      /\ stacked fs
  end.

(* ================================================================= *)
(** ** Every parenthesis pair of a text forces a grouping *)

Definition top_op (fs : list frame) : option string :=
  match fs with FOp _ x :: _ => Some x | _ => None end.

(** The reason an operand stands in parentheses: the operator after it or
    the operator before it asked for them. *)
Definition needed (prev : option string) (a : expr) (next : option string)
    : bool :=
  (pivot a =? "")
  || match next with Some o => wraps_left o a | None => false end
  || match prev with Some x => wraps_right x a | None => false end.

Fixpoint needed_all (prev : option string) (a : expr)
    (items : list (string * expr)) (next : option string) : bool :=
  match items with
  | [] => needed prev a next
  | (o, a') :: items' =>
      needed prev a (Some o) && needed_all (Some o) a' items' next
  end.

(** The parenthesis pairs of an operand of a chain: its own and those
    inside it. *)
Definition credit (a : expr) : nat :=
  match a with Leaf _ => 0 | Node _ _ _ => 1 + wraps a end.

Fixpoint items_credit (items : list (string * expr)) : nat :=
  match items with
  | [] => 0
  | (_, a) :: items' => credit a + items_credit items'
  end.

Fixpoint frames_wraps (fs : list frame) : nat :=
  match fs with
  | [] => 0
  | FOp l x :: fs' => wraps l + bit (wraps_left x l) + frames_wraps fs'
  | FParen :: fs' => frames_wraps fs'
  end.

Definition item_wf (item : string * expr) : bool :=
  in_operator_info (fst item) && wf_expr (snd item).

(** [b] is the operator of the bottom frame, and no frame binds less. *)
Definition bottom (fs : list frame) (b : string) : Prop :=
  open_parens fs = 0 /\ forallb frame_ok fs = true
  /\ (forall l x, In (FOp l x) fs -> (prec b <= prec x)%nat)
  /\ exists fs0 l, fs = fs0 ++ [FOp l b].

(* ================================================================= *)
(** ** Matching parentheses *)

(** The depth of nesting after the characters [chars], entered at depth
    [d]; [None] when a [")"] closes nothing. *)
Fixpoint paren_depth (chars : list ascii) (d : nat) : option nat :=
  match chars with
  | [] => Some d
  | c :: rest =>
      if str c =? "(" then paren_depth rest (S d)
      else if str c =? ")" then
        match d with
        | O => None
        | S d' => paren_depth rest d'
        end
      else paren_depth rest d
  end.

(** The parentheses of [s] match each other: around such an [s], a ["("]
    and a [")"] are a matching pair. *)
Definition balanced (s : string) : bool :=
  match paren_depth (list_ascii_of_string s) 0 with
  | Some O => true
  | _ => false
  end.

(** The same on tokens. *)
Fixpoint tokens_depth (tokens : list string) (d : nat) : option nat :=
  match tokens with
  | [] => Some d
  | tok :: rest =>
      if tok =? "(" then tokens_depth rest (S d)
      else if tok =? ")" then
        match d with
        | O => None
        | S d' => tokens_depth rest d'
        end
      else tokens_depth rest d
  end.

(** The postfix sequence of the output is that of the input. *)
Definition preserves_postfix (e : string) : Prop :=
  forall out, returns e out -> shunt (tokenize out) = shunt (tokenize e).

(* ================================================================= *)
(** ** Invariants of the loops *)

(** Only operators and ["("] are ever on the stack, so the look-ups
    [operator_info[operators[-1]]] of the source cannot fail. *)
Definition stack_key (k : string) : bool :=
  in_operator_info k || (k =? "(").

(** No ["("] among the operators. *)
Definition no_open_paren (operators : list string) : bool :=
  forallb (fun k => negb (k =? "(")) operators.

(** The entries before [idx]: texts that are not empty and not operators. *)
Definition operand_entry (e : entry) : Prop :=
  fst e <> "" /\ in_operator_info (fst e) = false.

(** The loop ends with exactly one entry, whose text [restore] returns. *)
Definition restore_ends_with_one_entry (p : list string) : Prop :=
  exists fuel e,
    restore_loop fuel 0 (initial_list p) = Some [e]
    /\ restore fuel p = Returned (fst e).

(** A character [re.sub] keeps. *)
Definition no_space (c : ascii) : bool := negb (is_space c).

(** What the buffer of [tokenize] can hold. *)
Definition buf_ok (state : State) (buf : string) : Prop :=
  buf = ""
  \/ (in_operator_info buf = true /\ (state = OPERAND -> buf = "-"))
  \/ (operand_token buf = true /\ state = OPERAND).

(** The state of the machine after an operand. *)
Definition after (st : list frame * expr) : mstate :=
  After (fst st) (snd st).

(** The pivotal operator of an entry is empty or a key of the table, so
    the look-ups [operator_info[...[1]]] of [restore] cannot fail. *)
Definition pivot_key (e : entry) : bool :=
  (snd e =? "") || in_operator_info (snd e).

(* ================================================================= *)
(** ** The callers: run_test and the interactive loop *)

(** How a run of statements ends: normally, with an exception, or not at
    all (the fuel of a call of [restore] ran out). *)
Inductive exception := AssertionError_ | IndexError_ | EOFError_.

Inductive completion :=
| Completed
| Raised (e : exception)
| Looping.

(** [assert remove_unnecessary_parentheses(input) == expected] *)
Definition assert_equal (fuel : nat) (input expected : string) : completion :=
  match remove_unnecessary_parentheses fuel input with
  | Returned s => if s =? expected then Completed else Raised AssertionError_
  | IndexError => Raised IndexError_
  | OutOfFuel => Looping
  end.

(** The assertions of [run_test], in order: input and expected output. *)
Definition test_cases : list (string * string) :=
  [ ("1 +  (2 * 3)", "1+2*3");
    ("1*(2+(3*(4+5)))", "1*(2+3*(4+5))");
    ("2 + (3 / -5)", "2+3/-5");
    ("(2 + ((3 / (-5))))", "2+3/-5");
    ("x123+(y+z)+(t+(v+w))", "x123+y+z+t+v+w");
    ("2 + (3^3)", "2+3^3");
    ("-2 + (3 - 2) - 2* 3", "-2+3-2-2*3");
    ("-2 + (3 * 2) - 2* 3", "-2+3*2-2*3");
    ("7+12/(4*2)", "7+12/(4*2)");
    ("-14-12/(4/2)", "-14-12/(4/2)");
    ("(x1+y1)*(x2*y2-(x3*y3))", "(x1+y1)*(x2*y2-x3*y3)") ].

Fixpoint run_asserts (fuel : nat) (cases : list (string * string))
    : completion :=
  match cases with
  | [] => Completed
  | (input, expected) :: rest =>
      match assert_equal fuel input expected with
      | Completed => run_asserts fuel rest
      | stop => stop
      end
  end.

Definition run_test (fuel : nat) : completion := run_asserts fuel test_cases.

(** The end of a session of the interactive loop, with what was written to
    the standard output: the prompts of [input] and the lines of [print]
    (without their newline). *)
Inductive session :=
| Exited (stdout : list string)
| Crashed (e : exception) (stdout : list string)
| Hangs (stdout : list string).

(** The [while True] loop of the main block; [stdin] holds the lines
    [input] will read, and [input] raises [EOFError] when there is none. *)
Fixpoint main (fuel : nat) (stdin : list string) (stdout : list string)
    : session :=
  match stdin with
  | [] => Crashed EOFError_ (stdout ++ ["Input:"])
  | user_input :: rest =>
      let stdout := stdout ++ ["Input:"] in
      if user_input =? "quit" then Exited stdout
      else if user_input =? "run_test" then
        match run_test fuel with
        | Completed => main fuel rest (stdout ++ ["All test pass"])
        | Raised e => Crashed e stdout
        | Looping => Hangs stdout
        end
      else
        match remove_unnecessary_parentheses fuel user_input with
        | Returned s => main fuel rest (stdout ++ [("Output: " ++ s)%string])
        | IndexError => Crashed IndexError_ stdout
        | OutOfFuel => Hangs stdout
        end
  end.

(* ================================================================= *)
(** ** Further notions *)

(** A token that is not a parenthesis. *)
Definition not_paren (tok : string) : bool :=
  negb (tok =? "(") && negb (tok =? ")").

(** The operands and operators of a tree, in the order of its text. *)
Fixpoint inorder (t : expr) : list string :=
  match t with
  | Leaf s => [s]
  | Node l op r => inorder l ++ op :: inorder r
  end.

Fixpoint frames_inorder (fs : list frame) : list string :=
  match fs with
  | [] => []
  | FOp l x :: fs' => frames_inorder fs' ++ inorder l ++ [x]
  | FParen :: fs' => frames_inorder fs'
  end.

Definition state_inorder (st : mstate) : list string :=
  match st with
  | Expect fs => frames_inorder fs
  | After fs cur => frames_inorder fs ++ inorder cur
  end.

Definition count_open (tokens : list string) : nat :=
  length (filter (fun k => k =? "(") tokens).

(** The total length of the tokens. *)
Fixpoint total_length (tokens : list string) : nat :=
  match tokens with
  | [] => 0
  | tok :: rest => String.length tok + total_length rest
  end.

(** The string the call returns on a valid expression. *)
Definition answer (e : string) : string :=
  match parse (tokenize e) with
  | Some t => text t
  | None => ""
  end.

(** What the loop of the main block writes in answer to a line that is
    not ["quit"]: the line of [run_test], or the string the call returns. *)
Definition replies (user_input written : string) : Prop :=
  user_input <> "quit"
  /\ ((user_input = "run_test" /\ written = "All test pass")
      \/ (user_input <> "run_test"
          /\ exists s,
               returns user_input s /\ written = ("Output: " ++ s)%string)).

(** The writes of a session in which every line is answered: the prompt
    before each line, then the answer. *)
Definition transcript (written : list string) : list string :=
  flat_map (fun w => ["Input:"; w]) written.

(** The tokens of an operand of a chain: a compound one stands in
    parentheses. *)
Definition atom_tokens (a : expr) : list string :=
  wrap (negb (pivot a =? "")) (tokens_of a).

Fixpoint items_tokens (items : list (string * expr)) : list string :=
  match items with
  | [] => []
  | (o, a) :: items' => o :: atom_tokens a ++ items_tokens items'
  end.

(** The tokens read so far that are held in the frames. *)
Fixpoint frames_tokens (fs : list frame) : list string :=
  match fs with
  | [] => []
  | FOp l x :: fs' =>
      frames_tokens fs' ++ wrap (wraps_left x l) (tokens_of l) ++ [x]
  | FParen :: fs' => frames_tokens fs' ++ ["("]
  end.

(* ================================================================= *)
(** ** The value of an expression *)

(** No ["^"] has a left operand led by ["^"]. *)
Fixpoint no_power_of_power (t : expr) : bool :=
  match t with
  | Leaf _ => true
  | Node l op r =>
      no_power_of_power l && no_power_of_power r
      && negb (regroups_left op l)
  end.

Section Value.

Variable A : Type.
Variable leaf : string -> A.
Variable add : A -> A -> A.
Variable sub : A -> A -> A.
Variable mul : A -> A -> A.
Variable div : A -> A -> A.
Variable pow : A -> A -> A.

Definition apply_op (op : string) (a b : A) : A :=
  if op =? "+" then add a b
  else if op =? "-" then sub a b
  else if op =? "*" then mul a b
  else if op =? "/" then div a b
  else pow a b.

(** The value of a tree, the operands being read by [leaf]. *)
Fixpoint value (t : expr) : A :=
  match t with
  | Leaf s => leaf s
  | Node l op r => apply_op op (value l) (value r)
  end.

(** The tree-building machine on values: a frame holds the value of the
    left operand. *)
Fixpoint vreduce_op (tok : string) (fs : list (A * string)) (cur : A)
    : list (A * string) * A :=
  match fs with
  | (l, x) :: fs' =>
      if satisfied x tok then vreduce_op tok fs' (apply_op x l cur)
      else (fs, cur)
  | [] => (fs, cur)
  end.

Fixpoint vreduce_all (fs : list (A * string)) (cur : A) : A :=
  match fs with
  | (l, x) :: fs' => vreduce_all fs' (apply_op x l cur)
  | [] => cur
  end.

Definition vfeed (st : list (A * string) * A) (item : string * A)
    : list (A * string) * A :=
  let (fs, cur) := st in
  let (op, a) := item in
  let (fs', v) := vreduce_op op fs cur in
  ((v, op) :: fs', a).

Definition vfeed_all (items : list (string * A)) (st : list (A * string) * A)
    : list (A * string) * A :=
  fold_left vfeed items st.

Definition vclose (st : list (A * string) * A) : A :=
  vreduce_all (fst st) (snd st).

Fixpoint frames_values (fs : list frame) : list (A * string) :=
  match fs with
  | [] => []
  | FOp l x :: fs' => (value l, x) :: frames_values fs'
  | FParen :: fs' => frames_values fs'
  end.

Definition items_values (items : list (string * expr)) : list (string * A) :=
  map (fun item => (fst item, value (snd item))) items.

Definition vtop_unsatisfied (fs : list (A * string)) (o : string) : Prop :=
  match fs with
  | (_, y) :: _ => satisfied y o = false
  | [] => True
  end.

Fixpoint vstacked (fs : list (A * string)) : Prop :=
  match fs with
  | (_, x) :: fs' =>
      in_operator_info x = true /\ vtop_unsatisfied fs' x /\ vstacked fs'
  | [] => True
  end.

(** The text of [t] stands unparenthesised after the top of the stack. *)
Definition admits (fs : list (A * string)) (t : expr) : Prop :=
  match fs with
  | (_, x) :: _ => wraps_right x t = false
  | [] => True
  end.

(** The text of [t] stands unparenthesised before what follows. *)
Definition follows (t : expr) (k : list (string * A)) : Prop :=
  match k with
  | (o, _) :: _ =>
      in_operator_info o = true
      /\ wraps_left o t = false /\ regroups_left o t = false
  | [] => True
  end.

End Value.

(* ================================================================= *)
(** * Properties *)

(* ================================================================= *)
(** ** Strings *)

Lemma append_nil_r (s : string) : (s ++ "")%string = s.
Proof. induction s; simpl; congruence. Qed.

Lemma append_assoc (a b c : string) :
  ((a ++ b) ++ c)%string = (a ++ (b ++ c))%string.
Proof. induction a; simpl; congruence. Qed.

Lemma length_append (a b : string) :
  String.length (a ++ b) = String.length a + String.length b.
Proof. induction a; simpl; congruence. Qed.

Lemma list_ascii_append (a b : string) :
  list_ascii_of_string (a ++ b)
  = list_ascii_of_string a ++ list_ascii_of_string b.
Proof. induction a; simpl; congruence. Qed.

Lemma string_of_list_ascii_app (a b : list ascii) :
  string_of_list_ascii (a ++ b)
  = (string_of_list_ascii a ++ string_of_list_ascii b)%string.
Proof. induction a; simpl; congruence. Qed.

Lemma join_app (a b : list string) :
  join (a ++ b) = (join a ++ join b)%string.
Proof.
  induction a as [|x a IH]; simpl; [reflexivity|].
  now rewrite IH, append_assoc.
Qed.

Lemma join_flush (output : list string) (buf : string) :
  join (flush output buf) = (join output ++ buf)%string.
Proof.
  unfold flush. destruct (String.eqb_spec buf "") as [->|_].
  - now rewrite append_nil_r.
  - rewrite join_app. simpl. now rewrite append_nil_r.
Qed.

(* ================================================================= *)
(** ** The operator table *)

Lemma in_operator_info_cases (k : string) :
  in_operator_info k = true ->
  k = "+" \/ k = "-" \/ k = "*" \/ k = "/" \/ k = "^".
Proof.
  unfold in_operator_info, operator_info.
  destruct (String.eqb_spec k "+"); [auto|].
  destruct (String.eqb_spec k "-"); [auto|].
  destruct (String.eqb_spec k "*"); [auto|].
  destruct (String.eqb_spec k "/"); [auto|].
  destruct (String.eqb_spec k "^"); [auto 6|].
  discriminate.
Qed.

Ltac operator_cases H :=
  apply in_operator_info_cases in H;
  destruct H as [H|[H|[H|[H|H]]]]; subst.

Lemma operator_length (k : string) :
  in_operator_info k = true -> String.length k = 1.
Proof. intros H. operator_cases H; reflexivity. Qed.

Lemma operator_not_paren (k : string) :
  in_operator_info k = true -> (k =? "(") = false /\ (k =? ")") = false.
Proof. intros H. operator_cases H; split; reflexivity. Qed.

(* ================================================================= *)
(** ** tokenize *)

Lemma join_tokenize_loop (chars : list ascii) :
  forall output state buf,
    join (tokenize_loop chars output state buf)
    = (join output ++ buf ++ string_of_list_ascii chars)%string.
Proof.
  induction chars as [|c chars IH]; intros output state buf; simpl.
  - now rewrite join_flush, append_nil_r.
  - destruct (is_paren c).
    + rewrite IH, join_app, join_flush. simpl.
      now rewrite !append_assoc.
    + destruct (in_operator_info (str c)).
      * rewrite IH, join_flush. simpl. now rewrite !append_assoc.
      * destruct (negb (State_eqb state OPERAND)).
        -- rewrite IH, join_flush. simpl. now rewrite !append_assoc.
        -- rewrite IH. simpl. now rewrite !append_assoc.
Qed.

(** C8.  Concatenating the tokens of [tokenize input] in order gives back the
    input with all white space removed: no character is lost, duplicated or
    reordered. *)
Theorem tokenize_concatenation (input_string : string) :
  join (tokenize input_string)
  = string_of_list_ascii (cleaned input_string).
Proof.
  unfold tokenize. now rewrite join_tokenize_loop.
Qed.

Lemma flush_app (output : list string) (buf : string) :
  flush output buf = output ++ flush [] buf.
Proof.
  unfold flush. destruct (buf =? ""); [now rewrite app_nil_r | reflexivity].
Qed.

(** The tokens already emitted are a prefix of the result. *)
Lemma tokenize_loop_output (chars : list ascii) :
  forall output state buf,
    tokenize_loop chars output state buf
    = output ++ tokenize_loop chars [] state buf.
Proof.
  induction chars as [|c chars IH]; intros output state buf; simpl.
  - apply flush_app.
  - destruct (is_paren c).
    + rewrite IH, (IH (flush [] buf ++ _)), (flush_app output).
      now rewrite !app_assoc.
    + destruct (in_operator_info (str c)).
      * rewrite IH, (IH (flush [] buf)), (flush_app output).
        now rewrite !app_assoc.
      * destruct (negb (State_eqb state OPERAND)).
        -- rewrite IH, (IH (flush [] buf)), (flush_app output).
           now rewrite !app_assoc.
        -- apply IH.
Qed.

Lemma flush_nonempty (output : list string) (buf : string) :
  buf <> "" -> flush output buf = output ++ [buf].
Proof.
  intros H. unfold flush. now destruct (String.eqb_spec buf "").
Qed.

(** Operand characters met in state OPERAND extend the buffer. *)
Lemma tokenize_loop_operand_chars (cs : list ascii) :
  forall rest output buf,
    forallb is_operand_char cs = true ->
    tokenize_loop (cs ++ rest) output OPERAND buf
    = tokenize_loop rest output OPERAND (buf ++ string_of_list_ascii cs).
Proof.
  induction cs as [|c cs IH]; intros rest output buf H; simpl.
  - now rewrite append_nil_r.
  - simpl in H. apply andb_true_iff in H as [Hc Hcs].
    unfold is_operand_char in Hc. apply andb_true_iff in Hc as [Hp Ho].
    apply negb_true_iff in Hp, Ho. rewrite Hp, Ho. simpl.
    rewrite IH by assumption. now rewrite append_assoc.
Qed.

(** A buffer that holds an operator in state OPERATOR is emitted as a token
    of its own, whatever follows. *)
Lemma tokenize_loop_operator_buffer (chars : list ascii) (output : list string)
    (op : string) :
  op <> "" ->
  exists toks, tokenize_loop chars output OPERATOR op = output ++ op :: toks.
Proof.
  intros Hop. destruct chars as [|c chars]; simpl.
  - exists []. now apply flush_nonempty.
  - destruct (is_paren c).
    + rewrite tokenize_loop_output, flush_nonempty by assumption.
      eexists. rewrite <- !app_assoc. reflexivity.
    + destruct (in_operator_info (str c)).
      * rewrite tokenize_loop_output, flush_nonempty by assumption.
        eexists. rewrite <- !app_assoc. reflexivity.
      * simpl. rewrite tokenize_loop_output, flush_nonempty by assumption.
        eexists. rewrite <- !app_assoc. reflexivity.
Qed.

(** A non-empty buffer in state OPERAND is emitted when the input ends or
    goes on with a parenthesis or an operator. *)
Lemma tokenize_loop_operand_buffer (rest : list ascii) (output : list string)
    (buf : string) :
  buf <> "" ->
  match rest with [] => true | c :: _ => negb (is_operand_char c) end = true ->
  exists toks, tokenize_loop rest output OPERAND buf = output ++ buf :: toks.
Proof.
  intros Hbuf Hrest. destruct rest as [|c rest]; simpl.
  - exists []. now apply flush_nonempty.
  - unfold is_operand_char in Hrest. apply negb_true_iff in Hrest.
    destruct (is_paren c); simpl in Hrest.
    + rewrite tokenize_loop_output, flush_nonempty by assumption.
      eexists. rewrite <- !app_assoc. reflexivity.
    + apply negb_false_iff in Hrest. rewrite Hrest.
      rewrite tokenize_loop_output, flush_nonempty by assumption.
      eexists. rewrite <- !app_assoc. reflexivity.
Qed.

(** C7.  A ["-"] met in state OPERATOR or UNKNOWN starts a new operand buffer
    holding ["-"] in state OPERAND, and the operand characters [cs] that
    follow (neither operators nor parentheses) merge with it into the single
    token ["-" ++ cs]; a ["-"] met in state OPERAND is emitted as a token of
    its own whatever follows, and so is a ["+"] in every state, a leading
    one included. *)
Theorem unary_minus_tokenization (cs rest : list ascii) (output : list string)
    (state : State) (buf : string) :
  (state <> OPERAND ->
   forallb is_operand_char cs = true ->
   match rest with [] => true | c :: _ => negb (is_operand_char c) end = true ->
     tokenize_loop ("-"%char :: cs ++ rest) output state buf
     = tokenize_loop rest (flush output buf) OPERAND
         ("-" ++ string_of_list_ascii cs)
     /\ exists toks,
       tokenize_loop ("-"%char :: cs ++ rest) output state buf
       = flush output buf ++ ("-" ++ string_of_list_ascii cs)%string :: toks)
  /\ (tokenize_loop ("-"%char :: rest) output OPERAND buf
      = tokenize_loop rest (flush output buf) OPERATOR "-"
      /\ exists toks,
        tokenize_loop ("-"%char :: rest) output OPERAND buf
        = flush output buf ++ "-" :: toks)
  /\ (tokenize_loop ("+"%char :: rest) output state buf
      = tokenize_loop rest (flush output buf) OPERATOR "+"
      /\ exists toks,
        tokenize_loop ("+"%char :: rest) output state buf
        = flush output buf ++ "+" :: toks)
  /\ (exists toks,
       tokenize (String "+" (string_of_list_ascii rest)) = "+" :: toks).
Proof.
  split; [|split; [|split]].
  - intros Hst Hcs Hrest.
    assert (E : State_eqb state OPERATOR || State_eqb state UNKNOWN = true)
      by (destruct state; simpl; congruence).
    assert (S : tokenize_loop ("-"%char :: cs ++ rest) output state buf
                = tokenize_loop rest (flush output buf) OPERAND
                    ("-" ++ string_of_list_ascii cs)).
    { simpl. rewrite E. simpl. now apply tokenize_loop_operand_chars. }
    split; [exact S|]. rewrite S.
    apply tokenize_loop_operand_buffer; [discriminate | assumption].
  - split; [reflexivity|].
    simpl. apply tokenize_loop_operator_buffer. discriminate.
  - split; [reflexivity|].
    simpl. apply tokenize_loop_operator_buffer. discriminate.
  - unfold tokenize, cleaned. simpl.
    destruct (tokenize_loop_operator_buffer
                (filter (fun c => negb (is_space c))
                   (list_ascii_of_string (string_of_list_ascii rest)))
                (flush [] "") "+") as [toks E]; [discriminate|].
    exists toks. exact E.
Qed.

Lemma unary_minus_tokenization_witness :
  tokenize "-2" = ["-2"] /\ tokenize "1-2" = ["1"; "-"; "2"]
  /\ tokenize "3*-x" = ["3"; "*"; "-x"] /\ tokenize "+2" = ["+"; "2"]
  /\ exists toks,
       tokenize_loop ["-"; "2"]%char [] UNKNOWN ""
       = flush [] "" ++ "-2" :: toks.
Proof.
  repeat split.
  apply (proj1 (unary_minus_tokenization ["2"%char] [] [] UNKNOWN ""));
    [discriminate | reflexivity | reflexivity].
Defined.

(* ================================================================= *)
(** ** shunt *)

Lemma pop_operators_keys (tok : string) (operators : list string) :
  forall output,
    forallb stack_key operators = true ->
    forallb stack_key (fst (pop_operators tok operators output)) = true.
Proof.
  induction operators as [|top rest IH]; intros output H; simpl; [reflexivity|].
  simpl in H. apply andb_true_iff in H as [Ht Hr].
  destruct (satisfied top tok); [now apply IH|].
  simpl. now rewrite Ht, Hr.
Qed.

Lemma pop_to_paren_keys (operators : list string) :
  forall output,
    forallb stack_key operators = true ->
    forallb stack_key (fst (pop_to_paren operators output)) = true.
Proof.
  induction operators as [|top rest IH]; intros output H; simpl; [reflexivity|].
  simpl in H. apply andb_true_iff in H as [Ht Hr].
  destruct (top =? "(") eqn:E; [|now apply IH].
  simpl. now rewrite Ht, Hr.
Qed.

Lemma shunt_step_keys (st : list string * list string) (tok : string) :
  forallb stack_key (fst st) = true ->
  forallb stack_key (fst (shunt_step st tok)) = true.
Proof.
  destruct st as [operators output]. simpl. intros H.
  destruct (in_operator_info tok) eqn:Eop.
  - pose proof (pop_operators_keys tok operators output H) as K.
    destruct (pop_operators tok operators output) as [o' out']. simpl in *.
    unfold stack_key at 1. now rewrite Eop, K.
  - destruct (tok =? "(") eqn:El.
    + simpl. unfold stack_key at 1. now rewrite El, orb_true_r, H.
    + destruct (tok =? ")").
      * pose proof (pop_to_paren_keys operators output H) as K.
        destruct (pop_to_paren operators output) as [o' out']. simpl in *.
        destruct o' as [|top rest]; [reflexivity|].
        simpl in K. apply andb_true_iff in K as [Kt Kr].
        destruct (top =? "("); simpl; [assumption | now rewrite Kt, Kr].
      * assumption.
Qed.

Lemma shunt_loop_keys (tokens : list string) :
  forall st,
    forallb stack_key (fst st) = true ->
    forallb stack_key (fst (shunt_loop tokens st)) = true.
Proof.
  induction tokens as [|tok tokens IH]; intros st H; simpl; [assumption|].
  apply IH. now apply shunt_step_keys.
Qed.

Lemma shunt_loop_app (a b : list string) (st : list string * list string) :
  shunt_loop (a ++ b) st = shunt_loop b (shunt_loop a st).
Proof. apply fold_left_app. Qed.

Lemma pop_to_paren_found (popped : list string) :
  forall rest output,
    no_open_paren popped = true ->
    pop_to_paren (popped ++ "(" :: rest) output
    = ("(" :: rest, output ++ popped).
Proof.
  induction popped as [|x popped IH]; intros rest output H; simpl.
  - now rewrite app_nil_r.
  - simpl in H. apply andb_true_iff in H as [Hx Hp].
    apply negb_true_iff in Hx. rewrite Hx, IH by assumption.
    now rewrite <- app_assoc.
Qed.

Lemma pop_to_paren_emptied (popped : list string) :
  forall output,
    no_open_paren popped = true ->
    pop_to_paren popped output = ([], output ++ popped).
Proof.
  induction popped as [|x popped IH]; intros output H; simpl.
  - now rewrite app_nil_r.
  - simpl in H. apply andb_true_iff in H as [Hx Hp].
    apply negb_true_iff in Hx. rewrite Hx, IH by assumption.
    now rewrite <- app_assoc.
Qed.

(** Any stack either has a nearest ["("], with none above it, or has
    none at all. *)
Lemma nearest_open_paren (operators : list string) :
  (exists popped rest,
      operators = popped ++ "(" :: rest /\ no_open_paren popped = true)
  \/ no_open_paren operators = true.
Proof.
  induction operators as [|top operators IH]; [now right|].
  destruct (top =? "(") eqn:E.
  - apply String.eqb_eq in E. subst top. left. now exists [], operators.
  - destruct IH as [(popped & rest & -> & H)|H].
    + left. exists (top :: popped), rest. split; [reflexivity|].
      simpl. now rewrite E.
    + right. simpl. now rewrite E.
Qed.

(** C6.  On a [")"] the converter pops the operators above the nearest ["("]
    to the output and discards that ["("] without emitting it; when there is
    no ["("] the whole stack is popped and the step ends normally, with an
    empty stack; every stack is of one of these two kinds.  After the last
    token of any sequence, all that is left on the stack, whatever it is, is
    appended to the output from the top down: what was pushed last comes
    first, an unmatched ["("] included. *)
Theorem shunt_unmatched_parentheses (popped rest output : list string) :
  no_open_paren popped = true ->
  shunt_step (popped ++ "(" :: rest, output) ")" = (rest, output ++ popped)
  /\ shunt_step (popped, output) ")" = ([], output ++ popped)
  /\ (forall operators out,
        (exists above below,
            operators = above ++ "(" :: below
            /\ no_open_paren above = true
            /\ shunt_step (operators, out) ")" = (below, out ++ above))
        \/ (no_open_paren operators = true
            /\ shunt_step (operators, out) ")" = ([], out ++ operators)))
  /\ (forall tokens operators out,
        shunt_loop tokens ([], []) = (operators, out) ->
        shunt tokens = out ++ operators)
  /\ (forall tokens,
        shunt (tokens ++ [")"])
        = snd (shunt_step (shunt_loop tokens ([], [])) ")")
          ++ fst (shunt_step (shunt_loop tokens ([], [])) ")"))
  /\ (forall tokens,
        shunt (tokens ++ ["("])
        = snd (shunt_loop tokens ([], []))
          ++ "(" :: fst (shunt_loop tokens ([], []))).
Proof.
  intros H. split; [|split; [|split; [|split; [|split]]]].
  - simpl. now rewrite pop_to_paren_found.
  - simpl. rewrite pop_to_paren_emptied by assumption. reflexivity.
  - intros operators out.
    destruct (nearest_open_paren operators) as [(above & below & -> & K)|K].
    + left. exists above, below. split; [reflexivity|]. split; [exact K|].
      simpl. now rewrite pop_to_paren_found.
    + right. split; [exact K|]. simpl.
      rewrite pop_to_paren_emptied by assumption. reflexivity.
  - intros tokens operators out E. unfold shunt. now rewrite E.
  - intros tokens. unfold shunt. rewrite shunt_loop_app. simpl.
    now destruct (shunt_step (shunt_loop tokens ([], [])) ")").
  - intros tokens. unfold shunt. rewrite shunt_loop_app. simpl.
    now destruct (shunt_loop tokens ([], [])).
Qed.

Lemma shunt_unmatched_parentheses_witness :
  shunt_step (["*"; "+"] ++ "(" :: ["-"], ["1"; "2"; "3"]) ")"
  = (["-"], ["1"; "2"; "3"] ++ ["*"; "+"])
  /\ shunt_step (["*"; "+"], ["1"; "2"; "3"]) ")"
     = ([], ["1"; "2"; "3"] ++ ["*"; "+"])
  /\ shunt ["1"; "+"; "2"; "*"; "3"] = ["1"; "2"; "3"] ++ ["*"; "+"]
  /\ shunt ["("; "1"; "+"; "2"] = ["1"; "2"] ++ ["+"; "("]
  /\ shunt (["1"; ")"; "+"; "2"; ")"] ++ [")"]) = ["1"; "2"; "+"]
  /\ shunt (["1"; "+"; "2"; "*"] ++ ["("]) = ["1"; "2"] ++ "(" :: ["*"; "+"].
Proof.
  destruct (shunt_unmatched_parentheses ["*"; "+"] ["-"] ["1"; "2"; "3"]
              eq_refl) as (A & B & _ & C & D & E).
  split; [exact A|]. split; [exact B|].
  split; [exact (C ["1"; "+"; "2"; "*"; "3"] ["*"; "+"] ["1"; "2"; "3"]
                   eq_refl)|].
  split; [exact (C ["("; "1"; "+"; "2"] ["+"; "("] ["1"; "2"] eq_refl)|].
  split; [exact (D ["1"; ")"; "+"; "2"; ")"])|].
  exact (E ["1"; "+"; "2"; "*"]).
Defined.

(* ================================================================= *)
(** ** restore: the loop *)

Lemma returns_with (fuel : nat) (input_expr s : string) :
  remove_unnecessary_parentheses fuel input_expr = Returned s ->
  returns input_expr s.
Proof. intros H. now exists fuel. Qed.

Lemma restore_loop_rounds (n : nat) :
  forall m idx lst,
    restore_loop (n + m) idx lst
    = restore_loop m (fst (restore_rounds n idx lst))
        (snd (restore_rounds n idx lst)).
Proof.
  induction n as [|n IH]; intros m idx lst; simpl; [reflexivity|].
  destruct (idx <? length lst)%nat eqn:E.
  - destruct (restore_body idx lst) as [idx' l']. apply IH.
  - simpl. destruct m; simpl; now rewrite E.
Qed.

Lemma restore_loop_more (fuel : nat) :
  forall k idx lst r,
    restore_loop fuel idx lst = Some r ->
    restore_loop (fuel + k) idx lst = Some r.
Proof.
  induction fuel as [|fuel IH]; intros k idx lst r; simpl.
  - destruct (idx <? length lst)%nat eqn:E; [discriminate|].
    intros H. destruct k; simpl; now rewrite E.
  - destruct (idx <? length lst)%nat; [|auto].
    destruct (restore_body idx lst) as [idx' l']. apply IH.
Qed.

(** A state whose round changes nothing is never left. *)
Lemma restore_loop_stuck (idx : nat) (lst : list entry) :
  (idx < length lst)%nat ->
  restore_body idx lst = (idx, lst) ->
  forall fuel, restore_loop fuel idx lst = None.
Proof.
  intros Hlt Hbody fuel. apply Nat.ltb_lt in Hlt.
  induction fuel as [|fuel IH]; simpl; rewrite Hlt; [reflexivity|].
  now rewrite Hbody.
Qed.

Lemma restore_rounds_stuck (idx : nat) (lst : list entry) :
  restore_body idx lst = (idx, lst) ->
  forall m, restore_rounds m idx lst = (idx, lst).
Proof.
  intros Hbody m. induction m as [|m IH]; simpl; [reflexivity|].
  destruct (idx <? length lst)%nat; [|reflexivity].
  now rewrite Hbody.
Qed.

Lemma restore_rounds_add (n : nat) :
  forall m idx lst,
    restore_rounds (n + m) idx lst
    = restore_rounds m (fst (restore_rounds n idx lst))
        (snd (restore_rounds n idx lst)).
Proof.
  induction n as [|n IH]; intros m idx lst; simpl; [reflexivity|].
  destruct (idx <? length lst)%nat eqn:E.
  - destruct (restore_body idx lst) as [idx' l']. apply IH.
  - simpl. destruct m; simpl; [reflexivity | now rewrite E].
Qed.

(** The guard [idx >= 2] fails: the round leaves [idx] and the list as they
    are. *)
Lemma restore_body_stray (idx : nat) (lst : list entry) :
  (idx < 2)%nat ->
  in_operator_info (fst (nth idx lst dummy)) = true ->
  restore_body idx lst = (idx, lst).
Proof.
  intros Hlt Hop. unfold restore_body. rewrite Hop.
  destruct (Nat.leb_spec 2 idx); [lia | reflexivity].
Qed.

Lemma restore_diverges_from (p : list string) (n idx : nat) (lst : list entry) :
  restore_rounds n 0 (initial_list p) = (idx, lst) ->
  (idx < length lst)%nat ->
  restore_body idx lst = (idx, lst) ->
  diverges p.
Proof.
  intros Hn Hlt Hbody fuel. unfold restore.
  destruct (restore_loop fuel 0 (initial_list p)) as [r|] eqn:E; [|reflexivity].
  exfalso.
  apply (restore_loop_more fuel n) in E.
  rewrite Nat.add_comm in E.
  rewrite (restore_loop_rounds n fuel), Hn in E. simpl in E.
  now rewrite restore_loop_stuck in E.
Qed.

Lemma forallb_firstn_skipn {A} (f : A -> bool) (n : nat) (l : list A) :
  forallb f l = true ->
  forallb f (firstn n l) = true /\ forallb f (skipn n l) = true.
Proof.
  intros H. rewrite <- (firstn_skipn n l), forallb_app in H.
  now apply andb_true_iff in H.
Qed.

(** The look-ups of [restore] stay inside the table. *)
Lemma restore_body_keys (idx : nat) (lst : list entry) :
  forallb pivot_key lst = true ->
  forallb pivot_key (snd (restore_body idx lst)) = true.
Proof.
  intros H. unfold restore_body.
  destruct (in_operator_info (fst (nth idx lst dummy))) eqn:E; [|exact H].
  destruct (2 <=? idx)%nat; [|exact H]. cbn [snd].
  rewrite !forallb_app. cbn [forallb].
  destruct (forallb_firstn_skipn pivot_key (idx - 2) lst H) as [A _].
  destruct (forallb_firstn_skipn pivot_key (idx + 1) lst H) as [_ B].
  rewrite A, B. unfold pivot_key, new_entry. cbn [snd].
  now rewrite E, orb_true_r.
Qed.

Lemma restore_rounds_keys (n : nat) :
  forall idx (p : list string) lst,
    forallb pivot_key lst = true ->
    forallb pivot_key (snd (restore_rounds n idx lst)) = true.
Proof.
  induction n as [|n IH]; intros idx p lst H; simpl; [exact H|].
  destruct (idx <? length lst)%nat; [|exact H].
  pose proof (restore_body_keys idx lst H) as K.
  destruct (restore_body idx lst) as [idx' l']. now apply (IH idx' p).
Qed.

Lemma initial_list_keys (p : list string) :
  forallb pivot_key (initial_list p) = true.
Proof. induction p; simpl; auto. Qed.

(** C9.  The inputs ["1+"] and ["-(2+3)"] lead [restore] to an operator that
    has fewer than two entries before it when it is scanned; and whenever the
    loop reaches such a state the round changes neither [idx] nor the list,
    every later round finds the same state, and [restore] (hence
    [remove_unnecessary_parentheses]) never returns. *)
Theorem stray_operator_diverges :
  (shunt (tokenize "1+") = ["1"; "+"]
   /\ restore_rounds 1 0 (initial_list (shunt (tokenize "1+")))
      = (1, [("1", ""); ("+", "")])
   /\ forall fuel, remove_unnecessary_parentheses fuel "1+" = OutOfFuel)
  /\ (shunt (tokenize "-(2+3)") = ["2"; "3"; "+"; "-"]
      /\ restore_rounds 4 0 (initial_list (shunt (tokenize "-(2+3)")))
         = (1, [("2+3", "+"); ("-", "")])
      /\ forall fuel, remove_unnecessary_parentheses fuel "-(2+3)" = OutOfFuel)
  /\ forall (p : list string) (n idx : nat) (lst : list entry),
      restore_rounds n 0 (initial_list p) = (idx, lst) ->
      (idx < length lst)%nat ->
      (idx < 2)%nat ->
      in_operator_info (fst (nth idx lst dummy)) = true ->
      restore_body idx lst = (idx, lst)
      /\ (forall m, restore_rounds (n + m) 0 (initial_list p) = (idx, lst))
      /\ diverges p.
Proof.
  assert (G : forall (p : list string) (n idx : nat) (lst : list entry),
      restore_rounds n 0 (initial_list p) = (idx, lst) ->
      (idx < length lst)%nat ->
      (idx < 2)%nat ->
      in_operator_info (fst (nth idx lst dummy)) = true ->
      restore_body idx lst = (idx, lst)
      /\ (forall m, restore_rounds (n + m) 0 (initial_list p) = (idx, lst))
      /\ diverges p).
  { intros p n idx lst Hn Hlt H2 Hop.
    pose proof (restore_body_stray idx lst H2 Hop) as Hbody.
    split; [assumption|]. split.
    - intros m. rewrite restore_rounds_add, Hn. simpl.
      now apply restore_rounds_stuck.
    - now apply (restore_diverges_from p n idx lst). }
  split; [|split; [|exact G]].
  - split; [reflexivity|]. split; [reflexivity|].
    intros fuel. unfold remove_unnecessary_parentheses.
    apply (G (shunt (tokenize "1+")) 1 1 [("1", ""); ("+", "")]);
      [reflexivity | simpl; lia | lia | reflexivity].
  - split; [reflexivity|]. split; [reflexivity|].
    intros fuel. unfold remove_unnecessary_parentheses.
    apply (G (shunt (tokenize "-(2+3)")) 4 1 [("2+3", "+"); ("-", "")]);
      [reflexivity | simpl; lia | lia | reflexivity].
Qed.

Lemma stray_operator_diverges_witness :
  restore_body 0 [("*", "")] = (0, [("*", "")])
  /\ (forall m, restore_rounds (0 + m) 0 (initial_list ["*"]) = (0, [("*", "")]))
  /\ diverges ["*"].
Proof.
  destruct stray_operator_diverges as (_ & _ & G).
  apply (G ["*"] 0 0 [("*", "")]);
    [reflexivity | simpl; lia | lia | reflexivity].
Defined.

(** C10.  On the empty string, and on a string of white space only,
    [tokenize] and [shunt] return the empty list and [restore] then fails at
    [postfix_obj_list[0][0]]: the call raises [IndexError], it returns no
    string. *)
Theorem empty_input_index_error (input_expr : string) :
  forallb is_space (list_ascii_of_string input_expr) = true ->
  tokenize input_expr = []
  /\ shunt (tokenize input_expr) = []
  /\ forall fuel, remove_unnecessary_parentheses fuel input_expr = IndexError.
Proof.
  intros H.
  assert (E : cleaned input_expr = []).
  { unfold cleaned. induction (list_ascii_of_string input_expr) as [|c l IH];
      [reflexivity|].
    simpl in *. apply andb_true_iff in H as [Hc Hl].
    rewrite Hc. simpl. now apply IH. }
  assert (T : tokenize input_expr = []) by (unfold tokenize; now rewrite E).
  split; [assumption|]. split; [now rewrite T|].
  intros fuel. unfold remove_unnecessary_parentheses. rewrite T.
  destruct fuel; reflexivity.
Qed.

Lemma empty_input_index_error_witness :
  (tokenize "" = [] /\ shunt (tokenize "") = []
   /\ forall fuel, remove_unnecessary_parentheses fuel "" = IndexError)
  /\ (tokenize "   " = [] /\ shunt (tokenize "   ") = []
      /\ forall fuel, remove_unnecessary_parentheses fuel "   " = IndexError).
Proof.
  split.
  - apply (empty_input_index_error ""). reflexivity.
  - apply (empty_input_index_error "   "). reflexivity.
Defined.

(* ================================================================= *)
(** ** restore: the stack machine it simulates *)

Lemma firstn_length_app {A} (a b : list A) : firstn (length a) (a ++ b) = a.
Proof. induction a; simpl; congruence. Qed.

Lemma skipn_length_app {A} (a b : list A) : skipn (length a) (a ++ b) = b.
Proof. induction a; simpl; congruence. Qed.

Lemma nth_length_app {A} (a b : list A) (x d : A) :
  nth (length a) (a ++ x :: b) d = x.
Proof. induction a; simpl; congruence. Qed.

Lemma nonempty_length (s : string) : s <> "" <-> (1 <= String.length s)%nat.
Proof.
  destruct s; simpl; split; intros H; try congruence; try lia.
Qed.

Lemma left_text_length (cur l : entry) :
  (String.length (fst l) <= String.length (left_text cur l))%nat.
Proof.
  unfold left_text.
  destruct (negb (snd l =? "") && (prec (snd l) <? prec (fst cur))%nat);
    [|lia].
  simpl. rewrite length_append. lia.
Qed.

Lemma right_text_length (cur r : entry) :
  (String.length (fst r) <= String.length (right_text cur r))%nat.
Proof.
  unfold right_text.
  destruct (negb (snd r =? "")); [|lia].
  destruct ((prec (snd r) <? prec (fst cur))%nat
            || (prec (fst cur) =? prec (snd r))%nat
               && ((fst cur =? "/") || (fst cur =? "-")));
    [|lia].
  simpl. rewrite length_append. lia.
Qed.

Lemma new_entry_operand (tok : string) (l r : entry) :
  in_operator_info tok = true ->
  operand_entry l ->
  operand_entry (new_entry (tok, "") l r).
Proof.
  intros Hop [Hl _].
  assert (L : (2 <= String.length (fst (new_entry (tok, "") l r)))%nat).
  { unfold new_entry. cbn [fst]. rewrite !length_append.
    pose proof (left_text_length (tok, "") l).
    apply nonempty_length in Hl. rewrite (operator_length tok Hop). lia. }
  split.
  - apply nonempty_length. lia.
  - destruct (in_operator_info (fst (new_entry (tok, "") l r))) eqn:E;
      [|reflexivity].
    apply operator_length in E. lia.
Qed.

(** A round on an operator with two entries before it: the three entries
    collapse into one and the scan goes back to it. *)
Lemma restore_body_collapse (s : list entry) (l r : entry) (tok : string)
    (rest : list entry) :
  in_operator_info tok = true ->
  restore_body (S (S (length s))) (s ++ l :: r :: (tok, "") :: rest)
  = (length s, s ++ new_entry (tok, "") l r :: rest).
Proof.
  intros Hop.
  set (L := s ++ l :: r :: (tok, "") :: rest).
  assert (N0 : nth (S (S (length s))) L dummy = (tok, "")).
  { replace (S (S (length s))) with (length (s ++ [l; r]))
      by (rewrite length_app; simpl; lia).
    replace L with ((s ++ [l; r]) ++ (tok, "") :: rest)
      by (unfold L; now rewrite <- app_assoc).
    apply nth_length_app. }
  assert (N2 : nth (S (S (length s)) - 2) L dummy = l).
  { replace (S (S (length s)) - 2) with (length s) by lia.
    apply nth_length_app. }
  assert (N1 : nth (S (S (length s)) - 1) L dummy = r).
  { replace (S (S (length s)) - 1) with (length (s ++ [l]))
      by (rewrite length_app; simpl; lia).
    replace L with ((s ++ [l]) ++ r :: (tok, "") :: rest)
      by (unfold L; now rewrite <- app_assoc).
    apply nth_length_app. }
  assert (F : firstn (S (S (length s)) - 2) L = s).
  { replace (S (S (length s)) - 2) with (length s) by lia.
    apply firstn_length_app. }
  assert (K : skipn (S (S (length s)) + 1) L = rest).
  { replace (S (S (length s)) + 1) with (length (s ++ [l; r; (tok, "")]))
      by (rewrite length_app; simpl; lia).
    replace L with ((s ++ [l; r; (tok, "")]) ++ rest)
      by (unfold L; now rewrite <- app_assoc).
    apply skipn_length_app. }
  unfold restore_body. rewrite N0, N1, N2, F, K. cbn [fst]. rewrite Hop.
  cbn [Nat.leb]. f_equal. lia.
Qed.

(** A round on an entry that is not an operator moves on. *)
Lemma restore_body_skip (s : list entry) (e : entry) (rest : list entry) :
  in_operator_info (fst e) = false ->
  restore_body (length s) (s ++ e :: rest) = (S (length s), s ++ e :: rest).
Proof.
  intros H. unfold restore_body. rewrite nth_length_app, H.
  now rewrite Nat.add_1_r.
Qed.

Lemma restore_loop_step (fuel idx : nat) (lst : list entry) (idx' : nat)
    (lst' : list entry) :
  (idx < length lst)%nat ->
  restore_body idx lst = (idx', lst') ->
  restore_loop (S fuel) idx lst = restore_loop fuel idx' lst'.
Proof.
  intros Hlt Hb. apply Nat.ltb_lt in Hlt. simpl. now rewrite Hlt, Hb.
Qed.

(** [restore] runs the stack machine: the entries before [idx] are its
    stack, the rest of the list is the postfix input still to be read. *)
Lemma restore_loop_simulates (p : list string) :
  forall stack,
    Forall operand_entry stack ->
    Forall nonempty p ->
    never_underflows p (length stack) = true ->
    exists fuel stack',
      eval_postfix p stack = Some stack'
      /\ restore_loop fuel (length stack) (rev stack ++ initial_list p)
         = Some (rev stack')
      /\ length stack' = final_depth p (length stack)
      /\ Forall operand_entry stack'.
Proof.
  induction p as [|tok p IH]; intros stack Hst Hne Hok.
  - exists 0, stack. simpl. rewrite app_nil_r, length_rev, Nat.ltb_irrefl. auto.
  - apply Forall_cons_iff in Hne as [Htok Hne]. simpl in Hok |- *.
    destruct (in_operator_info tok) eqn:Eop.
    + apply andb_true_iff in Hok as [Hd Hok].
      destruct stack as [|r [|l s]]; simpl in Hd; try discriminate.
      apply Forall_cons_iff in Hst as [Hr Hst].
      apply Forall_cons_iff in Hst as [Hl Hst].
      pose proof (new_entry_operand tok l r Eop Hl) as Hnew.
      destruct (IH (new_entry (tok, "") l r :: s)) as (fuel & stack' & E & R & D & G).
      * now constructor.
      * assumption.
      * simpl in Hok |- *. exact Hok.
      * exists (S (S fuel)), stack'. split; [assumption|]. split; [|split].
        -- cbn [rev length]. rewrite <- !app_assoc. cbn [app].
           rewrite <- (length_rev s).
           erewrite restore_loop_step;
             [ | rewrite !length_app; simpl; lia
               | now apply restore_body_collapse ].
           erewrite restore_loop_step;
             [ | rewrite !length_app; simpl; lia
               | apply restore_body_skip, Hnew ].
           simpl in R. rewrite <- app_assoc in R. cbn [app] in R.
           rewrite length_rev. exact R.
        -- simpl in D |- *. exact D.
        -- assumption.
    + destruct (IH ((tok, "") :: stack)) as (fuel & stack' & E & R & D & G).
      * constructor; [|assumption]. split; assumption.
      * assumption.
      * assumption.
      * exists (S fuel), stack'. split; [assumption|]. split; [|split].
        -- rewrite <- (length_rev stack).
           erewrite restore_loop_step;
             [ | rewrite !length_app; simpl; lia
               | apply restore_body_skip; exact Eop ].
           simpl in R. rewrite <- app_assoc in R. cbn [app] in R.
           rewrite length_rev. exact R.
        -- assumption.
        -- assumption.
Qed.

Lemma restore_body_shrinks (idx : nat) (lst : list entry) :
  (idx < length lst)%nat ->
  (2 <= idx)%nat ->
  in_operator_info (fst (nth idx lst dummy)) = true ->
  fst (restore_body idx lst) = idx - 2
  /\ length (snd (restore_body idx lst)) + 2 = length lst.
Proof.
  intros Hlt H2 Hop. unfold restore_body. rewrite Hop.
  destruct (Nat.leb_spec 2 idx); [|lia]. cbn [fst snd].
  split; [reflexivity|].
  rewrite !length_app, length_firstn, length_skipn. simpl. lia.
Qed.

Lemma final_depth_positive (p : list string) :
  forall depth,
    never_underflows p depth = true ->
    (1 <= depth)%nat ->
    (1 <= final_depth p depth)%nat.
Proof.
  induction p as [|tok p IH]; intros depth Hok Hd;
    cbn [never_underflows final_depth] in *; [assumption|].
  destruct (in_operator_info tok).
  - apply andb_true_iff in Hok as [H2 Hok]. apply Nat.leb_le in H2.
    apply IH; [assumption | lia].
  - apply IH; [assumption | lia].
Qed.

(** C4, as stated, fails: on the postfix sequence [1 2] (what [shunt] makes
    of ["(1)(2)"]) the stack machine never underflows, yet the loop of
    [restore] ends with two entries. *)
Lemma restore_two_entries_remain :
  shunt (tokenize "(1)(2)") = ["1"; "2"]
  /\ never_underflows ["1"; "2"] 0 = true
  /\ ~ restore_ends_with_one_entry ["1"; "2"].
Proof.
  split; [reflexivity|]. split; [reflexivity|].
  intros (fuel & e & H & _).
  apply (restore_loop_more fuel 2) in H.
  rewrite Nat.add_comm in H.
  assert (K : restore_loop 2 0 (initial_list ["1"; "2"])
              = Some [("1", ""); ("2", "")]) by reflexivity.
  apply (restore_loop_more 2 fuel) in K.
  rewrite K in H. discriminate.
Qed.

(** The tokens have to be non-empty: on [["", "", "+"]] the stack machine
    does not underflow, but the collapse leaves the entry [("+", "+")] at
    index 0, which the loop takes for an operator, and stays there. *)
Lemma restore_empty_tokens_loop :
  never_underflows [""; ""; "+"] 0 = true
  /\ restore_rounds 3 0 (initial_list [""; ""; "+"]) = (0, [("+", "+")])
  /\ diverges [""; ""; "+"].
Proof.
  split; [reflexivity|]. split; [reflexivity|].
  apply (restore_diverges_from [""; ""; "+"] 3 0 [("+", "+")]).
  - reflexivity.
  - simpl. lia.
  - reflexivity.
Qed.

(** C4, amended.  On a postfix sequence of non-empty tokens that the
    two-operand stack machine evaluates without underflow, the loop of
    [restore] terminates; each collapse moves the scan back by two and
    shrinks the list by two entries; the loop ends with as many entries as
    the stack machine leaves, in the same order, and [restore] returns the
    text of the first of them when the sequence is not empty; exactly one
    entry remains when the machine leaves one. *)
Theorem restore_terminates (p : list string) :
  Forall nonempty p ->
  never_underflows p 0 = true ->
  (forall idx lst,
      (idx < length lst)%nat -> (2 <= idx)%nat ->
      in_operator_info (fst (nth idx lst dummy)) = true ->
      fst (restore_body idx lst) = idx - 2
      /\ length (snd (restore_body idx lst)) + 2 = length lst)
  /\ exists fuel stack,
      eval_postfix p [] = Some stack
      /\ restore_loop fuel 0 (initial_list p) = Some (rev stack)
      /\ length (rev stack) = final_depth p 0
      /\ (p <> [] ->
          exists e rest,
            rev stack = e :: rest /\ restore fuel p = Returned (fst e))
      /\ (final_depth p 0 = 1 -> restore_ends_with_one_entry p).
Proof.
  intros Hne Hok. split; [apply restore_body_shrinks|].
  destruct (restore_loop_simulates p [] (Forall_nil _) Hne Hok)
    as (fuel & stack & E & R & D & _).
  simpl in R, D.
  exists fuel, stack. split; [assumption|]. split; [assumption|].
  split; [now rewrite length_rev|].
  assert (P : p <> [] -> exists e rest,
             rev stack = e :: rest /\ restore fuel p = Returned (fst e)).
  { intros Hp. unfold restore. rewrite R.
    destruct (rev stack) as [|e rest] eqn:Er.
    - exfalso. apply (f_equal (@length _)) in Er.
      rewrite length_rev, D in Er. simpl in Er.
      destruct p as [|tok p]; [congruence|]. simpl in *.
      destruct (in_operator_info tok); [discriminate|].
      pose proof (final_depth_positive p 1 Hok). lia.
    - now exists e, rest. }
  split; [exact P|].
  intros H1. destruct p as [|tok p]; [discriminate|].
  destruct P as (e & rest & Er & Ret); [discriminate|].
  exists fuel, e. split; [|assumption].
  rewrite R, Er. f_equal. f_equal.
  apply (f_equal (@length _)) in Er. rewrite length_rev, D, H1 in Er.
  simpl in Er. destruct rest; [reflexivity | discriminate].
Qed.

Lemma restore_terminates_witness :
  restore_ends_with_one_entry ["1"; "2"; "3"; "*"; "+"].
Proof.
  destruct (restore_terminates ["1"; "2"; "3"; "*"; "+"]) as (_ & F).
  - repeat constructor; discriminate.
  - reflexivity.
  - destruct F as (fuel & stack & _ & _ & _ & _ & One). apply One. reflexivity.
Defined.

(* ================================================================= *)
(** ** shunt computes a parse tree *)

Lemma satisfied_paren (tok : string) : satisfied "(" tok = false.
Proof. reflexivity. Qed.

Lemma operator_eqb_paren (x : string) :
  in_operator_info x = true -> (x =? "(") = false.
Proof. intros H. apply (operator_not_paren x H). Qed.

Lemma pop_operators_frames (tok : string) (fs : list frame) :
  forall cur out,
    forallb frame_ok fs = true ->
    pop_operators tok (frames_ops fs) (out ++ frames_out fs ++ postfix cur)
    = (frames_ops (fst (reduce_op tok fs cur)),
       out ++ frames_out (fst (reduce_op tok fs cur))
           ++ postfix (snd (reduce_op tok fs cur))).
Proof.
  induction fs as [|f fs IH]; intros cur out Hok; simpl; [reflexivity|].
  simpl in Hok. apply andb_true_iff in Hok as [Hf Hok].
  destruct f as [l x|]; simpl.
  - destruct (satisfied x tok) eqn:E; simpl; [|reflexivity].
    rewrite <- (IH (Node l x cur) out Hok). simpl.
    now rewrite <- !app_assoc.
  - reflexivity.
Qed.

Lemma pop_to_paren_frames (fs : list frame) :
  forall cur out,
    forallb frame_ok fs = true ->
    pop_to_paren (frames_ops fs) (out ++ frames_out fs ++ postfix cur)
    = (frames_ops (fst (reduce_all fs cur)),
       out ++ frames_out (fst (reduce_all fs cur))
           ++ postfix (snd (reduce_all fs cur))).
Proof.
  induction fs as [|f fs IH]; intros cur out Hok; simpl; [reflexivity|].
  simpl in Hok. apply andb_true_iff in Hok as [Hf Hok].
  destruct f as [l x|]; simpl.
  - simpl in Hf. rewrite (operator_eqb_paren x Hf).
    rewrite <- (IH (Node l x cur) out Hok). simpl.
    now rewrite <- !app_assoc.
  - reflexivity.
Qed.

Lemma reduce_op_ok (tok : string) (fs : list frame) :
  forall cur,
    forallb frame_ok fs = true ->
    forallb frame_ok (fst (reduce_op tok fs cur)) = true.
Proof.
  induction fs as [|f fs IH]; intros cur Hok; simpl; [reflexivity|].
  pose proof Hok as Hok'. simpl in Hok. apply andb_true_iff in Hok as [Hf Hok].
  destruct f as [l x|]; [|exact Hok'].
  destruct (satisfied x tok); [now apply IH | exact Hok'].
Qed.

Lemma reduce_all_ok (fs : list frame) :
  forall cur,
    forallb frame_ok fs = true ->
    forallb frame_ok (fst (reduce_all fs cur)) = true.
Proof.
  induction fs as [|f fs IH]; intros cur Hok; simpl; [reflexivity|].
  pose proof Hok as Hok'. simpl in Hok. apply andb_true_iff in Hok as [Hf Hok].
  destruct f as [l x|]; [now apply IH | exact Hok'].
Qed.

Lemma is_operand_spec (tok : string) :
  is_operand tok = true ->
  in_operator_info tok = false /\ (tok =? "(") = false /\ (tok =? ")") = false.
Proof.
  unfold is_operand. intros H.
  apply andb_true_iff in H as [H H3]. apply andb_true_iff in H as [H1 H2].
  now rewrite negb_true_iff in H1, H2, H3.
Qed.

(** One step of the tree machine is one round of [shunt]. *)
Lemma fstep_shunt_step (st st' : mstate) (tok : string) :
  forallb frame_ok (state_frames st) = true ->
  fstep st tok = Some st' ->
  shunt_step (shunt_state st) tok = shunt_state st'
  /\ forallb frame_ok (state_frames st') = true.
Proof.
  intros Hok H. destruct st as [fs|fs cur]; simpl in *.
  - destruct (tok =? "(") eqn:El.
    + injection H as <-. apply String.eqb_eq in El. subst tok. simpl.
      rewrite app_nil_r. now split.
    + destruct (is_operand tok) eqn:Eo; [|discriminate].
      injection H as <-. apply is_operand_spec in Eo as (E1 & E2 & E3).
      rewrite E1, E3. now simpl.
  - destruct (tok =? ")") eqn:Er.
    + apply String.eqb_eq in Er. subst tok. simpl.
      pose proof (pop_to_paren_frames fs cur [] Hok) as P. simpl in P.
      rewrite P. pose proof (reduce_all_ok fs cur Hok) as K.
      destruct (reduce_all fs cur) as [fs' t]. simpl in *.
      destruct fs' as [|[l x|] fs']; try discriminate.
      injection H as <-. simpl. rewrite app_nil_r. now split.
    + destruct (in_operator_info tok) eqn:Eo; [|discriminate].
      pose proof (pop_operators_frames tok fs cur [] Hok) as P. simpl in P.
      rewrite P. pose proof (reduce_op_ok tok fs cur Hok) as K.
      destruct (reduce_op tok fs cur) as [fs' t]. simpl in *.
      injection H as <-. simpl. now rewrite Eo, K.
Qed.

Lemma frun_shunt_loop (tokens : list string) :
  forall st st',
    forallb frame_ok (state_frames st) = true ->
    frun tokens st = Some st' ->
    shunt_loop tokens (shunt_state st) = shunt_state st'
    /\ forallb frame_ok (state_frames st') = true.
Proof.
  induction tokens as [|tok tokens IH]; intros st st' Hok H; simpl in *.
  - injection H as <-. now split.
  - destruct (fstep st tok) as [st1|] eqn:E; [|discriminate].
    destruct (fstep_shunt_step st st1 tok Hok E) as [S1 K1].
    rewrite S1. now apply IH.
Qed.

Lemma reduce_all_postfix (fs : list frame) :
  forall cur t,
    reduce_all fs cur = ([], t) ->
    frames_out fs ++ postfix cur ++ frames_ops fs = postfix t.
Proof.
  induction fs as [|f fs IH]; intros cur t H; simpl in *.
  - injection H as <-. now rewrite app_nil_r.
  - destruct f as [l x|]; [|discriminate].
    apply IH in H. simpl in *. rewrite <- H.
    now rewrite <- !app_assoc.
Qed.

(** Where the tree machine accepts, [shunt] returns the postfix form of
    the tree it built. *)
Lemma parse_shunt (tokens : list string) (t : expr) :
  parse tokens = Some t -> shunt tokens = postfix t.
Proof.
  unfold parse, shunt. intros H.
  destruct (frun tokens (Expect [])) as [[fs|fs cur]|] eqn:E; try discriminate.
  destruct (frun_shunt_loop tokens (Expect []) (After fs cur) eq_refl E)
    as [S _].
  simpl in S. rewrite S.
  destruct (reduce_all fs cur) as [[|f fs'] t'] eqn:R; try discriminate.
  injection H as ->. rewrite <- (reduce_all_postfix fs cur t R).
  now rewrite <- app_assoc.
Qed.

Lemma open_parens_cons_op (l : expr) (x : string) (fs : list frame) :
  open_parens (FOp l x :: fs) = open_parens fs.
Proof. reflexivity. Qed.

Lemma open_parens_cons_paren (fs : list frame) :
  open_parens (FParen :: fs) = S (open_parens fs).
Proof. reflexivity. Qed.

Lemma reduce_op_parens (tok : string) (fs : list frame) :
  forall cur, open_parens (fst (reduce_op tok fs cur)) = open_parens fs.
Proof.
  induction fs as [|[l x|] fs IH]; intros cur; simpl; try reflexivity.
  destruct (satisfied x tok); [|reflexivity].
  rewrite IH. reflexivity.
Qed.

Lemma reduce_all_to_paren (fs : list frame) :
  forall cur d,
    open_parens fs = S d ->
    exists fs' t,
      reduce_all fs cur = (FParen :: fs', t) /\ open_parens fs' = d.
Proof.
  induction fs as [|[l x|] fs IH]; intros cur d H; simpl.
  - discriminate.
  - now apply IH.
  - exists fs, cur. split; [reflexivity|]. now injection H.
Qed.

Lemma reduce_all_to_bottom (fs : list frame) :
  forall cur,
    open_parens fs = 0 ->
    exists t, reduce_all fs cur = ([], t).
Proof.
  induction fs as [|[l x|] fs IH]; intros cur H; simpl.
  - now exists cur.
  - now apply IH.
  - discriminate.
Qed.

(** On a well-formed token sequence the tree machine accepts. *)
Lemma valid_frun (tokens : list string) :
  forall st,
    valid_from (state_expects st) (open_parens (state_frames st)) tokens = true ->
    exists fs cur,
      frun tokens st = Some (After fs cur) /\ open_parens fs = 0.
Proof.
  induction tokens as [|tok tokens IH]; intros st H.
  - destruct st as [fs|fs cur]; simpl in H; [discriminate|].
    exists fs, cur. split; [reflexivity|]. now apply Nat.eqb_eq in H.
  - destruct st as [fs|fs cur]; simpl in H |- *.
    + destruct (tok =? "(").
      * apply (IH (Expect (FParen :: fs))). exact H.
      * destruct (is_operand tok); [|discriminate].
        apply (IH (After fs (Leaf tok))). exact H.
    + destruct (tok =? ")").
      * destruct (open_parens fs) as [|d] eqn:Ed; [discriminate|].
        destruct (reduce_all_to_paren fs cur d Ed) as (fs' & t & R & D).
        rewrite R. apply (IH (After fs' t)). simpl. now rewrite D.
      * destruct (in_operator_info tok); [|discriminate].
        pose proof (reduce_op_parens tok fs cur) as P.
        destruct (reduce_op tok fs cur) as [fs' t]. simpl in P.
        apply (IH (Expect (FOp t tok :: fs'))). simpl.
        rewrite open_parens_cons_op, P. exact H.
Qed.

Lemma valid_parse (tokens : list string) :
  valid_tokens tokens = true -> exists t, parse tokens = Some t.
Proof.
  intros H. destruct (valid_frun tokens (Expect []) H) as (fs & cur & R & D).
  unfold parse. rewrite R.
  destruct (reduce_all_to_bottom fs cur D) as [t E]. rewrite E. now exists t.
Qed.

(** The trees of the machine are built from the tokens it reads. *)
Lemma operand_token_nonempty (tok : string) :
  operand_token tok = true -> tok <> "".
Proof. intros H ->. discriminate. Qed.

Lemma reduce_op_wf (tok : string) (fs : list frame) :
  forall cur,
    forallb frame_wf fs = true -> wf_expr cur = true ->
    forallb frame_wf (fst (reduce_op tok fs cur)) = true
    /\ wf_expr (snd (reduce_op tok fs cur)) = true.
Proof.
  induction fs as [|[l x|] fs IH]; intros cur Hfs Hcur; simpl; auto.
  simpl in Hfs. apply andb_true_iff in Hfs as [Hf Hfs].
  destruct (satisfied x tok).
  - apply IH; [assumption|]. simpl.
    apply andb_true_iff in Hf as [Hl Hx]. now rewrite Hl, Hx, Hcur.
  - simpl. now rewrite Hf, Hfs.
Qed.

Lemma reduce_all_wf (fs : list frame) :
  forall cur,
    forallb frame_wf fs = true -> wf_expr cur = true ->
    forallb frame_wf (fst (reduce_all fs cur)) = true
    /\ wf_expr (snd (reduce_all fs cur)) = true.
Proof.
  induction fs as [|[l x|] fs IH]; intros cur Hfs Hcur; simpl; auto.
  simpl in Hfs. apply andb_true_iff in Hfs as [Hf Hfs].
  apply IH; [assumption|]. simpl.
  apply andb_true_iff in Hf as [Hl Hx]. now rewrite Hl, Hx, Hcur.
Qed.

Lemma token_ok_operand (tok : string) :
  token_ok tok = true -> is_operand tok = true -> operand_token tok = true.
Proof.
  unfold token_ok. intros H Ho.
  apply is_operand_spec in Ho as (E1 & E2 & E3).
  now rewrite E1, E2, E3 in H.
Qed.

Lemma fstep_wf (st st' : mstate) (tok : string) :
  state_wf st = true -> token_ok tok = true ->
  fstep st tok = Some st' -> state_wf st' = true.
Proof.
  intros Hwf Htok H. destruct st as [fs|fs cur]; simpl in *.
  - destruct (tok =? "("); [injection H as <-; exact Hwf|].
    destruct (is_operand tok) eqn:Eo; [|discriminate].
    injection H as <-. simpl. rewrite Hwf. simpl.
    now apply token_ok_operand.
  - apply andb_true_iff in Hwf as [Hfs Hcur].
    destruct (tok =? ")").
    + destruct (reduce_all_wf fs cur Hfs Hcur) as [A B].
      destruct (reduce_all fs cur) as [[|[l x|] fs'] t]; try discriminate.
      injection H as <-. simpl in *. now rewrite A, B.
    + destruct (in_operator_info tok) eqn:Eo; [|discriminate].
      destruct (reduce_op_wf tok fs cur Hfs Hcur) as [A B].
      destruct (reduce_op tok fs cur) as [fs' t]. injection H as <-.
      simpl in *. now rewrite A, B, Eo.
Qed.

Lemma frun_wf (tokens : list string) :
  forall st st',
    state_wf st = true -> forallb token_ok tokens = true ->
    frun tokens st = Some st' -> state_wf st' = true.
Proof.
  induction tokens as [|tok tokens IH]; intros st st' Hwf Htok H; simpl in *.
  - now injection H as <-.
  - apply andb_true_iff in Htok as [Ht Htok].
    destruct (fstep st tok) as [st1|] eqn:E; [|discriminate].
    apply (IH st1 st'); [|assumption|assumption].
    now apply (fstep_wf st st1 tok).
Qed.

Lemma parse_wf (tokens : list string) (t : expr) :
  forallb token_ok tokens = true ->
  parse tokens = Some t -> wf_expr t = true.
Proof.
  unfold parse. intros Htok H.
  destruct (frun tokens (Expect [])) as [[fs|fs cur]|] eqn:E; try discriminate.
  pose proof (frun_wf tokens (Expect []) (After fs cur) eq_refl Htok E) as W.
  simpl in W. apply andb_true_iff in W as [Wfs Wcur].
  destruct (reduce_all_wf fs cur Wfs Wcur) as [_ B].
  destruct (reduce_all fs cur) as [[|f fs'] t']; try discriminate.
  injection H as <-. exact B.
Qed.

(* ================================================================= *)
(** ** Operand tokens *)

Lemma long_token_is_operand (c1 c2 : ascii) (s : string) :
  is_operand (String c1 (String c2 s)) = true.
Proof.
  unfold is_operand.
  destruct (in_operator_info (String c1 (String c2 s))) eqn:E.
  - apply operator_length in E. discriminate.
  - simpl. destruct (c1 =? "(")%char; destruct (c1 =? ")")%char; reflexivity.
Qed.

Lemma operand_token_is_operand (tok : string) :
  operand_token tok = true -> is_operand tok = true.
Proof.
  destruct tok as [|c1 [|c2 s]]; intros H.
  - discriminate.
  - unfold operand_token in H. cbn [list_ascii_of_string] in H.
    destruct (str c1 =? "-") eqn:E; [discriminate|].
    cbn [forallb] in H.
    rewrite andb_true_r in H. unfold word_char, is_operand_char in H.
    apply andb_true_iff in H as [H _]. apply andb_true_iff in H as [Hp Ho].
    unfold is_paren in Hp. apply negb_true_iff in Hp.
    apply orb_false_iff in Hp as [P1 P2].
    unfold is_operand. fold (str c1). now rewrite Ho, P1, P2.
  - apply long_token_is_operand.
Qed.

Lemma operand_token_not_operator (tok : string) :
  operand_token tok = true -> in_operator_info tok = false.
Proof.
  intros H. now apply operand_token_is_operand, is_operand_spec in H.
Qed.

(* ================================================================= *)
(** ** Trees and postfix sequences *)

Lemma build_postfix (t : expr) :
  forall rest stack,
    wf_expr t = true ->
    build (postfix t ++ rest) stack = build rest (t :: stack).
Proof.
  induction t as [s|l IHl op r IHr]; intros rest stack H; simpl in *.
  - now rewrite (operand_token_not_operator s H).
  - apply andb_true_iff in H as [H Hr]. apply andb_true_iff in H as [Hl Hop].
    rewrite <- !app_assoc, IHl, IHr by assumption. simpl. now rewrite Hop.
Qed.

Lemma tree_of_postfix_postfix (t : expr) :
  wf_expr t = true -> tree_of_postfix (postfix t) = Some t.
Proof.
  intros H. unfold tree_of_postfix.
  rewrite <- (app_nil_r (postfix t)), build_postfix by assumption.
  reflexivity.
Qed.

(** A postfix sequence stands for one tree only. *)
Lemma postfix_injective (t1 t2 : expr) :
  wf_expr t1 = true -> wf_expr t2 = true ->
  postfix t1 = postfix t2 -> t1 = t2.
Proof.
  intros H1 H2 E.
  apply tree_of_postfix_postfix in H1, H2. rewrite E in H1. congruence.
Qed.

Lemma eval_postfix_postfix (t : expr) :
  forall rest stack,
    wf_expr t = true ->
    eval_postfix (postfix t ++ rest) stack
    = eval_postfix rest (entry_of t :: stack).
Proof.
  induction t as [s|l IHl op r IHr]; intros rest stack H; simpl in *.
  - now rewrite (operand_token_not_operator s H).
  - apply andb_true_iff in H as [H Hr]. apply andb_true_iff in H as [Hl Hop].
    rewrite <- !app_assoc, IHl, IHr by assumption. simpl. now rewrite Hop.
Qed.

Lemma never_underflows_postfix (t : expr) :
  forall rest depth,
    wf_expr t = true ->
    never_underflows (postfix t ++ rest) depth
    = never_underflows rest (S depth).
Proof.
  induction t as [s|l IHl op r IHr]; intros rest depth H; simpl in *.
  - now rewrite (operand_token_not_operator s H).
  - apply andb_true_iff in H as [H Hr]. apply andb_true_iff in H as [Hl Hop].
    rewrite <- !app_assoc, IHl, IHr by assumption. simpl. now rewrite Hop.
Qed.

Lemma postfix_nonempty (t : expr) :
  wf_expr t = true -> Forall nonempty (postfix t).
Proof.
  induction t as [s|l IHl op r IHr]; intros H; simpl in *.
  - constructor; [|constructor]. now apply operand_token_nonempty.
  - apply andb_true_iff in H as [H Hr]. apply andb_true_iff in H as [Hl Hop].
    apply Forall_app. split; [auto|]. apply Forall_app. split; [auto|].
    constructor; [|constructor]. intros ->. discriminate.
Qed.

(** [restore] on the postfix form of a tree returns the text of the
    tree. *)
Lemma restore_postfix (t : expr) :
  wf_expr t = true ->
  exists fuel, restore fuel (postfix t) = Returned (text t).
Proof.
  intros H.
  destruct (restore_loop_simulates (postfix t) [])
    as (fuel & stack & E & R & _).
  - constructor.
  - now apply postfix_nonempty.
  - rewrite <- (app_nil_r (postfix t)), never_underflows_postfix by assumption.
    reflexivity.
  - rewrite <- (app_nil_r (postfix t)), eval_postfix_postfix in E
      by assumption.
    simpl in E. injection E as <-. simpl in R.
    exists fuel. unfold restore. now rewrite R.
Qed.

(** The result of a call does not depend on the fuel that was enough. *)
Lemma returns_functional (input_expr s1 s2 : string) :
  returns input_expr s1 -> returns input_expr s2 -> s1 = s2.
Proof.
  unfold returns, remove_unnecessary_parentheses, restore.
  intros [f1 H1] [f2 H2].
  destruct (restore_loop f1 0 _) as [l1|] eqn:E1; [|discriminate].
  destruct (restore_loop f2 0 _) as [l2|] eqn:E2; [|discriminate].
  apply (restore_loop_more f1 f2) in E1.
  apply (restore_loop_more f2 f1) in E2.
  rewrite Nat.add_comm in E2. rewrite E1 in E2. injection E2 as ->.
  destruct l2; [discriminate|]. congruence.
Qed.

(* ================================================================= *)
(** ** The tokens of tokenize *)

Lemma string_list_ascii (s : string) :
  string_of_list_ascii (list_ascii_of_string s) = s.
Proof. apply string_of_list_ascii_of_string. Qed.

Lemma list_ascii_str (c : ascii) : list_ascii_of_string (str c) = [c].
Proof. reflexivity. Qed.

Lemma operand_token_char (c : ascii) :
  word_char c = true -> operand_token (str c) = true.
Proof.
  intros H. unfold operand_token. cbn [list_ascii_of_string str].
  fold (str c).
  destruct (String.eqb_spec (str c) "-") as [E|_].
  - injection E as ->. discriminate.
  - cbn [forallb]. now rewrite H.
Qed.

Lemma operand_token_minus_char (c : ascii) :
  word_char c = true -> operand_token ("-" ++ str c) = true.
Proof.
  intros H. unfold operand_token. simpl. now rewrite H.
Qed.

Lemma operand_token_snoc (buf : string) (c : ascii) :
  operand_token buf = true -> word_char c = true ->
  operand_token (buf ++ str c) = true.
Proof.
  unfold operand_token. rewrite list_ascii_append, list_ascii_str.
  destruct (list_ascii_of_string buf) as [|c1 cs]; [discriminate|].
  intros H Hc. cbn [app].
  destruct (str c1 =? "-").
  - destruct cs as [|c2 cs]; [discriminate|]. cbn [app].
    change (c2 :: cs ++ [c]) with ((c2 :: cs) ++ [c]).
    rewrite forallb_app, H. simpl. now rewrite Hc.
  - change (c1 :: cs ++ [c]) with ((c1 :: cs) ++ [c]).
    rewrite forallb_app, H. simpl. now rewrite Hc.
Qed.

Lemma flush_ok (output : list string) (state : State) (buf : string) :
  forallb token_ok output = true -> buf_ok state buf ->
  forallb token_ok (flush output buf) = true.
Proof.
  intros Hout Hbuf. unfold flush.
  destruct (String.eqb_spec buf "") as [_|Hne]; [assumption|].
  rewrite forallb_app, Hout. simpl. rewrite andb_true_r. unfold token_ok.
  destruct Hbuf as [->|[[H _]|[H _]]];
    [congruence | rewrite H | rewrite H]; now rewrite !orb_true_r.
Qed.

(** Every token of [tokenize] is a parenthesis, an operator or an operand
    token. *)
Lemma tokenize_loop_ok (chars : list ascii) :
  forall output state buf,
    forallb no_space chars = true ->
    forallb token_ok output = true ->
    buf_ok state buf ->
    forallb token_ok (tokenize_loop chars output state buf) = true.
Proof.
  induction chars as [|c chars IH]; intros output state buf Hc Hout Hbuf.
  - simpl. now apply (flush_ok output state).
  - cbn [forallb] in Hc. apply andb_true_iff in Hc as [Hsp Hc].
    cbn [tokenize_loop].
    pose proof (flush_ok output state buf Hout Hbuf) as Hfl.
    destruct (is_paren c) eqn:Ep.
    + apply IH; [assumption| |now left].
      rewrite forallb_app, Hfl. simpl. rewrite andb_true_r.
      unfold token_ok. unfold is_paren in Ep. now rewrite Ep.
    + destruct (in_operator_info (str c)) eqn:Eo.
      * apply IH; [assumption|assumption|]. right. left.
        split; [assumption|]. intros E.
        destruct (String.eqb_spec (str c) "-") as [->|]; [reflexivity|].
        discriminate.
      * assert (W : word_char c = true).
        { unfold word_char, is_operand_char. unfold no_space in Hsp.
          now rewrite Ep, Eo, Hsp. }
        destruct (negb (State_eqb state OPERAND)) eqn:Es.
        -- apply IH; [assumption|assumption|]. right. right.
           split; [|reflexivity]. now apply operand_token_char.
        -- assert (S : state = OPERAND) by now destruct state.
           apply IH; [assumption|assumption|]. right. right.
           split; [|reflexivity].
           destruct Hbuf as [->|[[H1 H2]|[H1 _]]].
           ++ now apply operand_token_char.
           ++ rewrite (H2 S). now apply operand_token_minus_char.
           ++ now apply operand_token_snoc.
Qed.

Lemma cleaned_no_space (input_string : string) :
  forallb no_space (cleaned input_string) = true.
Proof.
  unfold cleaned. apply forallb_forall. intros c H.
  now apply filter_In in H.
Qed.

Lemma tokenize_ok (input_string : string) :
  forallb token_ok (tokenize input_string) = true.
Proof.
  apply tokenize_loop_ok; [apply cleaned_no_space | reflexivity | now left].
Qed.

(* ================================================================= *)
(** ** Tokenizing a text made of tokens *)

Lemma word_char_operand_char (cs : list ascii) :
  forallb word_char cs = true -> forallb is_operand_char cs = true.
Proof.
  induction cs as [|c cs IH]; simpl; [reflexivity|].
  intros H. apply andb_true_iff in H as [Hc Hcs].
  unfold word_char in Hc. apply andb_true_iff in Hc as [Hc _].
  now rewrite Hc, IH.
Qed.

Lemma flush_empty (output : list string) : flush output "" = output.
Proof. reflexivity. Qed.

Lemma tokenize_loop_minus_start (chars : list ascii) (output : list string)
    (state : State) (buf : string) :
  state <> OPERAND ->
  tokenize_loop ("-"%char :: chars) output state buf
  = tokenize_loop chars (flush output buf) OPERAND "-".
Proof.
  intros Hst. destruct state; try congruence; reflexivity.
Qed.

Lemma tokenize_loop_word_start (c : ascii) (chars : list ascii)
    (output : list string) (state : State) (buf : string) :
  is_operand_char c = true ->
  state <> OPERAND ->
  tokenize_loop (c :: chars) output state buf
  = tokenize_loop chars (flush output buf) OPERAND (str c).
Proof.
  intros Hc Hst. unfold is_operand_char in Hc.
  apply andb_true_iff in Hc as [Hp Ho]. apply negb_true_iff in Hp, Ho.
  cbn [tokenize_loop]. rewrite Hp, Ho.
  destruct state; try congruence; reflexivity.
Qed.

Lemma tokenize_loop_paren (c : ascii) (chars : list ascii)
    (output : list string) (state : State) (buf : string) :
  is_paren c = true ->
  tokenize_loop (c :: chars) output state buf
  = tokenize_loop chars (flush output buf ++ [str c]) state "".
Proof.
  intros Hp. cbn [tokenize_loop]. now rewrite Hp.
Qed.

Lemma tokenize_loop_binary (c : ascii) (chars : list ascii)
    (output : list string) (buf : string) :
  is_paren c = false ->
  in_operator_info (str c) = true ->
  tokenize_loop (c :: chars) output OPERAND buf
  = tokenize_loop chars (flush output buf) OPERATOR (str c).
Proof.
  intros Hp Ho. cbn [tokenize_loop]. rewrite Hp, Ho.
  cbn [State_eqb orb]. now rewrite andb_false_r.
Qed.

(** An operand token met where an operand may start is read as a whole
    into the buffer. *)
Lemma tokenize_loop_operand_token (tok : string) (rest : list ascii)
    (output : list string) (state : State) (buf : string) :
  operand_token tok = true ->
  state <> OPERAND ->
  tokenize_loop (list_ascii_of_string tok ++ rest) output state buf
  = tokenize_loop rest (flush output buf) OPERAND tok.
Proof.
  intros H Hst. rewrite <- (string_list_ascii tok) at 2.
  unfold operand_token in H.
  destruct (list_ascii_of_string tok) as [|c cs]; [discriminate|].
  destruct (String.eqb_spec (str c) "-") as [E|E].
  - injection E as ->. destruct cs as [|c2 cs]; [discriminate|].
    rewrite <- app_comm_cons, tokenize_loop_minus_start by assumption.
    rewrite tokenize_loop_operand_chars
      by now apply word_char_operand_char.
    reflexivity.
  - cbn [forallb] in H. apply andb_true_iff in H as [Hc Hcs].
    unfold word_char in Hc. apply andb_true_iff in Hc as [Hc _].
    rewrite <- app_comm_cons, tokenize_loop_word_start by assumption.
    rewrite tokenize_loop_operand_chars
      by now apply word_char_operand_char.
    reflexivity.
Qed.

Lemma operator_char (tok : string) :
  in_operator_info tok = true ->
  exists c, tok = str c /\ is_paren c = false.
Proof.
  intros H. operator_cases H; eexists; split; reflexivity.
Qed.

(** A well-formed sequence of tokens is what [tokenize] finds in their
    concatenation. *)
Lemma tokenize_loop_join (tokens : list string) :
  forall expect depth output state buf,
    valid_from expect depth tokens = true ->
    forallb token_ok tokens = true ->
    (if expect then state <> OPERAND else state = OPERAND) ->
    tokenize_loop (list_ascii_of_string (join tokens)) output state buf
    = flush output buf ++ tokens.
Proof.
  induction tokens as [|tok tokens IH];
    intros expect depth output state buf Hv Hok Hst.
  - simpl. now rewrite app_nil_r.
  - cbn [forallb] in Hok. apply andb_true_iff in Hok as [Htok Hok].
    cbn [join fold_right]. fold (join tokens). rewrite list_ascii_append.
    cbn [valid_from] in Hv. destruct expect.
    + destruct (String.eqb_spec tok "(") as [->|Hnl].
      * cbn [list_ascii_of_string app].
        rewrite tokenize_loop_paren by reflexivity.
        rewrite (IH true (S depth)) by assumption.
        rewrite flush_empty. now rewrite <- app_assoc.
      * destruct (is_operand tok) eqn:Eo; [|discriminate].
        pose proof (token_ok_operand tok Htok Eo) as Hop.
        rewrite tokenize_loop_operand_token by assumption.
        rewrite (IH false depth) by (assumption || reflexivity).
        rewrite (flush_nonempty _ tok) by now apply operand_token_nonempty.
        now rewrite <- app_assoc.
    + destruct (String.eqb_spec tok ")") as [->|Hnr].
      * destruct depth as [|d]; [discriminate|].
        cbn [list_ascii_of_string app].
        rewrite tokenize_loop_paren by reflexivity.
        rewrite (IH false d) by assumption.
        rewrite flush_empty. now rewrite <- app_assoc.
      * destruct (in_operator_info tok) eqn:Eo; [|discriminate].
        destruct (operator_char tok Eo) as (c & -> & Hp).
        cbn [list_ascii_of_string str app]. fold (str c). subst state.
        rewrite tokenize_loop_binary by assumption.
        rewrite (IH true depth) by (assumption || discriminate).
        rewrite (flush_nonempty _ (str c)) by discriminate.
        now rewrite <- app_assoc.
Qed.

Lemma token_ok_no_space (tok : string) :
  token_ok tok = true -> forallb no_space (list_ascii_of_string tok) = true.
Proof.
  unfold token_ok. intros H.
  destruct (tok =? "(") eqn:E1;
    [apply String.eqb_eq in E1; subst; reflexivity|].
  destruct (tok =? ")") eqn:E2;
    [apply String.eqb_eq in E2; subst; reflexivity|].
  destruct (in_operator_info tok) eqn:Eo.
  - operator_cases Eo; reflexivity.
  - simpl in H. unfold operand_token in H.
    destruct (list_ascii_of_string tok) as [|c cs]; [discriminate|].
    assert (K : forall l, forallb word_char l = true ->
                          forallb no_space l = true).
    { induction l as [|x l IHl]; simpl; [reflexivity|].
      intros Hl. apply andb_true_iff in Hl as [Hx Hl].
      unfold word_char in Hx. apply andb_true_iff in Hx as [_ Hx].
      rewrite IHl by assumption. unfold no_space. now rewrite Hx. }
    destruct (String.eqb_spec (str c) "-") as [E|_].
    + injection E as ->. destruct cs; [discriminate|].
      change (forallb no_space ("-"%char :: a :: cs))
        with (no_space "-" && forallb no_space (a :: cs)).
      now rewrite (K _ H).
    + now apply K.
Qed.

Lemma cleaned_join (tokens : list string) :
  forallb token_ok tokens = true ->
  cleaned (join tokens) = list_ascii_of_string (join tokens).
Proof.
  intros H. unfold cleaned.
  assert (K : forallb no_space (list_ascii_of_string (join tokens)) = true).
  { induction tokens as [|tok tokens IH]; [reflexivity|].
    cbn [forallb] in H. apply andb_true_iff in H as [Ht H].
    cbn [join fold_right]. fold (join tokens).
    rewrite list_ascii_append, forallb_app, token_ok_no_space, IH; auto. }
  induction (list_ascii_of_string (join tokens)) as [|c l IH]; [reflexivity|].
  cbn [forallb] in K. apply andb_true_iff in K as [Hc K].
  simpl. unfold no_space in Hc. rewrite Hc. now rewrite IH.
Qed.

Lemma tokenize_join (tokens : list string) :
  valid_tokens tokens = true ->
  forallb token_ok tokens = true ->
  tokenize (join tokens) = tokens.
Proof.
  intros Hv Hok. unfold tokenize. rewrite cleaned_join by assumption.
  now rewrite (tokenize_loop_join tokens true 0) by (assumption || discriminate).
Qed.

(* ================================================================= *)
(** ** The text of a tree *)

Lemma entry_of_pivot (t : expr) : snd (entry_of t) = pivot t.
Proof. destruct t; reflexivity. Qed.

Lemma entry_of_text (t : expr) : entry_of t = (text t, pivot t).
Proof.
  unfold text. rewrite <- entry_of_pivot. now destruct (entry_of t).
Qed.

Lemma join_wrap (b : bool) (tokens : list string) :
  join (wrap b tokens)
  = if b then ("(" ++ join tokens ++ ")")%string else join tokens.
Proof.
  destruct b; [|reflexivity]. unfold wrap.
  change ("(" :: tokens ++ [")"]) with (["("] ++ tokens ++ [")"]).
  now rewrite !join_app.
Qed.

Lemma text_node (l : expr) (op : string) (r : expr) :
  text (Node l op r)
  = ((if wraps_left op l then "(" ++ text l ++ ")" else text l)
     ++ op
     ++ (if wraps_right op r then "(" ++ text r ++ ")" else text r))%string.
Proof.
  unfold text at 1. cbn [entry_of]. rewrite !entry_of_text.
  unfold new_entry, left_text, right_text, wraps_left, wraps_right.
  cbn [fst snd].
  destruct (negb (pivot r =? "")); reflexivity.
Qed.

Lemma join_tokens_of (t : expr) : join (tokens_of t) = text t.
Proof.
  induction t as [s|l IHl op r IHr].
  - simpl. apply append_nil_r.
  - rewrite text_node. cbn [tokens_of].
    change (op :: wrap (wraps_right op r) (tokens_of r))
      with ([op] ++ wrap (wraps_right op r) (tokens_of r)).
    rewrite !join_app, !join_wrap, IHl, IHr. simpl.
    now rewrite append_nil_r.
Qed.

Lemma valid_from_tokens_of (t : expr) :
  forall depth rest,
    wf_expr t = true ->
    valid_from true depth (tokens_of t ++ rest) = valid_from false depth rest.
Proof.
  induction t as [s|l IHl op r IHr]; intros depth rest H.
  - simpl in H. pose proof (operand_token_is_operand s H) as Ho.
    destruct (is_operand_spec s Ho) as (_ & E & _).
    simpl. now rewrite E, Ho.
  - simpl in H. apply andb_true_iff in H as [H Hr].
    apply andb_true_iff in H as [Hl Hop].
    destruct (operator_not_paren op Hop) as [_ Ep].
    assert (L : forall rest',
      valid_from true depth (wrap (wraps_left op l) (tokens_of l) ++ rest')
      = valid_from false depth rest').
    { intros rest'. unfold wrap. destruct (wraps_left op l); [|now apply IHl].
      cbn [app valid_from String.eqb Ascii.eqb Bool.eqb].
      rewrite <- app_assoc, IHl by assumption. reflexivity. }
    assert (R : forall rest',
      valid_from true depth (wrap (wraps_right op r) (tokens_of r) ++ rest')
      = valid_from false depth rest').
    { intros rest'. unfold wrap. destruct (wraps_right op r); [|now apply IHr].
      cbn [app valid_from String.eqb Ascii.eqb Bool.eqb].
      rewrite <- app_assoc, IHr by assumption. reflexivity. }
    cbn [tokens_of]. rewrite <- app_assoc, L. cbn [app valid_from].
    now rewrite Ep, Hop, R.
Qed.

Lemma valid_tokens_of (t : expr) :
  wf_expr t = true -> valid_tokens (tokens_of t) = true.
Proof.
  intros H. unfold valid_tokens.
  rewrite <- (app_nil_r (tokens_of t)), valid_from_tokens_of by assumption.
  reflexivity.
Qed.

Lemma tokens_of_ok (t : expr) :
  wf_expr t = true -> forallb token_ok (tokens_of t) = true.
Proof.
  assert (W : forall b ts, forallb token_ok ts = true ->
                           forallb token_ok (wrap b ts) = true).
  { intros [|] ts Hts; [|assumption]. unfold wrap.
    cbn [forallb]. rewrite forallb_app, Hts. reflexivity. }
  induction t as [s|l IHl op r IHr]; intros H; simpl in H.
  - simpl. unfold token_ok. rewrite H. now rewrite !orb_true_r.
  - apply andb_true_iff in H as [H Hr]. apply andb_true_iff in H as [Hl Hop].
    cbn [tokens_of]. rewrite forallb_app. cbn [forallb].
    rewrite (W _ _ (IHl Hl)), (W _ _ (IHr Hr)).
    unfold token_ok. rewrite Hop. now rewrite !orb_true_r.
Qed.

(** [tokenize] on the text of a tree finds the tokens the text was made
    of. *)
Lemma tokenize_text (t : expr) :
  wf_expr t = true -> tokenize (text t) = tokens_of t.
Proof.
  intros H. rewrite <- join_tokens_of.
  apply tokenize_join; [now apply valid_tokens_of | now apply tokens_of_ok].
Qed.

(** On a valid expression the pipeline returns the text of the tree that
    [shunt] computes. *)
Lemma valid_expression_tree (e : string) :
  valid_expression e ->
  exists t,
    parse (tokenize e) = Some t /\ wf_expr t = true
    /\ shunt (tokenize e) = postfix t /\ returns e (text t).
Proof.
  intros Hv. destruct (valid_parse _ Hv) as [t P].
  pose proof (parse_wf _ t (tokenize_ok e) P) as W.
  pose proof (parse_shunt _ t P) as S.
  exists t. repeat split; try assumption.
  destruct (restore_postfix t W) as [fuel R].
  exists fuel. unfold remove_unnecessary_parentheses. now rewrite S.
Qed.

(* ================================================================= *)
(** ** shunt on the text of a tree *)

Lemma reduce_op_barrier (tok : string) (fs0 fs : list frame) :
  forall cur,
    reduce_op tok (fs0 ++ FParen :: fs) cur
    = (fst (reduce_op tok fs0 cur) ++ FParen :: fs,
       snd (reduce_op tok fs0 cur)).
Proof.
  induction fs0 as [|[l x|] fs0 IH]; intros cur; simpl; try reflexivity.
  destruct (satisfied x tok); [apply IH | reflexivity].
Qed.

Lemma reduce_all_barrier (fs0 fs : list frame) :
  forall cur,
    open_parens fs0 = 0 ->
    reduce_all (fs0 ++ FParen :: fs) cur
    = (FParen :: fs, snd (reduce_all fs0 cur)).
Proof.
  induction fs0 as [|[l x|] fs0 IH]; intros cur H; simpl.
  - reflexivity.
  - now apply IH.
  - discriminate.
Qed.

Lemma feed_barrier (fs0 fs : list frame) (cur : expr) (item : string * expr) :
  feed (fs0 ++ FParen :: fs, cur) item
  = (fst (feed (fs0, cur) item) ++ FParen :: fs, snd (feed (fs0, cur) item)).
Proof.
  destruct item as [op a]. unfold feed. rewrite reduce_op_barrier.
  now destruct (reduce_op op fs0 cur).
Qed.

Lemma feed_all_barrier (items : list (string * expr)) (fs : list frame) :
  forall fs0 cur,
    feed_all items (fs0 ++ FParen :: fs, cur)
    = (fst (feed_all items (fs0, cur)) ++ FParen :: fs,
       snd (feed_all items (fs0, cur))).
Proof.
  unfold feed_all.
  induction items as [|item items IH]; intros fs0 cur; cbn [fold_left];
    [reflexivity|].
  rewrite feed_barrier, IH. now destruct (feed (fs0, cur) item).
Qed.

Lemma feed_parens (fs : list frame) (cur : expr) (item : string * expr) :
  open_parens (fst (feed (fs, cur) item)) = open_parens fs.
Proof.
  destruct item as [op a]. unfold feed.
  pose proof (reduce_op_parens op fs cur) as P.
  now destruct (reduce_op op fs cur).
Qed.

Lemma feed_all_parens (items : list (string * expr)) :
  forall fs cur,
    open_parens (fst (feed_all items (fs, cur))) = open_parens fs.
Proof.
  unfold feed_all.
  induction items as [|item items IH]; intros fs cur; cbn [fold_left];
    [reflexivity|].
  destruct (feed (fs, cur) item) as [fs' cur'] eqn:E.
  rewrite IH. rewrite <- (feed_parens fs cur item). now rewrite E.
Qed.

Lemma feed_all_app (a b : list (string * expr)) (st : list frame * expr) :
  feed_all (a ++ b) st = feed_all b (feed_all a st).
Proof. apply fold_left_app. Qed.

Lemma frun_app (a b : list string) :
  forall st,
    frun (a ++ b) st
    = match frun a st with Some st' => frun b st' | None => None end.
Proof.
  induction a as [|tok a IH]; intros st; simpl; [reflexivity|].
  destruct (fstep st tok); [apply IH | reflexivity].
Qed.

(** The tree machine reads the text of [t] as the operands and operators
    of [chain t]. *)
Lemma frun_tokens_of (t : expr) :
  wf_expr t = true ->
  forall fs,
    frun (tokens_of t) (Expect fs)
    = Some (after (feed_all (snd (chain t)) (fs, fst (chain t)))).
Proof.
  induction t as [s|l IHl op r IHr]; intros H fs; simpl in H.
  - simpl. pose proof (operand_token_is_operand s H) as Ho.
    destruct (is_operand_spec s Ho) as (_ & E & _).
    now rewrite E, Ho.
  - apply andb_true_iff in H as [H Hr]. apply andb_true_iff in H as [Hl Hop].
    specialize (IHl Hl). specialize (IHr Hr).
    destruct (operator_not_paren op Hop) as [_ Ep].
    assert (W : forall b c fs',
      (forall fs, frun (tokens_of c) (Expect fs)
                  = Some (after (feed_all (snd (chain c)) (fs, fst (chain c))))) ->
      frun (wrap b (tokens_of c)) (Expect fs')
      = Some (after
          (feed_all
             (snd (if b then (parse_chain (chain c), []) else chain c))
             (fs', fst (if b then (parse_chain (chain c), []) else chain c))))).
    { intros b c fs' IH. destruct b; [|apply IH]. unfold wrap.
      cbn [frun fstep String.eqb Ascii.eqb Bool.eqb].
      rewrite frun_app, IH.
      change (FParen :: fs') with ([] ++ FParen :: fs').
      rewrite feed_all_barrier. cbn [after fst snd frun fstep].
      cbn [String.eqb Ascii.eqb Bool.eqb].
      rewrite reduce_all_barrier by apply feed_all_parens.
      reflexivity. }
    cbn [tokens_of chain]. rewrite frun_app, (W _ l fs IHl).
    set (cl := if wraps_left op l then (parse_chain (chain l), [])
               else chain l).
    set (cr := if wraps_right op r then (parse_chain (chain r), [])
               else chain r).
    cbn [fst snd]. rewrite feed_all_app.
    destruct (feed_all (snd cl) (fs, fst cl)) as [fs1 cur1].
    cbn [after fst snd frun fstep feed_all fold_left feed].
    rewrite Ep, Hop.
    destruct (reduce_op op fs1 cur1) as [fs2 t2].
    rewrite (W _ r (FOp t2 op :: fs2) IHr). reflexivity.
Qed.

Lemma parse_tokens_of (t : expr) :
  wf_expr t = true -> parse (tokens_of t) = Some (norm t).
Proof.
  intros H. unfold parse. rewrite frun_tokens_of by assumption.
  unfold after, norm, parse_chain, close.
  pose proof (feed_all_parens (snd (chain t)) [] (fst (chain t))) as P.
  destruct (feed_all (snd (chain t)) ([], fst (chain t))) as [fs cur].
  cbn [fst snd] in *.
  destruct (reduce_all_to_bottom fs cur P) as [t' E]. now rewrite E.
Qed.

Lemma norm_wf (t : expr) : wf_expr t = true -> wf_expr (norm t) = true.
Proof.
  intros H. apply (parse_wf (tokens_of t)).
  - now apply tokens_of_ok.
  - now apply parse_tokens_of.
Qed.

(** The postfix sequence of the output, for a tree [t] of the input. *)
Lemma shunt_text (t : expr) :
  wf_expr t = true -> shunt (tokenize (text t)) = postfix (norm t).
Proof.
  intros H. rewrite tokenize_text by assumption.
  apply parse_shunt. now apply parse_tokens_of.
Qed.

(* ================================================================= *)
(** ** Precedence and associativity *)

Lemma prec_le_two (x : string) : (prec x <= 2)%nat.
Proof.
  unfold prec, operator_info.
  repeat match goal with |- context [if ?b then _ else _] => destruct b end;
    simpl; lia.
Qed.

Lemma is_left_prec (x : string) :
  in_operator_info x = true -> is_left x = (prec x <? 2)%nat.
Proof. intros H. operator_cases H; reflexivity. Qed.

Lemma prec_two (x : string) :
  in_operator_info x = true -> prec x = 2 -> x = "^".
Proof.
  intros H. operator_cases H; intros E; try reflexivity;
    vm_compute in E; discriminate E.
Qed.

Lemma operator_kind (x : string) :
  in_operator_info x = true ->
  ((x =? "/") || (x =? "-") = true /\ (x =? "+") || (x =? "*") = false
   /\ (prec x < 2)%nat)
  \/ ((x =? "/") || (x =? "-") = false /\ (x =? "+") || (x =? "*") = true
      /\ (prec x < 2)%nat)
  \/ ((x =? "/") || (x =? "-") = false /\ (x =? "+") || (x =? "*") = false
      /\ x = "^").
Proof.
  intros H. operator_cases H; simpl; auto 10.
Qed.

Lemma satisfied_spec (x y : string) :
  in_operator_info x = true ->
  satisfied x y
  = ((prec y <? prec x)%nat || ((prec x =? prec y)%nat && (prec x <? 2)%nat)).
Proof.
  intros H. unfold satisfied.
  rewrite (operator_eqb_paren x H), (is_left_prec x H). cbn [negb].
  destruct (prec y <? prec x)%nat; [reflexivity|].
  destruct (prec x =? prec y)%nat; reflexivity.
Qed.

Lemma operator_nonempty (x : string) :
  in_operator_info x = true -> (x =? "") = false.
Proof. intros H. operator_cases H; reflexivity. Qed.

Lemma wf_pivot (t : expr) :
  wf_expr t = true ->
  (pivot t = "" /\ exists s, t = Leaf s)
  \/ (in_operator_info (pivot t) = true /\ (pivot t =? "") = false).
Proof.
  destruct t as [s|l op r]; simpl; intros H.
  - left. split; [reflexivity | now exists s].
  - right. apply andb_true_iff in H as [H _].
    apply andb_true_iff in H as [_ H]. split; [assumption|].
    now apply operator_nonempty.
Qed.

Ltac boolnat :=
  repeat match goal with
  | H : (_ <? _)%nat = true |- _ => apply Nat.ltb_lt in H
  | H : (_ <? _)%nat = false |- _ => apply Nat.ltb_ge in H
  | H : (_ =? _)%nat = true |- _ => apply Nat.eqb_eq in H
  | H : (_ =? _)%nat = false |- _ => apply Nat.eqb_neq in H
  | H : _ && _ = true |- _ => apply andb_true_iff in H; destruct H
  | H : _ || _ = false |- _ => apply orb_false_iff in H; destruct H
  | H : negb _ = true |- _ => apply negb_true_iff in H
  | H : negb _ = false |- _ => apply negb_false_iff in H
  end.

(* ================================================================= *)
(** ** Trees whose text parses back to them *)

Lemma reduce_op_pend (op : string) (pend : list frame) :
  forall fs cur,
    Forall (popped_by op) pend ->
    reduce_op op (pend ++ fs) cur
    = reduce_op op fs (snd (reduce_all pend cur)).
Proof.
  induction pend as [|f pend IH]; intros fs cur H; [reflexivity|].
  apply Forall_cons_iff in H as [(l & x & -> & S) H].
  simpl. rewrite S. now apply IH.
Qed.

Lemma reduce_all_app (pend fs : list frame) :
  forall cur,
    open_parens pend = 0 ->
    reduce_all (pend ++ fs) cur = reduce_all fs (snd (reduce_all pend cur)).
Proof.
  induction pend as [|[l x|] pend IH]; intros cur H; simpl.
  - reflexivity.
  - now apply IH.
  - discriminate.
Qed.

Lemma pend_ok_parens (t : expr) (pend : list frame) :
  Forall (pend_ok t) pend -> open_parens pend = 0.
Proof.
  induction 1 as [|f pend (l & x & -> & _) _ IH]; [reflexivity|].
  exact IH.
Qed.

Lemma reduce_op_blocked (op : string) (fs : list frame) (cur : expr)
    (l : expr) (r : expr) :
  in_operator_info op = true ->
  blocks fs (Node l op r) ->
  reduce_op op fs cur = (fs, cur).
Proof.
  intros Hop B. destruct fs as [|[l' x|] fs]; try reflexivity.
  simpl in B |- *. destruct B as [E|[Hx B]].
  - subst op. discriminate.
  - rewrite (satisfied_spec x op Hx).
    destruct B as [B|[B1 B2]].
    + destruct (Nat.ltb_spec (prec op) (prec x)); [lia|].
      destruct (Nat.eqb_spec (prec x) (prec op)); [lia|]. reflexivity.
    + destruct (Nat.ltb_spec (prec op) (prec x)); [lia|].
      destruct (Nat.ltb_spec (prec x) 2); [lia|].
      now rewrite andb_false_r.
Qed.

(** Reading the text of a regular tree leaves pending frames that close
    to the tree itself. *)
Lemma regular_feed (t : expr) :
  wf_expr t = true -> regular t = true ->
  forall fs,
    blocks fs t ->
    exists pend cur,
      feed_all (snd (chain t)) (fs, fst (chain t)) = (pend ++ fs, cur)
      /\ reduce_all pend cur = ([], t)
      /\ Forall (pend_ok t) pend.
Proof.
  induction t as [s|l IHl op r IHr]; intros Hwf Hreg fs B.
  - exists [], (Leaf s). repeat split. constructor.
  - simpl in Hwf, Hreg.
    apply andb_true_iff in Hwf as [Hwf Hr].
    apply andb_true_iff in Hwf as [Hl Hop].
    apply andb_true_iff in Hreg as [Hreg NR].
    apply andb_true_iff in Hreg as [Hreg NL].
    apply andb_true_iff in Hreg as [Rl Rr].
    apply negb_true_iff in NL, NR.
    specialize (IHl Hl Rl). specialize (IHr Hr Rr).
    pose proof (prec_le_two op) as P2.
    cbn [chain fst snd]. rewrite feed_all_app.
    (* the left operand *)
    assert (L : exists pend cur,
      feed_all
        (snd (if wraps_left op l then (parse_chain (chain l), [])
              else chain l))
        (fs, fst (if wraps_left op l then (parse_chain (chain l), [])
                  else chain l))
      = (pend ++ fs, cur)
      /\ reduce_all pend cur = ([], l)
      /\ Forall (popped_by op) pend).
    { destruct (wraps_left op l) eqn:WL.
      - destruct (IHl [] I) as (pend & cur & E & R & _).
        exists [], l. split; [|split; [reflexivity | constructor]].
        cbn [fst snd feed_all fold_left app]. unfold parse_chain, close.
        rewrite E, app_nil_r. cbn [fst snd]. now rewrite R.
      - assert (Bl : blocks fs l).
        { destruct fs as [|[l' x|] fs]; try exact I. simpl in B |- *.
          destruct (wf_pivot l Hl) as [[E _]|[Po Pn]]; [now left|right].
          destruct B as [E|[Hx B]]; [subst op; discriminate|].
          split; [assumption|].
          unfold wraps_left in WL. rewrite Pn in WL. simpl in WL. boolnat.
          pose proof (prec_le_two (pivot l)). lia. }
        destruct (IHl fs Bl) as (pend & cur & E & R & F).
        exists pend, cur. split; [assumption|]. split; [assumption|].
        eapply Forall_impl; [|exact F].
        intros f (l' & x & -> & Hx & Pn & Px). exists l', x.
        split; [reflexivity|]. rewrite (satisfied_spec x op Hx).
        unfold wraps_left in WL. rewrite Pn in WL. simpl in WL. boolnat.
        destruct (Nat.ltb_spec (prec op) (prec x)); [reflexivity|].
        assert (E1 : prec x = prec op) by lia.
        rewrite E1, Nat.eqb_refl. simpl.
        destruct (Nat.ltb_spec (prec op) 2); [reflexivity|]. exfalso.
        assert (E2 : op = "^") by (apply prec_two; [assumption | lia]).
        assert (E3 : pivot l = "^").
        { destruct (wf_pivot l Hl) as [[E0 _]|[Po _]];
            [rewrite E0 in Pn; discriminate|].
          apply prec_two; [assumption | lia]. }
        unfold regroups_left in NL. rewrite E2, E3 in NL. discriminate. }
    destruct L as (pendl & curl & EL & RL & FL). rewrite EL.
    cbn [feed_all fold_left feed].
    rewrite reduce_op_pend, RL by assumption. cbn [snd].
    rewrite (reduce_op_blocked op fs l l r Hop B).
    (* the right operand *)
    destruct (wraps_right op r) eqn:WR.
    + destruct (IHr [] I) as (pend & cur & E & R & _).
      exists [FOp l op], r. split; [|split].
      * cbn [fst snd fold_left app]. unfold parse_chain, close.
        change (fold_left feed (snd (chain r)) ([], fst (chain r)))
          with (feed_all (snd (chain r)) ([], fst (chain r))).
        rewrite E, app_nil_r. cbn [fst snd]. now rewrite R.
      * reflexivity.
      * constructor; [|constructor]. exists l, op.
        repeat split; [assumption | now apply operator_nonempty | simpl; lia].
    + assert (Br : blocks (FOp l op :: fs) r).
      { simpl. destruct (wf_pivot r Hr) as [[E _]|[Po Pn]]; [now left|right].
        split; [assumption|].
        unfold wraps_right in WR. unfold regroups_right in NR.
        rewrite Pn in WR, NR. simpl in WR, NR. boolnat.
        destruct (operator_kind op Hop) as [(K1 & K2 & K3)|[(K1 & K2 & K3)|(K1 & K2 & K3)]].
        - rewrite K1, andb_true_r in H0. boolnat. lia.
        - rewrite K2, andb_true_r in NR. boolnat. lia.
        - subst op. pose proof (prec_le_two (pivot r)).
          change (prec "^") with 2 in *. lia. }
      destruct (IHr (FOp l op :: fs) Br) as (pend & cur & E & R & F).
      exists (pend ++ [FOp l op]), cur. split; [|split].
      * change (fold_left feed (snd (chain r)) (FOp l op :: fs, fst (chain r)))
          with (feed_all (snd (chain r)) (FOp l op :: fs, fst (chain r))).
        rewrite E. now rewrite <- app_assoc.
      * rewrite reduce_all_app by (eapply pend_ok_parens; eassumption).
        now rewrite R.
      * apply Forall_app. split.
        -- eapply Forall_impl; [|exact F].
           intros f (l' & x & -> & Hx & Pn & Px). exists l', x.
           repeat split; try assumption; [now apply operator_nonempty|].
           simpl. simpl in Br. destruct Br as [E0|[_ Br]];
             [rewrite E0 in Pn; discriminate | lia].
        -- constructor; [|constructor]. exists l, op.
           repeat split;
             [assumption | now apply operator_nonempty | simpl; lia].
Qed.

(** The text of a regular tree parses back to the tree. *)
Lemma regular_norm (t : expr) :
  wf_expr t = true -> regular t = true -> norm t = t.
Proof.
  intros Hwf Hreg.
  destruct (regular_feed t Hwf Hreg [] I) as (pend & cur & E & R & _).
  unfold norm, parse_chain, close. rewrite E, app_nil_r. cbn [fst snd].
  now rewrite R.
Qed.

(* ================================================================= *)
(** ** Every grouping of a parse comes from a parenthesis pair *)

Lemma bit_le_one (b : bool) : (bit b <= 1)%nat.
Proof. destruct b; simpl; lia. Qed.

Lemma grouped_right_compound (x : string) (cur : expr) :
  (bit (grouped_right x cur) <= compound cur)%nat.
Proof. destruct cur; simpl; [lia | apply bit_le_one]. Qed.

Lemma grouped_left_compound (x : string) (cur : expr) :
  (bit (grouped_left x cur) <= compound cur)%nat.
Proof. destruct cur; simpl; [lia | apply bit_le_one]. Qed.

Lemma stacked_tail (f : frame) (fs : list frame) :
  stacked (f :: fs) -> stacked fs.
Proof. destruct f; simpl; tauto. Qed.

Lemma reduce_op_groupings (o : string) (fs : list frame) :
  forall cur c,
    stacked fs ->
    (forall l x fs', fs = FOp l x :: fs' -> bit (grouped_right x cur) <= c)%nat ->
    (bit (grouped_left o cur) <= c)%nat ->
    (frames_groupings (fst (reduce_op o fs cur))
     + groupings (snd (reduce_op o fs cur))
     + bit (grouped_left o (snd (reduce_op o fs cur)))
     <= frames_groupings fs + groupings cur + c)%nat
    /\ stacked (FOp (snd (reduce_op o fs cur)) o :: fst (reduce_op o fs cur)).
Proof.
  induction fs as [|[l x|] fs IH]; intros cur c St Hr Hl.
  - simpl. split; [lia | auto].
  - cbn [reduce_op]. destruct (satisfied x o) eqn:E.
    + destruct (IH (Node l x cur) 0) as [A B].
      * now apply stacked_tail in St.
      * intros l' x' fs' ->. simpl in St. destruct St as [S1 _].
        unfold grouped_right. cbn [pivot]. rewrite S1.
        rewrite andb_false_r. simpl. lia.
      * unfold grouped_left. cbn [pivot]. rewrite E.
        rewrite andb_false_r. simpl. lia.
      * split; [|exact B]. cbn [groupings frames_groupings] in A |- *.
        specialize (Hr l x fs eq_refl). lia.
    + cbn [fst snd]. split; [lia|]. simpl. split; [exact E|]. exact St.
  - simpl. split; [lia|]. simpl in St. auto.
Qed.

Lemma reduce_all_groupings (fs : list frame) :
  forall cur c,
    stacked fs ->
    (forall l x fs', fs = FOp l x :: fs' -> bit (grouped_right x cur) <= c)%nat ->
    (frames_groupings (fst (reduce_all fs cur))
     + groupings (snd (reduce_all fs cur))
     <= frames_groupings fs + groupings cur + c)%nat
    /\ stacked (fst (reduce_all fs cur)).
Proof.
  induction fs as [|[l x|] fs IH]; intros cur c St Hr.
  - simpl. split; [lia | auto].
  - cbn [reduce_all].
    destruct (IH (Node l x cur) 0) as [A B].
    + now apply stacked_tail in St.
    + intros l' x' fs' ->. simpl in St. destruct St as [S1 _].
      unfold grouped_right. cbn [pivot]. rewrite S1.
      rewrite andb_false_r. simpl. lia.
    + split; [|exact B]. cbn [groupings frames_groupings] in A |- *.
      specialize (Hr l x fs eq_refl). lia.
  - simpl. split; [lia|]. simpl in St. auto.
Qed.

Lemma count_close_cons (tok : string) (tokens : list string) :
  count_close (tok :: tokens)
  = bit (tok =? ")") + count_close tokens.
Proof. unfold count_close. simpl. now destruct (tok =? ")"). Qed.

Lemma count_close_app (a b : list string) :
  count_close (a ++ b) = count_close a + count_close b.
Proof. unfold count_close. now rewrite filter_app, length_app. Qed.

Lemma fstep_groupings (st st' : mstate) (tok : string) (n : nat) :
  groupings_bound st n ->
  fstep st tok = Some st' ->
  groupings_bound st' (n + bit (tok =? ")")).
Proof.
  intros Hb H. destruct st as [fs|fs cur]; simpl in H, Hb.
  - destruct (tok =? "(") eqn:El.
    + injection H as <-. apply String.eqb_eq in El. subst tok. simpl.
      rewrite Nat.add_0_r. exact Hb.
    + destruct (is_operand tok) eqn:Eo; [|discriminate].
      injection H as <-. apply is_operand_spec in Eo as (_ & _ & E3).
      rewrite E3. simpl. destruct Hb. split; [lia | assumption].
  - destruct Hb as [Hb St]. destruct (tok =? ")") eqn:Er.
    + destruct (reduce_all_groupings fs cur (compound cur) St) as [A B].
      { intros. apply grouped_right_compound. }
      destruct (reduce_all fs cur) as [[|[l x|] fs'] t]; try discriminate.
      injection H as <-. simpl in A, B |- *.
      split; [|assumption].
      assert (compound t <= 1)%nat by (destruct t; simpl; lia). lia.
    + destruct (in_operator_info tok) eqn:Eo; [|discriminate].
      destruct (reduce_op_groupings tok fs cur (compound cur) St) as [A B].
      { intros. apply grouped_right_compound. }
      { apply grouped_left_compound. }
      destruct (reduce_op tok fs cur) as [fs' t]. injection H as <-.
      cbn [fst snd] in A, B. simpl bit. rewrite Nat.add_0_r.
      split; [|exact B]. cbn [frames_groupings]. lia.
Qed.

Lemma frun_groupings (tokens : list string) :
  forall st st' n,
    groupings_bound st n ->
    frun tokens st = Some st' ->
    groupings_bound st' (n + count_close tokens).
Proof.
  induction tokens as [|tok tokens IH]; intros st st' n Hb H; simpl in H.
  - injection H as <-. unfold count_close. simpl. now rewrite Nat.add_0_r.
  - destruct (fstep st tok) as [st1|] eqn:E; [|discriminate].
    rewrite count_close_cons, Nat.add_assoc.
    apply (IH st1); [|assumption].
    now apply (fstep_groupings st).
Qed.

(** The parse of a token sequence has no more groupings than the sequence
    has closing parentheses. *)
Lemma parse_groupings (tokens : list string) (t : expr) :
  parse tokens = Some t -> (groupings t <= count_close tokens)%nat.
Proof.
  unfold parse. intros H.
  destruct (frun tokens (Expect [])) as [[fs|fs cur]|] eqn:E; try discriminate.
  assert (B0 : groupings_bound (Expect []) 0) by (simpl; auto).
  pose proof (frun_groupings tokens _ _ 0 B0 E) as [B St]. simpl in B.
  destruct (reduce_all_groupings fs cur (compound cur) St) as [A _].
  { intros. apply grouped_right_compound. }
  destruct (reduce_all fs cur) as [[|f fs'] t']; try discriminate.
  injection H as <-. simpl in A. lia.
Qed.

(* ================================================================= *)
(** ** The operator at the root of a parse *)

Lemma satisfied_prec (x o : string) :
  in_operator_info x = true -> satisfied x o = true -> (prec o <= prec x)%nat.
Proof.
  intros Hx. rewrite (satisfied_spec x o Hx). intros H.
  apply orb_true_iff in H as [H|H]; boolnat; lia.
Qed.

Lemma unsatisfied_prec (x o : string) :
  in_operator_info x = true -> satisfied x o = false -> (prec x <= prec o)%nat.
Proof.
  intros Hx. rewrite (satisfied_spec x o Hx). intros H. boolnat. lia.
Qed.

Lemma reduce_op_split (o : string) (fs : list frame) :
  forall cur,
    exists popped,
      fs = popped ++ fst (reduce_op o fs cur)
      /\ Forall (popped_by o) popped
      /\ match fst (reduce_op o fs cur) with
         | FOp _ y :: _ => satisfied y o = false
         | _ => True
         end.
Proof.
  induction fs as [|[l x|] fs IH]; intros cur.
  - exists []. simpl. auto.
  - cbn [reduce_op]. destruct (satisfied x o) eqn:E.
    + destruct (IH (Node l x cur)) as (popped & E1 & F & T).
      exists (FOp l x :: popped). split; [simpl; congruence|].
      split; [|exact T]. constructor; [|exact F]. now exists l, x.
    + exists []. simpl. auto.
  - exists []. simpl. auto.
Qed.

Lemma open_parens_app (a b : list frame) :
  open_parens (a ++ b) = open_parens a + open_parens b.
Proof. unfold open_parens. now rewrite filter_app, length_app. Qed.

Lemma feed_bottom (fs : list frame) (cur : expr) (b o : string) (a : expr) :
  bottom fs b ->
  in_operator_info o = true ->
  exists b',
    bottom (fst (feed (fs, cur) (o, a))) b'
    /\ (prec b' <= prec b)%nat /\ (prec b' <= prec o)%nat
    /\ (b' = b \/ b' = o).
Proof.
  intros (Hp & Hok & Hge & fs0 & l & Efs) Ho. unfold feed.
  destruct (reduce_op_split o fs cur) as (popped & E & F & T).
  destruct (reduce_op o fs cur) as [fs' t]. cbn [fst] in *.
  assert (Hp' : open_parens fs' = 0)
    by (rewrite E, open_parens_app in Hp; lia).
  assert (Hok' : forallb frame_ok fs' = true)
    by (rewrite E, forallb_app in Hok; now apply andb_true_iff in Hok).
  destruct fs' as [|f fs1].
  - exists o. rewrite app_nil_r in E. subst popped.
    assert (S : satisfied b o = true).
    { rewrite Forall_forall in F.
      destruct (F (FOp l b)) as (l' & x' & Eq & S).
      - rewrite Efs. apply in_or_app. right. now left.
      - now injection Eq as <- <-. }
    assert (Hb : in_operator_info b = true).
    { rewrite Efs, forallb_app in Hok. apply andb_true_iff in Hok as [_ Hok].
      simpl in Hok. now rewrite andb_true_r in Hok. }
    pose proof (satisfied_prec b o Hb S).
    repeat split; auto.
    + simpl. now rewrite Ho.
    + intros l' x' [Eq|[]]. injection Eq as <- <-. lia.
    + now exists [], t.
  - exists b.
    assert (L : exists fs2, f :: fs1 = fs2 ++ [FOp l b]).
    { destruct (exists_last (l := f :: fs1)) as (fs2 & z & Ez);
        [discriminate|].
      exists fs2. rewrite Ez in E. rewrite Efs, app_assoc in E.
      apply app_inj_tail in E as [_ <-]. exact Ez. }
    destruct L as [fs2 L].
    assert (Hbo : (prec b <= prec o)%nat).
    { destruct f as [l' y|]; [|discriminate].
      assert (Hy : in_operator_info y = true)
        by (simpl in Hok'; now apply andb_true_iff in Hok' as [Hy _]).
      pose proof (unsatisfied_prec y o Hy T).
      assert (prec b <= prec y)%nat; [|lia].
      apply (Hge l' y). rewrite E. apply in_or_app. right. now left. }
    repeat split; auto.
    + simpl. rewrite Ho. exact Hok'.
    + intros l' x' [Eq|Hin].
      * injection Eq as <- <-. exact Hbo.
      * apply (Hge l' x'). rewrite E. apply in_or_app. now right.
    + exists (FOp t o :: fs2), l. rewrite L. reflexivity.
Qed.

Lemma feed_all_bottom (items : list (string * expr)) :
  forall fs cur b,
    bottom fs b ->
    forallb item_wf items = true ->
    exists b',
      bottom (fst (feed_all items (fs, cur))) b'
      /\ (prec b' <= prec b)%nat
      /\ (forall o, In o (map fst items) -> (prec b' <= prec o)%nat)
      /\ (b' = b \/ In b' (map fst items)).
Proof.
  unfold feed_all.
  induction items as [|[o a] items IH]; intros fs cur b Hb Hwf.
  - exists b. simpl. split; [exact Hb|]. split; [lia|].
    split; [intros o []|now left].
  - cbn [forallb] in Hwf. apply andb_true_iff in Hwf as [Hi Hwf].
    unfold item_wf in Hi. cbn [fst snd] in Hi.
    apply andb_true_iff in Hi as [Ho Ha].
    destruct (feed_bottom fs cur b o a Hb Ho) as (b1 & B1 & L1 & L2 & D1).
    cbn [fold_left].
    destruct (feed (fs, cur) (o, a)) as [fs1 cur1]. cbn [fst] in B1.
    destruct (IH fs1 cur1 b1 B1 Hwf) as (b' & B' & L' & A' & D').
    exists b'. split; [exact B'|]. split; [lia|]. split.
    + cbn [map fst In]. intros o' [<-|Hin]; [lia | now apply A'].
    + cbn [map fst In]. destruct D' as [->|D']; [|auto].
      destruct D1 as [->| ->]; auto.
Qed.

Lemma reduce_all_bottom (fs : list frame) (cur : expr) (b : string) :
  bottom fs b ->
  exists l r, snd (reduce_all fs cur) = Node l b r
              /\ in_operator_info b = true.
Proof.
  intros (Hp & Hok & _ & fs0 & l & ->).
  rewrite open_parens_app in Hp.
  rewrite reduce_all_app by lia. simpl.
  exists l, (snd (reduce_all fs0 cur)). split; [reflexivity|].
  rewrite forallb_app in Hok. apply andb_true_iff in Hok as [_ Hok].
  simpl in Hok. now rewrite andb_true_r in Hok.
Qed.

(** The parse of a chain with at least one operator is led by an operator
    of the chain that binds no more than any other. *)
Lemma parse_chain_root (a0 : expr) (items : list (string * expr)) :
  items <> [] ->
  forallb item_wf items = true ->
  exists l b r,
    parse_chain (a0, items) = Node l b r
    /\ in_operator_info b = true
    /\ In b (map fst items)
    /\ forall o, In o (map fst items) -> (prec b <= prec o)%nat.
Proof.
  intros Hne Hwf. destruct items as [|[o a] items]; [congruence|].
  cbn [forallb] in Hwf. apply andb_true_iff in Hwf as [Hi Hwf].
  unfold item_wf in Hi. cbn [fst snd] in Hi.
  apply andb_true_iff in Hi as [Ho Ha].
  assert (B0 : bottom [FOp a0 o] o).
  { repeat split.
    - simpl. now rewrite Ho.
    - intros l x [Eq|[]]. injection Eq as <- <-. lia.
    - now exists [], a0. }
  destruct (feed_all_bottom items [FOp a0 o] a o B0 Hwf)
    as (b & B & L & A & D).
  unfold parse_chain, close. cbn [fst snd feed_all fold_left feed reduce_op].
  change (fold_left feed items ([FOp a0 o], a))
    with (feed_all items ([FOp a0 o], a)).
  destruct (feed_all items ([FOp a0 o], a)) as [fs cur]. cbn [fst snd] in *.
  destruct (reduce_all_bottom fs cur b B) as (l & r & E & Hb).
  exists l, b, r. split; [exact E|]. split; [exact Hb|]. split.
  - cbn [map fst In]. destruct D as [->|D]; auto.
  - cbn [map fst In]. intros o' [<-|Hin]; [exact L | now apply A].
Qed.

(** The operators of [chain t] bind at least as much as the operator of
    [t], which is one of them. *)
Lemma chain_ops (t : expr) :
  wf_expr t = true ->
  (forall l op r, t = Node l op r -> In op (map fst (snd (chain t))))
  /\ forall o, In o (map fst (snd (chain t))) ->
               (prec (pivot t) <= prec o)%nat.
Proof.
  induction t as [s|l IHl op r IHr]; intros Hwf.
  - split; [discriminate | intros o []].
  - simpl in Hwf. apply andb_true_iff in Hwf as [Hwf Hr].
    apply andb_true_iff in Hwf as [Hl Hop].
    destruct (IHl Hl) as [_ Al]. destruct (IHr Hr) as [_ Ar].
    cbn [chain fst snd pivot]. rewrite map_app. cbn [map fst]. split.
    + intros l' op' r' E. injection E as <- <- <-.
      apply in_or_app. right. now left.
    + intros o Hin. apply in_app_or in Hin as [Hin|[<-|Hin]]; [|lia|].
      * destruct (wraps_left op l) eqn:W; [destruct Hin|].
        specialize (Al o Hin).
        destruct l as [s|l1 op1 l2]; [destruct Hin|].
        unfold wraps_left in W. cbn [pivot] in *.
        destruct (wf_pivot (Node l1 op1 l2) Hl) as [[_ [s E]]|[_ Pn]];
          cbn [pivot] in *; [discriminate E|].
        rewrite Pn in W. simpl in W. boolnat. lia.
      * destruct (wraps_right op r) eqn:W; [destruct Hin|].
        specialize (Ar o Hin).
        destruct r as [s|r1 op1 r2]; [destruct Hin|].
        unfold wraps_right in W. cbn [pivot] in *.
        destruct (wf_pivot (Node r1 op1 r2) Hr) as [[_ [s E]]|[_ Pn]];
          cbn [pivot] in *; [discriminate E|].
        rewrite Pn in W. simpl in W. boolnat. lia.
Qed.

Lemma chain_wf (t : expr) :
  wf_expr t = true ->
  wf_expr (fst (chain t)) = true /\ forallb item_wf (snd (chain t)) = true.
Proof.
  induction t as [s|l IHl op r IHr]; intros Hwf.
  - simpl. auto.
  - simpl in Hwf. apply andb_true_iff in Hwf as [Hwf Hr].
    apply andb_true_iff in Hwf as [Hl Hop].
    destruct (IHl Hl) as [Al Bl]. destruct (IHr Hr) as [Ar Br].
    pose proof (norm_wf l Hl) as Nl. pose proof (norm_wf r Hr) as Nr.
    unfold norm in Nl, Nr.
    cbn [chain fst snd]. rewrite forallb_app. cbn [forallb].
    unfold item_wf at 2. cbn [fst snd]. rewrite Hop.
    destruct (wraps_left op l), (wraps_right op r); cbn [fst snd forallb];
      rewrite ?Al, ?Bl, ?Ar, ?Br, ?Nl, ?Nr; auto.
Qed.

(** The text of a tree and the parse of the text are led by operators of
    one precedence. *)
Lemma norm_pivot (t : expr) :
  wf_expr t = true ->
  prec (pivot (norm t)) = prec (pivot t)
  /\ (pivot (norm t) =? "") = (pivot t =? "").
Proof.
  intros Hwf. destruct t as [s|l op r]; [now split|].
  destruct (chain_ops _ Hwf) as [Hin Hge].
  specialize (Hin l op r eq_refl).
  destruct (chain_wf _ Hwf) as [_ Hitems].
  unfold norm.
  destruct (chain (Node l op r)) as [a0 items] eqn:Ec. cbn [fst snd] in *.
  destruct (parse_chain_root a0 items) as (l' & b & r' & E & Hb & Bin & Ble).
  - intros ->. destruct Hin.
  - exact Hitems.
  - rewrite E. cbn [pivot]. simpl in Hwf.
    apply andb_true_iff in Hwf as [Hwf _].
    apply andb_true_iff in Hwf as [_ Hop].
    rewrite (operator_nonempty b Hb), (operator_nonempty op Hop).
    split; [|reflexivity].
    specialize (Hge b Bin). specialize (Ble op Hin). cbn [pivot] in Hge. lia.
Qed.

Lemma wraps_left_norm (op : string) (l : expr) :
  wf_expr l = true -> wraps_left op (norm l) = wraps_left op l.
Proof.
  intros H. destruct (norm_pivot l H) as [E1 E2].
  unfold wraps_left. now rewrite E1, E2.
Qed.

Lemma wraps_right_norm (op : string) (r : expr) :
  wf_expr r = true -> wraps_right op (norm r) = wraps_right op r.
Proof.
  intros H. destruct (norm_pivot r H) as [E1 E2].
  unfold wraps_right. now rewrite E1, E2.
Qed.

(* ================================================================= *)
(** ** Every parenthesis pair of a text forces a grouping *)

Lemma needed_all_app (xs : list (string * expr)) :
  forall prev a o b ys next,
    needed_all prev a (xs ++ (o, b) :: ys) next
    = needed_all prev a xs (Some o) && needed_all (Some o) b ys next.
Proof.
  induction xs as [|[o' a'] xs IH]; intros prev a o b ys next; simpl.
  - reflexivity.
  - now rewrite IH, andb_assoc.
Qed.

Lemma chain_needed (t : expr) :
  wf_expr t = true ->
  forall prev next,
    needed_all prev (fst (chain t)) (snd (chain t)) next = true.
Proof.
  induction t as [s|l IHl op r IHr]; intros Hwf prev next.
  - reflexivity.
  - simpl in Hwf. apply andb_true_iff in Hwf as [Hwf Hr].
    apply andb_true_iff in Hwf as [Hl Hop].
    cbn [chain fst snd]. rewrite needed_all_app.
    apply andb_true_iff. split.
    + destruct (wraps_left op l) eqn:W; [|now apply IHl].
      cbn [fst snd needed_all]. unfold needed.
      fold (norm l). rewrite (wraps_left_norm op l Hl), W.
      now rewrite orb_true_r.
    + destruct (wraps_right op r) eqn:W; [|now apply IHr].
      cbn [fst snd needed_all]. unfold needed.
      fold (norm r). rewrite (wraps_right_norm op r Hr), W.
      now rewrite orb_true_r.
Qed.

Lemma reduce_op_wraps (o : string) (fs : list frame) :
  forall cur,
    (frames_wraps fs + wraps cur
     <= frames_wraps (fst (reduce_op o fs cur))
        + wraps (snd (reduce_op o fs cur)))%nat.
Proof.
  induction fs as [|[l x|] fs IH]; intros cur; simpl; try lia.
  destruct (satisfied x o); simpl; [|lia].
  specialize (IH (Node l x cur)). simpl in IH. lia.
Qed.

Lemma reduce_all_wraps (fs : list frame) :
  forall cur,
    (frames_wraps fs + wraps cur
     <= frames_wraps (fst (reduce_all fs cur))
        + wraps (snd (reduce_all fs cur)))%nat.
Proof.
  induction fs as [|[l x|] fs IH]; intros cur; simpl; try lia.
  specialize (IH (Node l x cur)). simpl in IH. lia.
Qed.

Lemma wraps_right_from_left (x o : string) (cur : expr) :
  in_operator_info x = true ->
  satisfied x o = true ->
  wraps_left o cur = true ->
  wraps_right x cur = true.
Proof.
  intros Hx S W. pose proof (satisfied_prec x o Hx S) as P.
  unfold wraps_left in W. apply andb_true_iff in W as [W1 W2].
  apply Nat.ltb_lt in W2. unfold wraps_right. rewrite W1. simpl.
  destruct (Nat.ltb_spec (prec (pivot cur)) (prec x)); [reflexivity | lia].
Qed.

Lemma wraps_left_from_right (x o : string) (cur : expr) :
  in_operator_info x = true ->
  satisfied x o = false ->
  wraps_right x cur = true ->
  wraps_left o cur = true.
Proof.
  intros Hx S W. rewrite (satisfied_spec x o Hx) in S.
  apply orb_false_iff in S as [S1 S2]. apply Nat.ltb_ge in S1.
  unfold wraps_right in W. apply andb_true_iff in W as [W1 W2].
  unfold wraps_left. rewrite W1. simpl. apply Nat.ltb_lt.
  apply orb_true_iff in W2 as [K|K].
  - apply Nat.ltb_lt in K. lia.
  - apply andb_true_iff in K as [K1 K2]. apply Nat.eqb_eq in K1.
    destruct (operator_kind x Hx) as [(_ & _ & K3)|[(K4 & _)|(K4 & _)]];
      [|congruence|congruence].
    apply andb_false_iff in S2 as [S2|S2];
      [apply Nat.eqb_neq in S2 | apply Nat.ltb_ge in S2]; lia.
Qed.

Lemma credit_wraps (cur : expr) (b : bool) :
  ((pivot cur =? "") = false -> b = true) ->
  wf_expr cur = true ->
  (credit cur <= wraps cur + bit b)%nat.
Proof.
  intros H Hwf. destruct cur as [s|l op r]; [simpl; lia|].
  rewrite H; [simpl; lia|].
  destruct (wf_pivot _ Hwf) as [[_ [s E]]|[_ Pn]]; [discriminate E|exact Pn].
Qed.

Lemma feed_credit (fs : list frame) (cur : expr) (o : string) (a : expr) :
  forallb frame_ok fs = true ->
  wf_expr cur = true ->
  needed (top_op fs) cur (Some o) = true ->
  (frames_wraps fs + credit cur
   <= frames_wraps (fst (feed (fs, cur) (o, a))))%nat.
Proof.
  intros Hok Hwf N. unfold feed.
  assert (Stay : (forall l x fs0, fs = FOp l x :: fs0 -> satisfied x o = false) ->
                 (frames_wraps fs + credit cur
                  <= wraps cur + bit (wraps_left o cur) + frames_wraps fs)%nat).
  { intros Hs.
    assert (credit cur <= wraps cur + bit (wraps_left o cur))%nat; [|lia].
    apply credit_wraps; [|assumption]. intros Pn.
    unfold needed in N. rewrite Pn in N. simpl in N.
    apply orb_true_iff in N as [N|N]; [assumption|].
    destruct fs as [|[l x|] fs0]; try discriminate. simpl in N, Hok.
    apply andb_true_iff in Hok as [Hx _].
    apply (wraps_left_from_right x o cur Hx); [|assumption].
    now apply (Hs l x fs0). }
  destruct fs as [|[l x|] fs0].
  - simpl. apply Stay. discriminate.
  - cbn [reduce_op]. destruct (satisfied x o) eqn:S.
    + pose proof (reduce_op_wraps o fs0 (Node l x cur)) as M.
      destruct (reduce_op o fs0 (Node l x cur)) as [fs' t].
      cbn [fst snd frames_wraps wraps] in M |- *.
      assert (credit cur <= wraps cur + bit (wraps_right x cur))%nat; [|lia].
      apply credit_wraps; [|assumption]. intros Pn.
      unfold needed in N. rewrite Pn in N. simpl in N, Hok.
      apply andb_true_iff in Hok as [Hx _].
      apply orb_true_iff in N as [N|N]; [|assumption].
      now apply (wraps_right_from_left x o cur Hx).
    + cbn [fst frames_wraps]. apply Stay.
      intros l' x' fs' E. injection E as <- <- <-. exact S.
  - simpl. apply Stay. discriminate.
Qed.

Lemma feed_ok (fs : list frame) (cur : expr) (o : string) (a : expr) :
  forallb frame_ok fs = true -> in_operator_info o = true ->
  forallb frame_ok (fst (feed (fs, cur) (o, a))) = true
  /\ top_op (fst (feed (fs, cur) (o, a))) = Some o
  /\ snd (feed (fs, cur) (o, a)) = a.
Proof.
  intros Hok Ho. unfold feed.
  pose proof (reduce_op_ok o fs cur Hok) as K.
  destruct (reduce_op o fs cur) as [fs' t]. simpl in *. now rewrite Ho, K.
Qed.

(** Closing a chain in which every parenthesised operand is needed gives a
    tree whose text has at least the parenthesis pairs of the chain. *)
Lemma feed_all_credit (items : list (string * expr)) :
  forall fs cur,
    forallb frame_ok fs = true ->
    open_parens fs = 0 ->
    wf_expr cur = true ->
    forallb item_wf items = true ->
    needed_all (top_op fs) cur items None = true ->
    (frames_wraps fs + credit cur + items_credit items
     <= wraps (close (feed_all items (fs, cur))))%nat.
Proof.
  unfold feed_all.
  induction items as [|[o a] items IH]; intros fs cur Hok Hp Hwf Hit N.
  - cbn [fold_left items_credit needed_all] in *. unfold close. cbn [fst snd].
    destruct (reduce_all_to_bottom fs cur Hp) as [t E].
    destruct fs as [|[l x|] fs0].
    + simpl in *. injection E as <-.
      pose proof (credit_wraps cur false) as C. simpl in C.
      unfold needed in N. simpl in N. rewrite orb_false_r in N.
      assert (credit cur <= wraps cur + 0)%nat; [|lia].
      apply C; [|assumption]. intros Pn. rewrite Pn in N. discriminate.
    + cbn [reduce_all] in E |- *.
      pose proof (reduce_all_wraps fs0 (Node l x cur)) as M.
      rewrite E in M |- *. cbn [fst snd frames_wraps wraps] in M |- *.
      assert (credit cur <= wraps cur + bit (wraps_right x cur))%nat; [|lia].
      apply credit_wraps; [|assumption]. intros Pn.
      unfold needed in N. rewrite Pn in N. simpl in N. exact N.
    + discriminate.
  - cbn [forallb] in Hit. apply andb_true_iff in Hit as [Hi Hit].
    unfold item_wf in Hi. cbn [fst snd] in Hi.
    apply andb_true_iff in Hi as [Ho Ha].
    cbn [needed_all] in N. apply andb_true_iff in N as [N1 N2].
    pose proof (feed_credit fs cur o a Hok Hwf N1) as C.
    destruct (feed_ok fs cur o a Hok Ho) as (K1 & K2 & K3).
    pose proof (feed_parens fs cur (o, a)) as K4.
    cbn [fold_left items_credit].
    destruct (feed (fs, cur) (o, a)) as [fs1 cur1]. cbn [fst snd] in *.
    subst cur1. rewrite <- K2 in N2.
    specialize (IH fs1 a K1 (eq_trans K4 Hp) Ha Hit N2). lia.
Qed.

Lemma items_credit_app (xs ys : list (string * expr)) :
  items_credit (xs ++ ys) = items_credit xs + items_credit ys.
Proof.
  induction xs as [|[o a] xs IH]; simpl; [reflexivity|]. rewrite IH. lia.
Qed.

Lemma norm_compound (t : expr) :
  wf_expr t = true -> (pivot t =? "") = false ->
  credit (norm t) = 1 + wraps (norm t).
Proof.
  intros Hwf Pn. destruct (norm_pivot t Hwf) as [_ E]. rewrite Pn in E.
  destruct (norm t); [discriminate | reflexivity].
Qed.

(** The parse of the text of a tree has at least as many parenthesis pairs
    in its own text. *)
Lemma norm_wraps (t : expr) :
  wf_expr t = true ->
  (wraps t <= credit (fst (chain t)) + items_credit (snd (chain t)))%nat
  /\ (wraps t <= wraps (norm t))%nat.
Proof.
  induction t as [s|l IHl op r IHr]; intros Hwf.
  - simpl. split; lia.
  - assert (A : (wraps (Node l op r)
                 <= credit (fst (chain (Node l op r)))
                    + items_credit (snd (chain (Node l op r))))%nat).
    { simpl in Hwf. apply andb_true_iff in Hwf as [Hwf Hr].
      apply andb_true_iff in Hwf as [Hl Hop].
      destruct (IHl Hl) as [Al Bl]. destruct (IHr Hr) as [Ar Br].
      cbn [chain fst snd wraps]. rewrite items_credit_app.
      cbn [items_credit].
      assert (L : (wraps l + bit (wraps_left op l)
                   <= credit (fst (if wraps_left op l
                                   then (parse_chain (chain l), [])
                                   else chain l))
                      + items_credit (snd (if wraps_left op l
                                           then (parse_chain (chain l), [])
                                           else chain l)))%nat).
      { destruct (wraps_left op l) eqn:W; [|simpl; lia].
        cbn [fst snd items_credit bit]. fold (norm l).
        rewrite norm_compound; [lia | assumption|].
        unfold wraps_left in W. boolnat. assumption. }
      assert (R : (wraps r + bit (wraps_right op r)
                   <= credit (fst (if wraps_right op r
                                   then (parse_chain (chain r), [])
                                   else chain r))
                      + items_credit (snd (if wraps_right op r
                                           then (parse_chain (chain r), [])
                                           else chain r)))%nat).
      { destruct (wraps_right op r) eqn:W; [|simpl; lia].
        cbn [fst snd items_credit bit]. fold (norm r).
        rewrite norm_compound; [lia | assumption|].
        unfold wraps_right in W. boolnat. assumption. }
      lia. }
    split; [exact A|].
    destruct (chain_wf _ Hwf) as [W0 Wi].
    pose proof (chain_needed _ Hwf None None) as N.
    pose proof (feed_all_credit (snd (chain (Node l op r))) []
                  (fst (chain (Node l op r))) eq_refl eq_refl W0 Wi N) as C.
    unfold norm, parse_chain. simpl frames_wraps in C. lia.
Qed.

Lemma wraps_left_grouped (op : string) (l : expr) :
  wf_expr l = true ->
  (bit (wraps_left op l) <= bit (grouped_left op l))%nat.
Proof.
  intros Hl. destruct (wraps_left op l) eqn:W; [|simpl; lia].
  unfold wraps_left in W. apply andb_true_iff in W as [W1 W2].
  apply Nat.ltb_lt in W2. unfold grouped_left.
  destruct (wf_pivot l Hl) as [[E _]|[Po _]];
    [rewrite E in W1; discriminate|].
  rewrite W1, (satisfied_spec _ op Po). simpl.
  destruct (Nat.ltb_spec (prec op) (prec (pivot l))); [lia|].
  destruct (Nat.eqb_spec (prec (pivot l)) (prec op)); [lia|].
  simpl. lia.
Qed.

Lemma wraps_right_grouped (op : string) (r : expr) :
  in_operator_info op = true ->
  (bit (wraps_right op r) <= bit (grouped_right op r))%nat.
Proof.
  intros Hop. destruct (wraps_right op r) eqn:W; [|simpl; lia].
  unfold wraps_right in W. apply andb_true_iff in W as [W1 W2].
  unfold grouped_right. rewrite W1, (satisfied_spec op _ Hop). simpl.
  apply orb_true_iff in W2 as [K|K].
  - rewrite K. simpl. lia.
  - apply andb_true_iff in K as [K1 K2]. apply Nat.eqb_eq in K1.
    destruct (operator_kind op Hop) as [(_ & _ & K3)|[(K4 & _)|(K4 & _)]];
      [|congruence|congruence].
    rewrite K1, Nat.eqb_refl.
    destruct (Nat.ltb_spec (prec (pivot r)) 2); [|lia].
    rewrite orb_true_r. simpl. lia.
Qed.

Lemma wraps_le_groupings (t : expr) :
  wf_expr t = true -> (wraps t <= groupings t)%nat.
Proof.
  induction t as [s|l IHl op r IHr]; intros Hwf; [simpl; lia|].
  simpl in Hwf. apply andb_true_iff in Hwf as [Hwf Hr].
  apply andb_true_iff in Hwf as [Hl Hop].
  specialize (IHl Hl). specialize (IHr Hr). cbn [wraps groupings].
  pose proof (wraps_left_grouped op l Hl).
  pose proof (wraps_right_grouped op r Hop).
  lia.
Qed.

Lemma count_close_wrap (b : bool) (tokens : list string) :
  count_close (wrap b tokens) = count_close tokens + bit b.
Proof.
  destruct b; simpl; [|lia]. unfold wrap.
  rewrite count_close_cons, count_close_app. simpl.
  unfold count_close at 2. simpl. lia.
Qed.

Lemma count_close_tokens_of (t : expr) :
  wf_expr t = true -> count_close (tokens_of t) = wraps t.
Proof.
  induction t as [s|l IHl op r IHr]; intros Hwf.
  - simpl in Hwf. apply operand_token_is_operand, is_operand_spec in Hwf.
    destruct Hwf as (_ & _ & E). unfold count_close. simpl. now rewrite E.
  - simpl in Hwf. apply andb_true_iff in Hwf as [Hwf Hr].
    apply andb_true_iff in Hwf as [Hl Hop].
    destruct (operator_not_paren op Hop) as [_ E].
    cbn [tokens_of wraps].
    rewrite count_close_app, count_close_cons, !count_close_wrap, E.
    rewrite IHl, IHr by assumption. simpl. lia.
Qed.

(** The parse of the text of a tree has exactly one grouping for each
    parenthesis pair of the text. *)
Lemma norm_groupings (t : expr) :
  wf_expr t = true ->
  groupings (norm t) = wraps t /\ wraps (norm t) = wraps t.
Proof.
  intros Hwf.
  pose proof (parse_groupings _ _ (parse_tokens_of t Hwf)) as U.
  rewrite count_close_tokens_of in U by assumption.
  destruct (norm_wraps t Hwf) as [_ L].
  pose proof (wraps_le_groupings _ (norm_wf t Hwf)). lia.
Qed.

(** A tree with no more groupings than parenthesis pairs is regular. *)
Lemma groupings_regular (t : expr) :
  wf_expr t = true -> (groupings t <= wraps t)%nat -> regular t = true.
Proof.
  induction t as [s|l IHl op r IHr]; intros Hwf H; [reflexivity|].
  pose proof (wraps_le_groupings _ Hwf) as G.
  simpl in Hwf. apply andb_true_iff in Hwf as [Hwf Hr].
  apply andb_true_iff in Hwf as [Hl Hop].
  pose proof (wraps_le_groupings _ Hl) as Gl.
  pose proof (wraps_le_groupings _ Hr) as Gr.
  cbn [groupings wraps] in H, G.
  pose proof (wraps_left_grouped op l Hl) as WL.
  pose proof (wraps_right_grouped op r Hop) as WR.
  assert (L : (bit (grouped_left op l) <= bit (wraps_left op l))%nat) by lia.
  assert (R : (bit (grouped_right op r) <= bit (wraps_right op r))%nat) by lia.
  cbn [regular]. rewrite IHl, IHr by (assumption || lia). simpl.
  apply andb_true_iff. split; apply negb_true_iff.
  - destruct (regroups_left op l) eqn:E; [|reflexivity]. exfalso.
    unfold regroups_left in E. apply andb_true_iff in E as [E1 E2].
    apply String.eqb_eq in E1, E2. subst op.
    unfold grouped_left, wraps_left in L. rewrite E1 in L.
    simpl in L. lia.
  - destruct (regroups_right op r) eqn:E; [|reflexivity]. exfalso.
    unfold regroups_right in E. apply andb_true_iff in E as [E E3].
    apply andb_true_iff in E as [E1 E2]. apply Nat.eqb_eq in E2.
    unfold grouped_right, wraps_right in R.
    rewrite E1, (satisfied_spec op _ Hop) in R. simpl in R.
    destruct (operator_kind op Hop) as [(_ & K2 & _)|[(K1 & K2 & K3)|(_ & K2 & _)]];
      [congruence| |congruence].
    rewrite K1, E2, Nat.eqb_refl, Nat.ltb_irrefl in R.
    destruct (Nat.ltb_spec (prec op) 2); [|lia].
    simpl in R. lia.
Qed.

(** The parse of the text of any tree is regular. *)
Lemma norm_regular (t : expr) :
  wf_expr t = true -> regular (norm t) = true.
Proof.
  intros Hwf. destruct (norm_groupings t Hwf) as [G W].
  apply groupings_regular; [now apply norm_wf | lia].
Qed.

(* ================================================================= *)
(** ** Deleting a matching pair of parentheses *)

Lemma valid_delete_inner (tb : list string) :
  forall expect j d tc,
    tokens_depth tb j = Some 0 ->
    valid_from expect (j + S d) (tb ++ ")" :: tc) = true ->
    valid_from expect (j + d) (tb ++ tc) = true.
Proof.
  induction tb as [|tok tb IH]; intros expect j d tc Hd Hv.
  - simpl in Hd. injection Hd as ->. simpl in Hv |- *.
    destruct expect; [discriminate | exact Hv].
  - cbn [tokens_depth] in Hd. cbn [app valid_from] in Hv |- *.
    destruct expect.
    + destruct (tok =? "(") eqn:El.
      * apply (IH true (S j)); assumption.
      * destruct (is_operand tok) eqn:Eo; [|discriminate].
        apply is_operand_spec in Eo as (_ & _ & Er). rewrite Er in Hd.
        now apply IH.
    + destruct (tok =? ")") eqn:Er.
      * assert (El : (tok =? "(") = false)
          by (apply String.eqb_eq in Er; now subst tok).
        rewrite El in Hd. destruct j as [|j]; [discriminate|].
        simpl in Hv |- *. now apply IH.
      * destruct (in_operator_info tok) eqn:Eo; [|discriminate].
        rewrite (operator_eqb_paren tok Eo) in Hd. now apply IH.
Qed.

(** A well-formed sequence stays well-formed when a matching pair of
    parentheses is taken out. *)
Lemma valid_delete (ta tb tc : list string) :
  tokens_depth tb 0 = Some 0 ->
  forall expect d,
    valid_from expect d (ta ++ "(" :: tb ++ ")" :: tc) = true ->
    valid_from expect d (ta ++ tb ++ tc) = true.
Proof.
  intros Hb. induction ta as [|tok ta IH]; intros expect d Hv.
  - cbn [app valid_from] in Hv |- *.
    destruct expect; [|discriminate].
    simpl in Hv. now apply (valid_delete_inner tb true 0 d tc).
  - cbn [app valid_from] in Hv |- *.
    destruct expect.
    + destruct (tok =? "("); [now apply IH|].
      destruct (is_operand tok); [now apply IH | discriminate].
    + destruct (tok =? ")").
      * destruct d; [discriminate | now apply IH].
      * destruct (in_operator_info tok); [now apply IH | discriminate].
Qed.

(** Without one of its parenthesis pairs, the text of a tree converts to
    another postfix sequence. *)
Lemma delete_pair_changes_postfix (t : expr) (ta tb tc : list string) :
  wf_expr t = true ->
  tokens_of t = ta ++ "(" :: tb ++ ")" :: tc ->
  tokens_depth tb 0 = Some 0 ->
  valid_tokens (ta ++ tb ++ tc) = true
  /\ forallb token_ok (ta ++ tb ++ tc) = true
  /\ shunt (ta ++ tb ++ tc) <> shunt (tokens_of t).
Proof.
  intros Hwf E Hb.
  assert (V : valid_tokens (ta ++ tb ++ tc) = true).
  { apply valid_delete; [assumption|]. rewrite <- E.
    now apply valid_tokens_of. }
  assert (K : forallb token_ok (ta ++ tb ++ tc) = true).
  { pose proof (tokens_of_ok t Hwf) as K. rewrite E in K.
    rewrite forallb_app in K. cbn [forallb] in K.
    rewrite forallb_app in K. cbn [forallb] in K.
    apply andb_true_iff in K as [Ka K]. apply andb_true_iff in K as [_ K].
    apply andb_true_iff in K as [Kb K]. apply andb_true_iff in K as [_ Kc].
    now rewrite !forallb_app, Ka, Kb, Kc. }
  split; [exact V|]. split; [exact K|].
  destruct (valid_parse _ V) as [t' P].
  pose proof (parse_wf _ t' K P) as W'.
  pose proof (parse_groupings _ _ P) as G.
  rewrite (parse_shunt _ _ P).
  rewrite (parse_shunt _ _ (parse_tokens_of t Hwf)).
  intros Eq. apply postfix_injective in Eq;
    [|assumption | now apply norm_wf].
  subst t'. destruct (norm_groupings t Hwf) as [G1 _].
  pose proof (count_close_tokens_of t Hwf) as C. rewrite E in C.
  rewrite count_close_app, count_close_cons, count_close_app,
    count_close_cons in C.
  rewrite !count_close_app in G. simpl in C. lia.
Qed.

(* ================================================================= *)
(** ** Parentheses of a text and parenthesis tokens *)

Lemma list_ascii_injective (s1 s2 : string) :
  list_ascii_of_string s1 = list_ascii_of_string s2 -> s1 = s2.
Proof.
  intros H. rewrite <- (string_list_ascii s1), <- (string_list_ascii s2).
  now rewrite H.
Qed.

Lemma list_ascii_join_cons (tok : string) (tokens : list string) :
  list_ascii_of_string (join (tok :: tokens))
  = list_ascii_of_string tok ++ list_ascii_of_string (join tokens).
Proof. cbn [join fold_right]. apply list_ascii_append. Qed.

Section Paren.

(** One of the two parenthesis characters. *)
Variable p : ascii.
Hypothesis p_paren : is_paren p = true.

(** A token other than the parenthesis [p] does not hold the character
    [p]. *)
Lemma token_lacks_paren (tok : string) :
  token_ok tok = true ->
  tok <> str p ->
  ~ In p (list_ascii_of_string tok).
Proof.
  intros Hok Hne Hin. unfold token_ok in Hok.
  destruct (tok =? "(") eqn:E1.
  { apply String.eqb_eq in E1. subst tok. simpl in Hin.
    destruct Hin as [<-|[]]. now apply Hne. }
  destruct (tok =? ")") eqn:E2.
  { apply String.eqb_eq in E2. subst tok. simpl in Hin.
    destruct Hin as [<-|[]]. now apply Hne. }
  destruct (in_operator_info tok) eqn:Eo.
  { destruct (operator_char tok Eo) as (c & -> & Hc). simpl in Hin.
    destruct Hin as [<-|[]]. congruence. }
  simpl in Hok. unfold operand_token in Hok.
  assert (K : forall l, forallb word_char l = true -> ~ In p l).
  { intros l Hl Hi. rewrite forallb_forall in Hl. specialize (Hl p Hi).
    unfold word_char, is_operand_char in Hl. rewrite p_paren in Hl.
    discriminate. }
  destruct (list_ascii_of_string tok) as [|c cs]; [destruct Hin|].
  destruct (String.eqb_spec (str c) "-") as [E|_].
  - injection E as ->. destruct cs as [|c2 cs]; [discriminate|].
    destruct Hin as [Hin|Hin]; [|now apply (K _ Hok)].
    subst p. discriminate p_paren.
  - now apply (K _ Hok).
Qed.

(** A parenthesis character of a text made of tokens is one of the
    tokens. *)
Lemma split_at_paren (tokens : list string) :
  forallb token_ok tokens = true ->
  forall la lrest,
    list_ascii_of_string (join tokens) = la ++ p :: lrest ->
    exists ta tr,
      tokens = ta ++ str p :: tr
      /\ list_ascii_of_string (join ta) = la
      /\ list_ascii_of_string (join tr) = lrest.
Proof.
  induction tokens as [|tok tokens IH]; intros Hok la lrest E.
  - destruct la; discriminate.
  - cbn [forallb] in Hok. apply andb_true_iff in Hok as [Htok Hok].
    rewrite list_ascii_join_cons in E.
    destruct (String.eqb_spec tok (str p)) as [->|Hne].
    + cbn [list_ascii_of_string str app] in E. destruct la as [|c la].
      * injection E as E. exists [], tokens. now repeat split.
      * injection E as <- E.
        destruct (IH Hok la lrest E) as (ta & tr & -> & Ea & Er).
        exists (str p :: ta), tr. split; [reflexivity|]. split; [|exact Er].
        rewrite list_ascii_join_cons, Ea. reflexivity.
    + pose proof (token_lacks_paren tok Htok Hne) as Hno.
      apply app_eq_app in E as [l [[E1 E2]|[E1 E2]]].
      * destruct l as [|c l].
        -- rewrite app_nil_r in E1. simpl in E2.
           destruct (IH Hok [] lrest (eq_sym E2)) as (ta & tr & -> & Ea & Er).
           exists (tok :: ta), tr. split; [reflexivity|]. split; [|exact Er].
           rewrite list_ascii_join_cons, Ea, app_nil_r. congruence.
        -- exfalso. injection E2 as <- _. apply Hno. rewrite E1.
           apply in_or_app. right. now left.
      * destruct (IH Hok l lrest E2) as (ta & tr & -> & Ea & Er).
        exists (tok :: ta), tr. split; [reflexivity|]. split; [|exact Er].
        rewrite list_ascii_join_cons, Ea. congruence.
Qed.

End Paren.

Lemma paren_depth_free (l : list ascii) :
  (forall p, is_paren p = true -> ~ In p l) ->
  forall rest d, paren_depth (l ++ rest) d = paren_depth rest d.
Proof.
  induction l as [|c l IH]; intros H rest d; [reflexivity|].
  cbn [app paren_depth].
  assert (Hc : is_paren c = false).
  { destruct (is_paren c) eqn:E; [|reflexivity].
    exfalso. apply (H c E). now left. }
  unfold is_paren in Hc. apply orb_false_iff in Hc as [-> ->].
  apply IH. intros p Hp Hin. apply (H p Hp). now right.
Qed.

Lemma tokens_depth_chars (tokens : list string) :
  forallb token_ok tokens = true ->
  forall d,
    paren_depth (list_ascii_of_string (join tokens)) d = tokens_depth tokens d.
Proof.
  induction tokens as [|tok tokens IH]; intros Hok d; [reflexivity|].
  cbn [forallb] in Hok. apply andb_true_iff in Hok as [Htok Hok].
  rewrite list_ascii_join_cons. cbn [tokens_depth].
  destruct (String.eqb_spec tok "(") as [->|N1].
  { simpl. now apply IH. }
  destruct (String.eqb_spec tok ")") as [->|N2].
  { simpl. destruct d; [reflexivity | now apply IH]. }
  rewrite paren_depth_free; [now apply IH|].
  intros p Hp. apply token_lacks_paren; try assumption.
  unfold is_paren in Hp. apply orb_true_iff in Hp as [Hp|Hp];
    apply String.eqb_eq in Hp; congruence.
Qed.

(** Taking a matching pair of parenthesis characters out of the text of a
    tree is taking the two tokens out of its token sequence. *)
Lemma delete_pair_tokens (t : expr) (a b c : string) :
  wf_expr t = true ->
  text t = (a ++ "(" ++ b ++ ")" ++ c)%string ->
  balanced b = true ->
  exists ta tb tc,
    tokens_of t = ta ++ "(" :: tb ++ ")" :: tc
    /\ tokens_depth tb 0 = Some 0
    /\ join (ta ++ tb ++ tc) = (a ++ b ++ c)%string.
Proof.
  intros Hwf E Hb.
  pose proof (tokens_of_ok t Hwf) as Hok.
  rewrite <- join_tokens_of in E.
  apply (f_equal list_ascii_of_string) in E.
  rewrite list_ascii_append in E. cbn [append list_ascii_of_string] in E.
  destruct (split_at_paren "(" eq_refl (tokens_of t) Hok _ _ E)
    as (ta & tr & Et & Ea & Er).
  assert (Hokr : forallb token_ok tr = true).
  { rewrite Et, forallb_app in Hok. cbn [forallb] in Hok.
    apply andb_true_iff in Hok as [_ Hok].
    now apply andb_true_iff in Hok as [_ Hok]. }
  rewrite list_ascii_append in Er. cbn [append list_ascii_of_string] in Er.
  destruct (split_at_paren ")" eq_refl tr Hokr _ _ Er)
    as (tb & tc & Etr & Eb & Ec).
  assert (Hokb : forallb token_ok tb = true).
  { rewrite Etr, forallb_app in Hokr.
    now apply andb_true_iff in Hokr as [Hokb _]. }
  exists ta, tb, tc. split; [now rewrite Et, Etr|]. split.
  - rewrite <- tokens_depth_chars, Eb by assumption.
    unfold balanced in Hb.
    destruct (paren_depth (list_ascii_of_string b) 0) as [[|n]|];
      [reflexivity | discriminate | discriminate].
  - apply list_ascii_injective.
    rewrite !join_app, !list_ascii_append. congruence.
Qed.

(* ================================================================= *)
(** ** The properties of the whole transformation *)

(** What the pipeline does on a valid expression, in one place. *)
Lemma valid_expression_output (e out : string) :
  valid_expression e -> returns e out ->
  exists t,
    wf_expr t = true /\ out = text t
    /\ shunt (tokenize e) = postfix t
    /\ tokenize out = tokens_of t
    /\ shunt (tokenize out) = postfix (norm t).
Proof.
  intros Hv Hr. destruct (valid_expression_tree e Hv) as (t & _ & W & S & R).
  exists t. pose proof (returns_functional e out (text t) Hr R) as ->.
  repeat split; try assumption.
  - now apply tokenize_text.
  - now apply shunt_text.
Qed.

Lemma valid_expression_text (t : expr) :
  wf_expr t = true -> valid_expression (text t).
Proof.
  intros H. unfold valid_expression. rewrite tokenize_text by assumption.
  now apply valid_tokens_of.
Qed.

(** C1, as stated, fails: the source's own test maps
    ["x123+(y+z)+(t+(v+w))"] to ["x123+y+z+t+v+w"], whose postfix sequence
    is another one. *)
Lemma regrouped_sum_changes_postfix :
  valid_expression "x123+(y+z)+(t+(v+w))"
  /\ returns "x123+(y+z)+(t+(v+w))" "x123+y+z+t+v+w"
  /\ ~ preserves_postfix "x123+(y+z)+(t+(v+w))".
Proof.
  assert (R : returns "x123+(y+z)+(t+(v+w))" "x123+y+z+t+v+w")
    by (apply (returns_with 40); reflexivity).
  split; [reflexivity|]. split; [exact R|].
  intros H. specialize (H _ R). vm_compute in H. discriminate H.
Qed.

(** The other way C1 fails: the parentheses of ["(2^3)^2"] are dropped
    although ["^"] groups to the right. *)
Lemma power_of_power_changes_postfix :
  valid_expression "(2^3)^2"
  /\ returns "(2^3)^2" "2^3^2"
  /\ shunt (tokenize "(2^3)^2") = ["2"; "3"; "^"; "2"; "^"]
  /\ shunt (tokenize "2^3^2") = ["2"; "3"; "2"; "^"; "^"].
Proof.
  repeat split. apply (returns_with 40). reflexivity.
Qed.

(** C1, amended.  For every valid expression whose tree is regular (no
    ["+"] or ["*"] has a right operand led by an operator of its own
    precedence, and no ["^"] has a left operand led by ["^"]), the call
    returns the text of the tree, and tokenize then shunt on the output
    gives exactly the postfix sequence of the input. *)
Theorem semantic_equivalence_regular (e : string) (t : expr) :
  valid_expression e ->
  tree_of_postfix (shunt (tokenize e)) = Some t ->
  regular t = true ->
  returns e (text t)
  /\ shunt (tokenize (text t)) = shunt (tokenize e)
  /\ preserves_postfix e.
Proof.
  intros Hv Ht Hreg.
  destruct (valid_expression_tree e Hv) as (t0 & _ & W & S & R).
  rewrite S, (tree_of_postfix_postfix t0 W) in Ht. injection Ht as ->.
  assert (E : shunt (tokenize (text t)) = shunt (tokenize e)).
  { rewrite shunt_text, S by assumption.
    now rewrite regular_norm by assumption. }
  split; [exact R|]. split; [exact E|].
  intros out Hout. now rewrite (returns_functional e out (text t) Hout R).
Qed.

Lemma semantic_equivalence_regular_witness :
  returns "1*(2+(3*(4+5)))" "1*(2+3*(4+5))"
  /\ shunt (tokenize "1*(2+3*(4+5))") = shunt (tokenize "1*(2+(3*(4+5)))")
  /\ preserves_postfix "1*(2+(3*(4+5)))".
Proof.
  apply (semantic_equivalence_regular "1*(2+(3*(4+5)))"
           (Node (Leaf "1") "*"
              (Node (Leaf "2") "+"
                 (Node (Leaf "3") "*" (Node (Leaf "4") "+" (Leaf "5"))))));
    reflexivity.
Defined.

(** C2.  No matching pair of parentheses of the output can be deleted
    without changing the postfix sequence that tokenize then shunt give:
    for an output [a ++ "(" ++ b ++ ")" ++ c] whose part [b] has matching
    parentheses, the string [a ++ b ++ c] converts to another sequence. *)
Theorem minimality (e out a b c : string) :
  valid_expression e ->
  returns e out ->
  out = (a ++ "(" ++ b ++ ")" ++ c)%string ->
  balanced b = true ->
  shunt (tokenize (a ++ b ++ c)) <> shunt (tokenize out).
Proof.
  intros Hv Hr Eo Hb.
  destruct (valid_expression_output e out Hv Hr) as (t & W & Et & _ & Tk & _).
  rewrite Et in Eo.
  destruct (delete_pair_tokens t a b c W Eo Hb) as (ta & tb & tc & E & D & J).
  destruct (delete_pair_changes_postfix t ta tb tc W E D) as (V & K & N).
  rewrite Tk, <- J, tokenize_join by assumption. exact N.
Qed.

Lemma minimality_witness :
  shunt (tokenize ("7+12/" ++ "4*2" ++ ""))
  <> shunt (tokenize "7+12/(4*2)").
Proof.
  apply (minimality "7+12/(4*2)" "7+12/(4*2)" "7+12/" "4*2" "").
  - reflexivity.
  - apply (returns_with 40). reflexivity.
  - reflexivity.
  - reflexivity.
Defined.

(** C3.  For every valid expression the call returns an output, the call
    on that output returns again, and the second output converts (tokenize
    then shunt) to the same postfix sequence as the first. *)
Theorem idempotence (e : string) :
  valid_expression e ->
  exists out1 out2,
    returns e out1 /\ returns out1 out2
    /\ shunt (tokenize out2) = shunt (tokenize out1).
Proof.
  intros Hv.
  destruct (valid_expression_tree e Hv) as (t & _ & W & _ & R).
  pose proof (norm_wf t W) as Wn.
  destruct (valid_expression_tree (text t) (valid_expression_text t W))
    as (t1 & P1 & W1 & S1 & R1).
  rewrite tokenize_text, parse_tokens_of in P1 by assumption.
  injection P1 as <-.
  exists (text t), (text (norm t)). split; [exact R|]. split; [exact R1|].
  rewrite (shunt_text (norm t) Wn), (shunt_text t W).
  now rewrite (regular_norm (norm t) Wn (norm_regular t W)).
Qed.

Lemma idempotence_witness :
  exists out1 out2,
    returns "x123+(y+z)+(t+(v+w))" out1 /\ returns out1 out2
    /\ shunt (tokenize out2) = shunt (tokenize out1).
Proof.
  apply (idempotence "x123+(y+z)+(t+(v+w))"). reflexivity.
Defined.

(* ================================================================= *)
(** ** The pipeline on the examples of the source and of the specification *)

Example run_test_1 :
  remove_unnecessary_parentheses 20 "1 +  (2 * 3)" = Returned "1+2*3".
Proof. reflexivity. Qed.
Example run_test_2 :
  remove_unnecessary_parentheses 40 "1*(2+(3*(4+5)))" = Returned "1*(2+3*(4+5))".
Proof. reflexivity. Qed.
Example run_test_3 :
  remove_unnecessary_parentheses 40 "2 + (3 / -5)" = Returned "2+3/-5".
Proof. reflexivity. Qed.
Example run_test_4 :
  remove_unnecessary_parentheses 40 "(2 + ((3 / (-5))))" = Returned "2+3/-5".
Proof. reflexivity. Qed.
Example run_test_5 :
  remove_unnecessary_parentheses 40 "x123+(y+z)+(t+(v+w))" = Returned "x123+y+z+t+v+w".
Proof. reflexivity. Qed.
Example run_test_6 :
  remove_unnecessary_parentheses 40 "2 + (3^3)" = Returned "2+3^3".
Proof. reflexivity. Qed.
Example run_test_7 :
  remove_unnecessary_parentheses 40 "-2 + (3 - 2) - 2* 3" = Returned "-2+3-2-2*3".
Proof. reflexivity. Qed.
Example run_test_8 :
  remove_unnecessary_parentheses 40 "-2 + (3 * 2) - 2* 3" = Returned "-2+3*2-2*3".
Proof. reflexivity. Qed.
Example run_test_9 :
  remove_unnecessary_parentheses 40 "7+12/(4*2)" = Returned "7+12/(4*2)".
Proof. reflexivity. Qed.
Example run_test_10 :
  remove_unnecessary_parentheses 40 "-14-12/(4/2)" = Returned "-14-12/(4/2)".
Proof. reflexivity. Qed.
Example run_test_11 :
  remove_unnecessary_parentheses 40 "(x1+y1)*(x2*y2-(x3*y3))"
  = Returned "(x1+y1)*(x2*y2-x3*y3)".
Proof. reflexivity. Qed.

(** C5.  [remove_unnecessary_parentheses] maps each literal example of the
    specification to its stated output; ["1*(2+(3*(4+5)))"] gives
    ["1*(2+3*(4+5))"], and ["7+12/(4*2)"] keeps its parentheses. *)
Theorem concrete_scenarios :
  returns "1 +  (2 * 3)" "1+2*3"
  /\ returns "1*(2+(3*(4+5)))" "1*(2+3*(4+5))"
  /\ returns "2 + (3 / -5)" "2+3/-5"
  /\ returns "-2 + (3 - 2) - 2* 3" "-2+3-2-2*3"
  /\ returns "7+12/(4*2)" "7+12/(4*2)"
  /\ returns "(x1+y1)*(x2*y2-(x3*y3))" "(x1+y1)*(x2*y2-x3*y3)".
Proof.
  repeat split; apply (returns_with 40); reflexivity.
Qed.

(* ================================================================= *)
(** * Further properties of the functions *)

(* ================================================================= *)
(** ** tokenize *)

(** X1.  Every token [tokenize] emits, on any input, is non-empty, holds no
    white space, and is a parenthesis, one of the five operators, or an
    operand token: a run of characters that are neither operators nor
    parentheses, after at most one leading ["-"]. *)
Theorem tokenize_tokens_wellformed (input_string : string) :
  Forall (fun tok =>
            tok <> ""
            /\ forallb no_space (list_ascii_of_string tok) = true
            /\ (tok = "(" \/ tok = ")" \/ in_operator_info tok = true
                \/ operand_token tok = true))
    (tokenize input_string).
Proof.
  apply Forall_forall. intros tok Hin.
  pose proof (tokenize_ok input_string) as H.
  rewrite forallb_forall in H. specialize (H tok Hin).
  split; [|split].
  - intros ->. discriminate H.
  - now apply token_ok_no_space.
  - unfold token_ok in H.
    destruct (String.eqb_spec tok "("); [auto|].
    destruct (String.eqb_spec tok ")"); [auto|].
    destruct (in_operator_info tok); [auto|].
    simpl in H. auto.
Qed.

(** X2.  [tokenize] undoes concatenation: a well-formed sequence of tokens
    (parentheses, operators and operand tokens) is exactly what [tokenize]
    finds in the string made by joining them. *)
Theorem tokenize_round_trip (tokens : list string) :
  valid_tokens tokens = true ->
  forallb token_ok tokens = true ->
  tokenize (join tokens) = tokens.
Proof. apply tokenize_join. Qed.

Lemma tokenize_round_trip_witness :
  tokenize (join ["("; "a1"; "+"; "-b"; ")"; "*"; "-3"])
  = ["("; "a1"; "+"; "-b"; ")"; "*"; "-3"].
Proof.
  apply (tokenize_round_trip ["("; "a1"; "+"; "-b"; ")"; "*"; "-3"]);
    reflexivity.
Defined.

Lemma cleaned_insert_space (a b : string) (c : ascii) :
  is_space c = true ->
  cleaned (a ++ String c b) = cleaned (a ++ b).
Proof.
  intros Hc. unfold cleaned. rewrite !list_ascii_append, !filter_app.
  cbn [list_ascii_of_string filter]. now rewrite Hc.
Qed.

(** X3.  White space is ignored wherever it stands: a white-space character
    inserted anywhere in the input changes neither the tokens nor what the
    call does. *)
Theorem whitespace_insensitive (a b : string) (c : ascii) :
  is_space c = true ->
  tokenize (a ++ String c b) = tokenize (a ++ b)
  /\ forall fuel,
      remove_unnecessary_parentheses fuel (a ++ String c b)
      = remove_unnecessary_parentheses fuel (a ++ b).
Proof.
  intros Hc.
  assert (E : tokenize (a ++ String c b) = tokenize (a ++ b))
    by (unfold tokenize; now rewrite cleaned_insert_space).
  split; [exact E|]. intros fuel.
  unfold remove_unnecessary_parentheses. now rewrite E.
Qed.

Lemma whitespace_insensitive_witness :
  tokenize ("x1" ++ String " " "2+3") = tokenize ("x1" ++ "2+3")
  /\ forall fuel,
      remove_unnecessary_parentheses fuel ("x1" ++ String " " "2+3")
      = remove_unnecessary_parentheses fuel ("x1" ++ "2+3").
Proof.
  apply (whitespace_insensitive "x1" "2+3" " "). reflexivity.
Defined.

(* ================================================================= *)
(** ** shunt on any token sequence *)

Lemma pop_operators_split (tok : string) (operators : list string) :
  forall output,
    exists popped,
      operators = popped ++ fst (pop_operators tok operators output)
      /\ snd (pop_operators tok operators output) = output ++ popped.
Proof.
  induction operators as [|top rest IH]; intros output; simpl.
  - exists []. split; [reflexivity | now rewrite app_nil_r].
  - destruct (satisfied top tok).
    + destruct (IH (output ++ [top])) as (popped & E1 & E2).
      exists (top :: popped). split; [simpl; congruence|].
      rewrite E2. now rewrite <- app_assoc.
    + exists []. split; [reflexivity | now rewrite app_nil_r].
Qed.

Lemma pop_to_paren_split (operators : list string) :
  forall output,
    exists popped,
      operators = popped ++ fst (pop_to_paren operators output)
      /\ snd (pop_to_paren operators output) = output ++ popped.
Proof.
  induction operators as [|top rest IH]; intros output; simpl.
  - exists []. split; [reflexivity | now rewrite app_nil_r].
  - destruct (top =? "(").
    + exists []. split; [reflexivity | now rewrite app_nil_r].
    + destruct (IH (output ++ [top])) as (popped & E1 & E2).
      exists (top :: popped). split; [simpl; congruence|].
      rewrite E2. now rewrite <- app_assoc.
Qed.

Lemma stack_key_not_operand (k : string) :
  stack_key k = true -> is_operand k = false.
Proof.
  unfold stack_key, is_operand. intros H.
  destruct (in_operator_info k); [reflexivity|]. simpl in H. now rewrite H.
Qed.

Lemma filter_operand_keys (l : list string) :
  forallb stack_key l = true -> filter is_operand l = [].
Proof.
  induction l as [|k l IH]; simpl; [reflexivity|]. intros H.
  apply andb_true_iff in H as [Hk Hl].
  now rewrite (stack_key_not_operand k Hk), IH.
Qed.

(** What one round does to the tokens held in the output and on the stack:
    operands go to the output, nothing but a parenthesis is dropped. *)
Lemma shunt_step_tokens (operators output : list string) (tok : string) :
  forallb stack_key operators = true ->
  filter is_operand (snd (shunt_step (operators, output) tok))
  = filter is_operand output ++ filter is_operand [tok]
  /\ Permutation
       (filter in_operator_info
          (snd (shunt_step (operators, output) tok)
           ++ fst (shunt_step (operators, output) tok)))
       (filter in_operator_info (output ++ operators)
        ++ filter in_operator_info [tok])
  /\ (forall k,
        In k (snd (shunt_step (operators, output) tok)
              ++ fst (shunt_step (operators, output) tok)) ->
        In k (output ++ operators) \/ (k = tok /\ (tok =? ")") = false))
  /\ (count_open (snd (shunt_step (operators, output) tok)
                  ++ fst (shunt_step (operators, output) tok))
      <= count_open (output ++ operators) + count_open [tok])%nat.
Proof.
  intros Hk. unfold shunt_step.
  destruct (in_operator_info tok) eqn:Eop.
  - destruct (pop_operators_split tok operators output) as (popped & E1 & E2).
    destruct (pop_operators tok operators output) as [ops1 out1].
    cbn [fst snd] in *. subst out1.
    assert (Kp : forallb stack_key popped = true).
    { rewrite E1, forallb_app in Hk. now apply andb_true_iff in Hk. }
    destruct (operator_not_paren tok Eop) as [Nl Nr].
    split; [|split; [|split]].
    + rewrite filter_app, (filter_operand_keys popped Kp), app_nil_r.
      unfold is_operand at 3. cbn [filter]. rewrite Eop. simpl.
      now rewrite app_nil_r.
    + rewrite E1. rewrite !filter_app. cbn [filter]. rewrite Eop.
      rewrite <- !app_assoc.
      apply Permutation_app_head, Permutation_app_head.
      apply Permutation_cons_append.
    + intros k Hin. rewrite E1.
      rewrite <- app_assoc in Hin.
      apply in_app_or in Hin as [Hin|Hin];
        [left; apply in_or_app; now left|].
      apply in_app_or in Hin as [Hin|[<-|Hin]].
      * left. apply in_or_app. right. apply in_or_app. now left.
      * now right.
      * left. apply in_or_app. right. apply in_or_app. now right.
    + rewrite E1. unfold count_open. rewrite !filter_app. cbn [filter].
      rewrite Nl. rewrite ?filter_app, ?length_app. simpl. lia.
  - destruct (String.eqb_spec tok "(") as [->|Nl].
    + cbn [fst snd]. split; [|split; [|split]].
      * simpl. now rewrite app_nil_r.
      * rewrite !filter_app. simpl. now rewrite app_nil_r.
      * intros k Hin. apply in_app_or in Hin as [Hin|[<-|Hin]].
        -- left. apply in_or_app. now left.
        -- now right.
        -- left. apply in_or_app. now right.
      * unfold count_open. rewrite !filter_app, !length_app. simpl. lia.
    + destruct (String.eqb_spec tok ")") as [->|Nr].
      * destruct (pop_to_paren_split operators output) as (popped & E1 & E2).
        destruct (pop_to_paren operators output) as [ops1 out1].
        cbn [fst snd] in *. subst out1.
        assert (Kp : forallb stack_key popped = true).
        { rewrite E1, forallb_app in Hk. now apply andb_true_iff in Hk. }
        assert (D : exists ops2 d,
                   (match ops1 with
                    | top :: rest =>
                        if top =? "(" then (rest, output ++ popped)
                        else (ops1, output ++ popped)
                    | [] => (ops1, output ++ popped)
                    end) = (ops2, output ++ popped)
                   /\ ops1 = d ++ ops2 /\ (d = [] \/ d = ["("])).
        { destruct ops1 as [|top rest]; [exists [], []; auto|].
          destruct (String.eqb_spec top "(") as [->|_].
          - exists rest, ["("]. auto.
          - exists (top :: rest), []. auto. }
        destruct D as (ops2 & d & -> & E3 & Hd). cbn [fst snd].
        assert (Fd : filter in_operator_info d = [])
          by (destruct Hd as [-> | ->]; reflexivity).
        split; [|split; [|split]].
        -- rewrite filter_app, (filter_operand_keys popped Kp).
           simpl. now rewrite !app_nil_r.
        -- rewrite E1, E3, !filter_app, Fd. simpl.
           now rewrite app_nil_r, <- !app_assoc.
        -- intros k Hin. left. rewrite E1, E3.
           rewrite <- app_assoc in Hin.
           apply in_app_or in Hin as [Hin|Hin];
             [apply in_or_app; now left|].
           apply in_or_app. right.
           apply in_app_or in Hin as [Hin|Hin];
             apply in_or_app; [now left | right].
           apply in_or_app. now right.
        -- rewrite E1, E3. unfold count_open.
           rewrite !filter_app, !length_app. lia.
      * cbn [fst snd].
        assert (Eo : is_operand tok = true).
        { unfold is_operand. rewrite Eop.
          apply String.eqb_neq in Nl, Nr. now rewrite Nl, Nr. }
        split; [|split; [|split]].
        -- rewrite filter_app. reflexivity.
        -- rewrite !filter_app. simpl. rewrite Eop. simpl.
           rewrite !app_nil_r. reflexivity.
        -- intros k Hin. rewrite <- app_assoc in Hin.
           apply in_app_or in Hin as [Hin|[<-|Hin]].
           ++ left. apply in_or_app. now left.
           ++ right. split; reflexivity.
           ++ left. apply in_or_app. now right.
        -- unfold count_open. rewrite !filter_app, !length_app. simpl.
           apply String.eqb_neq in Nl. rewrite Nl. simpl. lia.
Qed.

Lemma shunt_loop_tokens (tokens : list string) :
  forall operators output,
    forallb stack_key operators = true ->
    filter is_operand (snd (shunt_loop tokens (operators, output)))
    = filter is_operand output ++ filter is_operand tokens
    /\ Permutation
         (filter in_operator_info
            (snd (shunt_loop tokens (operators, output))
             ++ fst (shunt_loop tokens (operators, output))))
         (filter in_operator_info (output ++ operators)
          ++ filter in_operator_info tokens)
    /\ (forall k,
          In k (snd (shunt_loop tokens (operators, output))
                ++ fst (shunt_loop tokens (operators, output))) ->
          In k (output ++ operators) \/ (In k tokens /\ (k =? ")") = false))
    /\ (count_open (snd (shunt_loop tokens (operators, output))
                    ++ fst (shunt_loop tokens (operators, output)))
        <= count_open (output ++ operators) + count_open tokens)%nat.
Proof.
  induction tokens as [|tok tokens IH]; intros operators output Hk.
  - simpl. rewrite !app_nil_r. unfold count_open at 3. simpl.
    split; [reflexivity|]. split; [apply Permutation_refl|].
    split; [auto | lia].
  - cbn [shunt_loop fold_left].
    destruct (shunt_step_tokens operators output tok Hk) as (A & B & C & D).
    pose proof (shunt_step_keys (operators, output) tok Hk) as K.
    destruct (shunt_step (operators, output) tok) as [ops1 out1].
    cbn [fst snd] in *.
    destruct (IH ops1 out1 K) as (A' & B' & C' & D').
    unfold shunt_loop in *.
    split; [|split; [|split]].
    + rewrite A', A. rewrite <- app_assoc.
      change (tok :: tokens) with ([tok] ++ tokens).
      now rewrite (filter_app _ [tok] tokens).
    + eapply Permutation_trans; [exact B'|].
      change (tok :: tokens) with ([tok] ++ tokens).
      rewrite (filter_app _ [tok] tokens), app_assoc.
      now apply Permutation_app_tail.
    + intros k Hin. destruct (C' k Hin) as [H1|[H1 H2]].
      * destruct (C k H1) as [H3|[-> H3]]; [now left|].
        right. split; [now left | assumption].
      * right. split; [now right | assumption].
    + change (tok :: tokens) with ([tok] ++ tokens).
      unfold count_open in *. rewrite (filter_app _ [tok] tokens), length_app.
      lia.
Qed.

(** X4.  On every token sequence, valid or not, [shunt] neither loses nor
    invents a token other than a parenthesis: the operands come out in
    the order they went in, the operators come out as the same multiset,
    [")"] never comes out, and no ["("] comes out that did not go in. *)
Theorem shunt_keeps_operands_and_operators (tokens : list string) :
  filter is_operand (shunt tokens) = filter is_operand tokens
  /\ Permutation (filter in_operator_info (shunt tokens))
       (filter in_operator_info tokens)
  /\ ~ In ")" (shunt tokens)
  /\ (count_open (shunt tokens) <= count_open tokens)%nat.
Proof.
  destruct (shunt_loop_tokens tokens [] [] eq_refl) as (A & B & C & D).
  pose proof (shunt_loop_keys tokens ([], []) eq_refl) as K.
  unfold shunt. destruct (shunt_loop tokens ([], [])) as [ops out].
  cbn [fst snd] in *.
  split; [|split; [|split]].
  - rewrite filter_app, (filter_operand_keys ops K), app_nil_r. exact A.
  - exact B.
  - intros Hin. destruct (C _ Hin) as [[]|[_ H]]. discriminate H.
  - exact D.
Qed.

(* ================================================================= *)
(** ** The call on a valid expression *)

Lemma final_depth_postfix (t : expr) :
  forall rest depth,
    wf_expr t = true ->
    final_depth (postfix t ++ rest) depth = final_depth rest (S depth).
Proof.
  induction t as [s|l IHl op r IHr]; intros rest depth H; simpl in *.
  - now rewrite (operand_token_not_operator s H).
  - apply andb_true_iff in H as [H Hr]. apply andb_true_iff in H as [Hl Hop].
    rewrite <- !app_assoc, IHl, IHr by assumption. simpl. now rewrite Hop.
Qed.

Lemma postfix_not_paren (t : expr) :
  wf_expr t = true -> forallb not_paren (postfix t) = true.
Proof.
  induction t as [s|l IHl op r IHr]; intros H; simpl in *.
  - apply operand_token_is_operand, is_operand_spec in H.
    destruct H as (_ & E1 & E2). unfold not_paren. now rewrite E1, E2.
  - apply andb_true_iff in H as [H Hr]. apply andb_true_iff in H as [Hl Hop].
    rewrite !forallb_app, IHl, IHr by assumption. simpl.
    destruct (operator_not_paren op Hop) as [E1 E2].
    unfold not_paren. now rewrite E1, E2.
Qed.

Lemma answer_text (e : string) (t : expr) :
  parse (tokenize e) = Some t -> answer e = text t.
Proof. unfold answer. now intros ->. Qed.

(** X5.  On every valid expression the call returns: [shunt] gives a
    postfix sequence without parentheses that stands for one tree and
    that the stack machine evaluates without underflow down to one
    entry, and [restore] returns the text of that tree; no [IndexError],
    no endless loop. *)
Theorem valid_expression_returns (e : string) :
  valid_expression e ->
  exists t,
    tree_of_postfix (shunt (tokenize e)) = Some t
    /\ forallb not_paren (shunt (tokenize e)) = true
    /\ never_underflows (shunt (tokenize e)) 0 = true
    /\ final_depth (shunt (tokenize e)) 0 = 1
    /\ returns e (text t)
    /\ answer e = text t.
Proof.
  intros Hv. destruct (valid_expression_tree e Hv) as (t & P & W & S & R).
  exists t. rewrite S. split; [now apply tree_of_postfix_postfix|].
  split; [now apply postfix_not_paren|]. split; [|split; [|split]].
  - rewrite <- (app_nil_r (postfix t)), never_underflows_postfix by assumption.
    reflexivity.
  - rewrite <- (app_nil_r (postfix t)), final_depth_postfix by assumption.
    reflexivity.
  - exact R.
  - now apply answer_text.
Qed.

Lemma valid_expression_returns_witness :
  exists t,
    tree_of_postfix (shunt (tokenize "(a - b) * -c ^ 2")) = Some t
    /\ forallb not_paren (shunt (tokenize "(a - b) * -c ^ 2")) = true
    /\ never_underflows (shunt (tokenize "(a - b) * -c ^ 2")) 0 = true
    /\ final_depth (shunt (tokenize "(a - b) * -c ^ 2")) 0 = 1
    /\ returns "(a - b) * -c ^ 2" (text t)
    /\ answer "(a - b) * -c ^ 2" = text t.
Proof.
  apply (valid_expression_returns "(a - b) * -c ^ 2"). reflexivity.
Defined.

(* ================================================================= *)
(** ** The output against the input *)

Lemma reduce_op_inorder (tok : string) (fs : list frame) :
  forall cur,
    frames_inorder (fst (reduce_op tok fs cur))
    ++ inorder (snd (reduce_op tok fs cur))
    = frames_inorder fs ++ inorder cur.
Proof.
  induction fs as [|[l x|] fs IH]; intros cur; simpl; try reflexivity.
  destruct (satisfied x tok); [|reflexivity].
  rewrite IH. simpl. now rewrite <- !app_assoc.
Qed.

Lemma reduce_all_inorder (fs : list frame) :
  forall cur,
    frames_inorder (fst (reduce_all fs cur))
    ++ inorder (snd (reduce_all fs cur))
    = frames_inorder fs ++ inorder cur.
Proof.
  induction fs as [|[l x|] fs IH]; intros cur; simpl; try reflexivity.
  rewrite IH. simpl. now rewrite <- !app_assoc.
Qed.

Lemma fstep_inorder (st st' : mstate) (tok : string) :
  fstep st tok = Some st' ->
  state_inorder st' = state_inorder st ++ filter not_paren [tok].
Proof.
  intros H. destruct st as [fs|fs cur]; simpl in H.
  - destruct (tok =? "(") eqn:El.
    + apply String.eqb_eq in El. subst tok.
      injection H as <-. simpl. now rewrite app_nil_r.
    + destruct (is_operand tok) eqn:Eo; [|discriminate].
      injection H as <-. apply is_operand_spec in Eo as (_ & E1 & E2).
      cbn [filter]. unfold not_paren. now rewrite E1, E2.
  - destruct (tok =? ")") eqn:Er.
    + apply String.eqb_eq in Er. subst tok.
      pose proof (reduce_all_inorder fs cur) as R.
      destruct (reduce_all fs cur) as [[|[l x|] fs'] t]; try discriminate.
      injection H as <-. simpl in *. now rewrite app_nil_r.
    + destruct (in_operator_info tok) eqn:Eo; [|discriminate].
      pose proof (reduce_op_inorder tok fs cur) as R.
      destruct (reduce_op tok fs cur) as [fs' t]. injection H as <-.
      destruct (operator_not_paren tok Eo) as [E1 E2].
      cbn [filter]. unfold not_paren. rewrite E1, E2. simpl in *.
      now rewrite <- R, <- app_assoc.
Qed.

Lemma frun_inorder (tokens : list string) :
  forall st st',
    frun tokens st = Some st' ->
    state_inorder st' = state_inorder st ++ filter not_paren tokens.
Proof.
  induction tokens as [|tok tokens IH]; intros st st' H; simpl in H.
  - injection H as <-. simpl. now rewrite app_nil_r.
  - destruct (fstep st tok) as [st1|] eqn:E; [|discriminate].
    rewrite (IH _ _ H), (fstep_inorder _ _ _ E), <- app_assoc.
    change (tok :: tokens) with ([tok] ++ tokens).
    now rewrite (filter_app _ [tok] tokens).
Qed.

(** The tree [shunt] builds reads, in order, as the tokens without the
    parentheses. *)
Lemma parse_inorder (tokens : list string) (t : expr) :
  parse tokens = Some t -> inorder t = filter not_paren tokens.
Proof.
  unfold parse. intros H.
  destruct (frun tokens (Expect [])) as [[fs|fs cur]|] eqn:E; try discriminate.
  apply frun_inorder in E. simpl in E.
  pose proof (reduce_all_inorder fs cur) as R.
  destruct (reduce_all fs cur) as [[|f fs'] t']; try discriminate.
  injection H as <-. simpl in R. congruence.
Qed.

Lemma filter_not_paren_wrap (b : bool) (tokens : list string) :
  filter not_paren (wrap b tokens) = filter not_paren tokens.
Proof.
  destruct b; [|reflexivity]. unfold wrap. cbn [filter].
  change (not_paren "(") with false. cbv iota.
  rewrite filter_app. cbn [filter]. change (not_paren ")") with false.
  cbv iota. apply app_nil_r.
Qed.

Lemma tokens_of_inorder (t : expr) :
  wf_expr t = true -> filter not_paren (tokens_of t) = inorder t.
Proof.
  induction t as [s|l IHl op r IHr]; intros H; simpl in H.
  - apply operand_token_is_operand, is_operand_spec in H.
    destruct H as (_ & E1 & E2). cbn [tokens_of filter inorder].
    unfold not_paren. now rewrite E1, E2.
  - apply andb_true_iff in H as [H Hr]. apply andb_true_iff in H as [Hl Hop].
    destruct (operator_not_paren op Hop) as [E1 E2].
    cbn [tokens_of inorder]. rewrite filter_app. cbn [filter].
    rewrite !filter_not_paren_wrap, IHl, IHr by assumption.
    unfold not_paren. now rewrite E1, E2.
Qed.

(** X6.  The output of a valid expression is again a valid expression,
    and without the parentheses it has the tokens of the input, in the
    same order: no operand or operator is dropped, added or moved. *)
Theorem output_keeps_operands_and_operators (e out : string) :
  valid_expression e ->
  returns e out ->
  valid_expression out
  /\ filter not_paren (tokenize out) = filter not_paren (tokenize e).
Proof.
  intros Hv Hr.
  destruct (valid_expression_tree e Hv) as (t & P & W & _ & R).
  pose proof (returns_functional e out (text t) Hr R) as ->.
  split; [now apply valid_expression_text|].
  rewrite tokenize_text, tokens_of_inorder by assumption.
  now apply parse_inorder.
Qed.

Lemma output_keeps_operands_and_operators_witness :
  valid_expression "2*3/(2*2)"
  /\ filter not_paren (tokenize "2*3/(2*2)")
     = filter not_paren (tokenize "((2*3)/(2*2))").
Proof.
  apply (output_keeps_operands_and_operators "((2*3)/(2*2))" "2*3/(2*2)").
  - reflexivity.
  - exists 20. reflexivity.
Defined.

Lemma count_open_cons (tok : string) (tokens : list string) :
  count_open (tok :: tokens) = bit (tok =? "(") + count_open tokens.
Proof. unfold count_open. simpl. now destruct (tok =? "("). Qed.

Lemma count_open_app (a b : list string) :
  count_open (a ++ b) = count_open a + count_open b.
Proof. unfold count_open. now rewrite filter_app, length_app. Qed.

(** In a valid sequence the parentheses are matched. *)
Lemma valid_from_matched (tokens : list string) :
  forall expect depth,
    valid_from expect depth tokens = true ->
    depth + count_open tokens = count_close tokens.
Proof.
  induction tokens as [|tok tokens IH]; intros expect depth H.
  - simpl in H. unfold count_open, count_close. simpl.
    destruct expect; [discriminate|]. apply Nat.eqb_eq in H. lia.
  - rewrite count_open_cons, count_close_cons. simpl in H.
    destruct expect.
    + destruct (tok =? "(") eqn:El.
      * apply String.eqb_eq in El. subst tok. apply IH in H. simpl. lia.
      * destruct (is_operand tok) eqn:Eo; [|discriminate].
        apply is_operand_spec in Eo as (_ & _ & E2). rewrite E2.
        apply IH in H. simpl. lia.
    + destruct (tok =? ")") eqn:Er.
      * apply String.eqb_eq in Er. subst tok.
        destruct depth as [|d]; [discriminate|]. apply IH in H.
        simpl. lia.
      * destruct (in_operator_info tok) eqn:Eo; [|discriminate].
        destruct (operator_not_paren tok Eo) as [E1 _]. rewrite E1.
        apply IH in H. simpl. lia.
Qed.

Lemma length_join (tokens : list string) :
  String.length (join tokens) = total_length tokens.
Proof.
  induction tokens as [|tok tokens IH]; [reflexivity|].
  simpl. now rewrite length_append, IH.
Qed.

Lemma length_string_of_list_ascii (l : list ascii) :
  String.length (string_of_list_ascii l) = length l.
Proof. induction l; simpl; congruence. Qed.

Lemma total_length_parens (tokens : list string) :
  total_length tokens
  = total_length (filter not_paren tokens)
    + count_open tokens + count_close tokens.
Proof.
  induction tokens as [|tok tokens IH]; [reflexivity|].
  rewrite count_open_cons, count_close_cons. cbn [total_length filter].
  unfold not_paren at 1.
  destruct (tok =? "(") eqn:El.
  { apply String.eqb_eq in El. subst tok. simpl in *. lia. }
  destruct (tok =? ")") eqn:Er.
  { apply String.eqb_eq in Er. subst tok. simpl in *. lia. }
  simpl in *. lia.
Qed.

(** X7.  The output of a valid expression has at most as many
    parenthesis pairs as the input, and is at most as long as the input
    without its white space: the call never adds a parenthesis. *)
Theorem output_never_adds_parentheses (e out : string) :
  valid_expression e ->
  returns e out ->
  (count_open (tokenize out) <= count_open (tokenize e))%nat
  /\ (count_close (tokenize out) <= count_close (tokenize e))%nat
  /\ (String.length out <= length (cleaned e))%nat.
Proof.
  intros Hv Hr.
  destruct (valid_expression_tree e Hv) as (t & P & W & _ & R).
  pose proof (returns_functional e out (text t) Hr R) as ->.
  rewrite tokenize_text by assumption.
  pose proof (valid_from_matched _ _ _ (valid_tokens_of t W)) as Mo.
  pose proof (valid_from_matched _ _ _ Hv) as Mi.
  pose proof (parse_groupings _ _ P) as G.
  pose proof (wraps_le_groupings t W) as Wg.
  pose proof (count_close_tokens_of t W) as Ct.
  simpl in Mo, Mi.
  split; [lia|]. split; [lia|].
  rewrite <- join_tokens_of, length_join, total_length_parens.
  rewrite tokens_of_inorder, (parse_inorder _ _ P) by assumption.
  assert (L : length (cleaned e) = total_length (tokenize e)).
  { rewrite <- length_join. unfold tokenize.
    rewrite join_tokenize_loop. simpl.
    now rewrite length_string_of_list_ascii. }
  rewrite L, (total_length_parens (tokenize e)). lia.
Qed.

Lemma output_never_adds_parentheses_witness :
  (count_open (tokenize "1*(2+3*4)+5") <= count_open (tokenize "1*(2+(3*(4)))+ (5)"))%nat
  /\ (count_close (tokenize "1*(2+3*4)+5")
      <= count_close (tokenize "1*(2+(3*(4)))+ (5)"))%nat
  /\ (String.length "1*(2+3*4)+5" <= length (cleaned "1*(2+(3*(4)))+ (5)"))%nat.
Proof.
  apply (output_never_adds_parentheses "1*(2+(3*(4)))+ (5)" "1*(2+3*4)+5").
  - reflexivity.
  - exists 40. reflexivity.
Defined.

(* ================================================================= *)
(** ** How long the loop of restore runs *)

Lemma restore_loop_done (fuel idx : nat) (lst : list entry) :
  (length lst <= idx)%nat -> restore_loop fuel idx lst = Some lst.
Proof.
  intros H. apply Nat.ltb_ge in H. destruct fuel; simpl; now rewrite H.
Qed.

Lemma restore_loop_no_fuel (idx : nat) (lst : list entry) :
  (idx < length lst)%nat -> restore_loop 0 idx lst = None.
Proof. intros H. apply Nat.ltb_lt in H. simpl. now rewrite H. Qed.

(** When the loop ends at all, it ends within [2 * len - idx] rounds: a
    round that moves on uses up one of them, a collapse two. *)
Lemma restore_loop_bound (fuel : nat) :
  forall idx lst r,
    (idx <= length lst)%nat ->
    restore_loop fuel idx lst = Some r ->
    restore_loop (2 * length lst - idx) idx lst = Some r.
Proof.
  induction fuel as [|fuel IH]; intros idx lst r Hle H.
  - destruct (Nat.ltb_spec idx (length lst)) as [Hlt|Hge].
    + now rewrite restore_loop_no_fuel in H.
    + rewrite restore_loop_done in H |- * by assumption. exact H.
  - destruct (Nat.ltb_spec idx (length lst)) as [Hlt|Hge];
      [|rewrite restore_loop_done in H |- * by assumption; exact H].
    destruct (in_operator_info (fst (nth idx lst dummy))) eqn:Eop.
    + destruct (Nat.leb_spec 2 idx) as [H2|H2].
      * destruct (restore_body_shrinks idx lst Hlt H2 Eop) as [Ei El].
        destruct (restore_body idx lst) as [idx' lst'] eqn:Eb.
        cbn [fst snd] in Ei, El. subst idx'.
        rewrite (restore_loop_step fuel idx lst _ _ Hlt Eb) in H.
        apply IH in H; [|lia].
        replace (2 * length lst - idx)
          with (S (2 * length lst' - (idx - 2) + 1)) by lia.
        rewrite (restore_loop_step _ idx lst _ _ Hlt Eb).
        now apply restore_loop_more.
      * now rewrite (restore_loop_stuck idx lst Hlt
                       (restore_body_stray idx lst H2 Eop)) in H.
    + assert (Eb : restore_body idx lst = (idx + 1, lst))
        by (unfold restore_body; now rewrite Eop).
      rewrite (restore_loop_step fuel idx lst _ _ Hlt Eb) in H.
      apply IH in H; [|lia].
      replace (2 * length lst - idx)
        with (S (2 * length lst - (idx + 1))) by lia.
      now rewrite (restore_loop_step _ idx lst _ _ Hlt Eb).
Qed.

Lemma length_initial_list (p : list string) :
  length (initial_list p) = length p.
Proof. apply length_map. Qed.

(** X8.  The loop of [restore] either never ends or ends within
    [2 * len(postfix_list)] rounds, on any list: more rounds than that
    never change what the call does. *)
Theorem restore_round_bound (p : list string) (fuel : nat) :
  (2 * length p <= fuel)%nat ->
  restore fuel p = restore (2 * length p) p
  /\ (restore (2 * length p) p = OutOfFuel -> diverges p).
Proof.
  intros Hf.
  assert (B : forall f r,
             restore_loop f 0 (initial_list p) = Some r ->
             restore_loop (2 * length p) 0 (initial_list p) = Some r).
  { intros f r H. apply restore_loop_bound in H; [|lia].
    now rewrite length_initial_list, Nat.sub_0_r in H. }
  split.
  - unfold restore.
    destruct (restore_loop (2 * length p) 0 (initial_list p)) as [r|] eqn:E.
    + apply (restore_loop_more _ (fuel - 2 * length p)) in E.
      replace (2 * length p + (fuel - 2 * length p)) with fuel in E by lia.
      now rewrite E.
    + destruct (restore_loop fuel 0 (initial_list p)) as [r|] eqn:E';
        [|reflexivity].
      apply B in E'. congruence.
  - unfold diverges, restore. intros H f.
    destruct (restore_loop f 0 (initial_list p)) as [r|] eqn:E';
      [|reflexivity].
    apply B in E'. rewrite E' in H. exact H.
Qed.

Lemma restore_round_bound_witness :
  restore 9 ["1"; "2"; "+"] = restore (2 * length ["1"; "2"; "+"]) ["1"; "2"; "+"]
  /\ (restore (2 * length ["1"; "2"; "+"]) ["1"; "2"; "+"] = OutOfFuel ->
      diverges ["1"; "2"; "+"]).
Proof.
  apply (restore_round_bound ["1"; "2"; "+"] 9). simpl. lia.
Defined.

(* ================================================================= *)
(** ** What a call does, on any input *)

(** When the stack machine underflows, the loop comes to an operator with
    fewer than two entries before it and stays there. *)
Lemma restore_loop_underflow (p : list string) :
  forall stack,
    Forall operand_entry stack ->
    Forall nonempty p ->
    never_underflows p (length stack) = false ->
    forall fuel,
      restore_loop fuel (length stack) (rev stack ++ initial_list p) = None.
Proof.
  induction p as [|tok p IH]; intros stack Hst Hne Hu fuel;
    [discriminate|].
  apply Forall_cons_iff in Hne as [Htok Hne]. simpl in Hu.
  assert (Hlt : (length stack
                 < length (rev stack ++ initial_list (tok :: p)))%nat)
    by (rewrite length_app, length_rev; simpl; lia).
  destruct (in_operator_info tok) eqn:Eop.
  - destruct (Nat.leb_spec 2 (length stack)) as [H2|H2].
    + simpl in Hu.
      destruct stack as [|r [|l s]]; simpl in H2; try lia.
      apply Forall_cons_iff in Hst as [Hr Hst].
      apply Forall_cons_iff in Hst as [Hl Hst].
      pose proof (new_entry_operand tok l r Eop Hl) as Hnew.
      specialize (IH (new_entry (tok, "") l r :: s)).
      simpl in IH, Hu. rewrite ?Nat.sub_0_r in Hu.
      assert (Hs : forall f,
                 restore_loop f (S (length s))
                   (rev s ++ new_entry (tok, "") l r :: initial_list p)
                 = None).
      { intros f. specialize (IH (Forall_cons _ Hnew Hst) Hne Hu f).
        now rewrite <- app_assoc in IH. }
      destruct fuel as [|fuel]; [now apply restore_loop_no_fuel|].
      cbn [rev length] in *. rewrite <- !app_assoc in *. cbn [app] in *.
      rewrite <- (length_rev s) in *.
      erewrite restore_loop_step;
        [ | exact Hlt | now apply restore_body_collapse ].
      destruct fuel as [|fuel];
        [apply restore_loop_no_fuel; rewrite length_app; simpl; lia|].
      erewrite restore_loop_step;
        [ | rewrite !length_app; simpl; lia
          | apply restore_body_skip, Hnew ].
      apply Hs.
    + apply restore_loop_stuck; [exact Hlt|].
      apply restore_body_stray; [exact H2|].
      rewrite <- (length_rev stack). simpl.
      now rewrite nth_length_app.
  - specialize (IH ((tok, "") :: stack)). simpl in IH.
    destruct fuel as [|fuel]; [now apply restore_loop_no_fuel|].
    rewrite <- (length_rev stack) in *.
    erewrite restore_loop_step;
      [ | exact Hlt | apply restore_body_skip; exact Eop ].
    rewrite <- app_assoc in IH. cbn [app] in IH.
    rewrite length_rev in *. apply IH; try assumption.
    constructor; [|assumption]. split; assumption.
Qed.

Lemma token_ok_nonempty (tok : string) : token_ok tok = true -> nonempty tok.
Proof. intros H ->. discriminate H. Qed.

(** The postfix sequence of any input holds no empty string. *)
Lemma shunt_tokenize_nonempty (e : string) :
  Forall nonempty (shunt (tokenize e)).
Proof.
  destruct (shunt_loop_tokens (tokenize e) [] [] eq_refl) as (_ & _ & C & _).
  unfold shunt. destruct (shunt_loop (tokenize e) ([], [])) as [ops out].
  cbn [fst snd] in C. apply Forall_forall. intros k Hin.
  destruct (C k Hin) as [[]|[Hk _]].
  pose proof (tokenize_ok e) as Hok.
  rewrite forallb_forall in Hok. apply token_ok_nonempty. now apply Hok.
Qed.

Lemma remove_index_error (input_expr : string) :
  shunt (tokenize input_expr) = [] ->
  forall fuel, remove_unnecessary_parentheses fuel input_expr = IndexError.
Proof.
  intros E fuel. unfold remove_unnecessary_parentheses, restore. rewrite E.
  now rewrite restore_loop_done by (simpl; lia).
Qed.

Lemma remove_diverges (input_expr : string) :
  never_underflows (shunt (tokenize input_expr)) 0 = false ->
  forall fuel, remove_unnecessary_parentheses fuel input_expr = OutOfFuel.
Proof.
  intros Eu fuel. unfold remove_unnecessary_parentheses, restore.
  pose proof (restore_loop_underflow _ [] (Forall_nil _)
                (shunt_tokenize_nonempty input_expr) Eu fuel) as U.
  simpl in U. now rewrite U.
Qed.

(** X9.  What a call does on any input string, read off its postfix
    sequence: [IndexError] when the sequence is empty, an endless loop
    when the two-operand stack machine underflows on it, and a returned
    string in every other case. *)
Theorem call_outcome (input_expr : string) :
  (shunt (tokenize input_expr) = []
   /\ forall fuel,
        remove_unnecessary_parentheses fuel input_expr = IndexError)
  \/ (shunt (tokenize input_expr) <> []
      /\ never_underflows (shunt (tokenize input_expr)) 0 = true
      /\ exists s, returns input_expr s)
  \/ (never_underflows (shunt (tokenize input_expr)) 0 = false
      /\ forall fuel,
           remove_unnecessary_parentheses fuel input_expr = OutOfFuel).
Proof.
  pose proof (shunt_tokenize_nonempty input_expr) as Hne.
  destruct (shunt (tokenize input_expr)) as [|tok p] eqn:Ep.
  - left. split; [reflexivity|]. now apply remove_index_error.
  - right. rewrite <- Ep in *.
    destruct (never_underflows (shunt (tokenize input_expr)) 0) eqn:Eu.
    + left. split; [rewrite Ep; discriminate|]. split; [reflexivity|].
      destruct (restore_loop_simulates _ [] (Forall_nil _) Hne Eu)
        as (fuel & stack' & _ & R & D & _).
      simpl in R, D.
      assert (P : (1 <= length stack')%nat).
      { rewrite D, Ep. simpl.
        rewrite Ep in Eu. simpl in Eu.
        destruct (in_operator_info tok); [discriminate|].
        apply final_depth_positive; [assumption | lia]. }
      rewrite <- length_rev in P.
      exists (fst (hd dummy (rev stack'))), fuel.
      unfold remove_unnecessary_parentheses, restore. rewrite R.
      destruct (rev stack'); [simpl in P; lia | reflexivity].
    + right. split; [reflexivity|]. now apply remove_diverges.
Qed.

(* ================================================================= *)
(** ** run_test and the main block *)

Lemma remove_more (fuel fuel' : nat) (input_expr s : string) :
  remove_unnecessary_parentheses fuel input_expr = Returned s ->
  (fuel <= fuel')%nat ->
  remove_unnecessary_parentheses fuel' input_expr = Returned s.
Proof.
  unfold remove_unnecessary_parentheses, restore. intros H Hle.
  destruct (restore_loop fuel 0 _) as [r|] eqn:E; [|discriminate].
  apply (restore_loop_more fuel (fuel' - fuel)) in E.
  replace (fuel + (fuel' - fuel)) with fuel' in E by lia.
  now rewrite E.
Qed.

Lemma assert_equal_more (fuel fuel' : nat) (input expected : string) :
  assert_equal fuel input expected = Completed ->
  (fuel <= fuel')%nat ->
  assert_equal fuel' input expected = Completed.
Proof.
  unfold assert_equal. intros H Hle.
  destruct (remove_unnecessary_parentheses fuel input) as [s| |] eqn:E;
    try discriminate.
  now rewrite (remove_more fuel fuel' input s E Hle).
Qed.

Lemma run_asserts_more (fuel fuel' : nat) (cases : list (string * string)) :
  run_asserts fuel cases = Completed ->
  (fuel <= fuel')%nat ->
  run_asserts fuel' cases = Completed.
Proof.
  intros H Hle. induction cases as [|[input expected] cases IH];
    [reflexivity|].
  simpl in H |- *.
  destruct (assert_equal fuel input expected) eqn:E; try discriminate.
  rewrite (assert_equal_more fuel fuel' input expected E Hle). now apply IH.
Qed.

(** Every assertion of [run_test] holds: the function returns. *)
Lemma run_test_completes (fuel : nat) :
  (40 <= fuel)%nat -> run_test fuel = Completed.
Proof.
  intros H. apply (run_asserts_more 40 fuel); [vm_compute; reflexivity | exact H].
Qed.

Lemma main_quit (fuel : nat) (rest stdout : list string) :
  main fuel ("quit" :: rest) stdout = Exited (stdout ++ ["Input:"]).
Proof. reflexivity. Qed.

Lemma main_run_test (fuel : nat) (rest stdout : list string) :
  main fuel ("run_test" :: rest) stdout
  = match run_test fuel with
    | Completed => main fuel rest ((stdout ++ ["Input:"]) ++ ["All test pass"])
    | Raised e => Crashed e (stdout ++ ["Input:"])
    | Looping => Hangs (stdout ++ ["Input:"])
    end.
Proof. reflexivity. Qed.

Lemma main_expression (fuel : nat) (user_input : string)
    (rest stdout : list string) :
  user_input <> "quit" ->
  user_input <> "run_test" ->
  main fuel (user_input :: rest) stdout
  = match remove_unnecessary_parentheses fuel user_input with
    | Returned s =>
        main fuel rest ((stdout ++ ["Input:"]) ++ [("Output: " ++ s)%string])
    | IndexError => Crashed IndexError_ (stdout ++ ["Input:"])
    | OutOfFuel => Hangs (stdout ++ ["Input:"])
    end.
Proof.
  intros Hq Hr. apply String.eqb_neq in Hq, Hr.
  cbn [main]. now rewrite Hq, Hr.
Qed.

(** The loop answers the lines one by one, appending to what is written. *)
Lemma main_answers (lines written : list string) :
  Forall2 replies lines written ->
  exists fuel0,
    forall fuel rest stdout,
      (fuel0 <= fuel)%nat ->
      main fuel (lines ++ rest) stdout
      = main fuel rest (stdout ++ transcript written).
Proof.
  induction 1 as [|l w lines written Hl _ IH].
  - exists 0. intros fuel rest stdout _. simpl. now rewrite app_nil_r.
  - destruct IH as [f1 IH].
    destruct Hl as [Hq [[-> ->]|[Hr (s & [f0 Hs] & ->)]]].
    + exists (Nat.max 40 f1). intros fuel rest stdout Hf.
      cbn [app]. rewrite main_run_test, run_test_completes by lia.
      rewrite IH by lia. unfold transcript. cbn [flat_map].
      now rewrite <- !app_assoc.
    + exists (Nat.max f0 f1). intros fuel rest stdout Hf.
      cbn [app]. rewrite main_expression by assumption.
      rewrite (remove_more f0 fuel l s Hs) by lia.
      rewrite IH by lia. unfold transcript. cbn [flat_map].
      now rewrite <- !app_assoc.
Qed.

(** X10.  A session of the main block: while every line is either
    [run_test] or an expression on which the call returns, the loop
    writes the prompt and the answer for each, in order; it exits at the
    first ["quit"] without reading what follows, and dies with
    [EOFError] after the last prompt when the input ends before. *)
Theorem main_session (lines written : list string) :
  Forall2 replies lines written ->
  exists fuel0,
    forall fuel,
      (fuel0 <= fuel)%nat ->
      (forall rest,
          main fuel (lines ++ "quit" :: rest) []
          = Exited (transcript written ++ ["Input:"]))
      /\ main fuel lines []
         = Crashed EOFError_ (transcript written ++ ["Input:"]).
Proof.
  intros H. destruct (main_answers lines written H) as [f0 A].
  exists f0. intros fuel Hf. split.
  - intros rest. rewrite (A fuel _ [] Hf). now rewrite main_quit.
  - rewrite <- (app_nil_r lines) at 1. rewrite (A fuel [] [] Hf).
    reflexivity.
Qed.

Lemma main_session_witness :
  exists fuel0,
    forall fuel,
      (fuel0 <= fuel)%nat ->
      (forall rest,
          main fuel (["((a))*(b+c)"; "run_test"] ++ "quit" :: rest) []
          = Exited (transcript ["Output: a*(b+c)"; "All test pass"]
                    ++ ["Input:"]))
      /\ main fuel ["((a))*(b+c)"; "run_test"] []
         = Crashed EOFError_
             (transcript ["Output: a*(b+c)"; "All test pass"] ++ ["Input:"]).
Proof.
  apply (main_session ["((a))*(b+c)"; "run_test"]
           ["Output: a*(b+c)"; "All test pass"]).
  constructor; [|constructor; [|constructor]].
  - split; [discriminate|]. right. split; [discriminate|].
    exists "a*(b+c)". split; [exists 20; reflexivity | reflexivity].
  - split; [discriminate|]. left. split; reflexivity.
Defined.

(** X11.  How a session breaks off: after lines that are answered, a
    line with an empty postfix sequence (a blank line, ["()"]) ends the
    program with [IndexError], and a line on which the stack machine
    underflows (["1+"], ["*"]) makes it hang; in both cases the prompt is
    the last thing written and the lines after it are never read. *)
Theorem main_session_breaks (lines written : list string) (bad : string) :
  Forall2 replies lines written ->
  (shunt (tokenize bad) = [] ->
   exists fuel0,
     forall fuel rest,
       (fuel0 <= fuel)%nat ->
       main fuel (lines ++ bad :: rest) []
       = Crashed IndexError_ (transcript written ++ ["Input:"]))
  /\ (never_underflows (shunt (tokenize bad)) 0 = false ->
      exists fuel0,
        forall fuel rest,
          (fuel0 <= fuel)%nat ->
          main fuel (lines ++ bad :: rest) []
          = Hangs (transcript written ++ ["Input:"])).
Proof.
  intros H. destruct (main_answers lines written H) as [f0 A].
  assert (Q : forall p, shunt (tokenize bad) = p ->
                        p = [] \/ never_underflows p 0 = false ->
                        bad <> "quit" /\ bad <> "run_test").
  { intros p Ep Hp. split; intros ->; vm_compute in Ep; subst p;
      destruct Hp as [Hp|Hp]; discriminate Hp. }
  split; intros Hb; exists f0; intros fuel rest Hf;
    rewrite (A fuel _ [] Hf); cbn [app].
  - destruct (Q _ eq_refl (or_introl Hb)) as [Hq Hr].
    rewrite main_expression by assumption.
    now rewrite (remove_index_error bad Hb fuel).
  - destruct (Q _ eq_refl (or_intror Hb)) as [Hq Hr].
    rewrite main_expression by assumption.
    now rewrite (remove_diverges bad Hb fuel).
Qed.

Lemma main_session_breaks_witness :
  (exists fuel0,
     forall fuel rest,
       (fuel0 <= fuel)%nat ->
       main fuel (["(1)"] ++ " " :: rest) []
       = Crashed IndexError_ (transcript ["Output: 1"] ++ ["Input:"]))
  /\ (exists fuel0,
        forall fuel rest,
          (fuel0 <= fuel)%nat ->
          main fuel (["(1)"] ++ "1+" :: rest) []
          = Hangs (transcript ["Output: 1"] ++ ["Input:"])).
Proof.
  assert (R : Forall2 replies ["(1)"] ["Output: 1"]).
  { constructor; [|constructor].
    split; [discriminate|]. right. split; [discriminate|].
    exists "1". split; [exists 20; reflexivity | reflexivity]. }
  split.
  - apply (proj1 (main_session_breaks ["(1)"] ["Output: 1"] " " R)).
    reflexivity.
  - apply (proj2 (main_session_breaks ["(1)"] ["Output: 1"] "1+" R)).
    reflexivity.
Defined.

(** X12.  The program ends normally only through ["quit"]: a session
    that exits has read that line, and has written a prompt last. *)
Theorem main_exits_on_quit (fuel : nat) (stdin : list string) :
  forall stdout written,
    main fuel stdin stdout = Exited written ->
    In "quit" stdin /\ exists before, written = before ++ ["Input:"].
Proof.
  induction stdin as [|l stdin IH]; intros stdout written H;
    [discriminate|].
  destruct (String.eqb_spec l "quit") as [->|Hq].
  - rewrite main_quit in H. injection H as <-.
    split; [now left | now exists stdout].
  - assert (K : exists stdout', main fuel stdin stdout' = Exited written).
    { destruct (String.eqb_spec l "run_test") as [->|Hr].
      - rewrite main_run_test in H.
        destruct (run_test fuel); try discriminate. eauto.
      - rewrite main_expression in H by assumption.
        destruct (remove_unnecessary_parentheses fuel l);
          try discriminate. eauto. }
    destruct K as [stdout' K]. apply IH in K as [Hin Hw].
    split; [now right | exact Hw].
Qed.

Lemma main_exits_on_quit_witness :
  In "quit" ["1+(2)"; "quit"; "3"]
  /\ exists before, ["Input:"; "Output: 1+2"; "Input:"] = before ++ ["Input:"].
Proof.
  apply (main_exits_on_quit 20 ["1+(2)"; "quit"; "3"] []). reflexivity.
Defined.

(* ================================================================= *)
(** ** The output is a fixed point *)

(** A tree built by a pop is written without parentheses where the machine
    puts it. *)
Lemma wraps_left_built (x o : string) (l cur : expr) :
  in_operator_info x = true ->
  satisfied x o = true ->
  wraps_left o (Node l x cur) = false.
Proof.
  intros Hx S. pose proof (satisfied_prec x o Hx S) as P.
  unfold wraps_left. cbn [pivot].
  destruct (Nat.ltb_spec (prec x) (prec o)); [lia|]. apply andb_false_r.
Qed.

Lemma wraps_right_built (y x : string) (l cur : expr) :
  in_operator_info y = true ->
  satisfied y x = false ->
  wraps_right y (Node l x cur) = false.
Proof.
  intros Hy S. rewrite (satisfied_spec y x Hy) in S.
  apply orb_false_iff in S as [S1 S2].
  unfold wraps_right. cbn [pivot]. rewrite S1. cbn [orb].
  destruct (Nat.eqb_spec (prec y) (prec x)) as [E|N];
    [|cbn [andb]; apply andb_false_r].
  cbn [andb] in S2 |- *. apply Nat.ltb_ge in S2.
  destruct (operator_kind y Hy) as [(_ & _ & K)|[(_ & _ & K)|(K & _)]];
    [lia | lia | rewrite K; apply andb_false_r].
Qed.

Lemma reduce_op_tokens (o : string) (fs : list frame) :
  forall cur C,
    stacked fs ->
    forallb frame_ok fs = true ->
    (forall l x fs0, fs = FOp l x :: fs0 -> satisfied x o = true ->
                     wrap (wraps_right x cur) (tokens_of cur) = C) ->
    ((forall l x fs0, fs = FOp l x :: fs0 -> satisfied x o = false) ->
     wrap (wraps_left o cur) (tokens_of cur) = C) ->
    frames_tokens (fst (reduce_op o fs cur))
    ++ wrap (wraps_left o (snd (reduce_op o fs cur)))
         (tokens_of (snd (reduce_op o fs cur)))
    = frames_tokens fs ++ C.
Proof.
  induction fs as [|[l x|] fs IH]; intros cur C St Hok H1 H2.
  - simpl. f_equal. apply H2. discriminate.
  - cbn [forallb frame_ok] in Hok. apply andb_true_iff in Hok as [Hx Hok].
    cbn [reduce_op]. destruct (satisfied x o) eqn:S.
    + rewrite (IH (Node l x cur) (tokens_of (Node l x cur))).
      * cbn [frames_tokens tokens_of].
        rewrite <- (H1 l x fs eq_refl S), <- !app_assoc. reflexivity.
      * now apply stacked_tail in St.
      * exact Hok.
      * intros l' x' fs0 -> S'. cbn [forallb frame_ok] in Hok.
        apply andb_true_iff in Hok as [Hx' _].
        destruct St as [S1 _].
        now rewrite (wraps_right_built x' x l cur Hx' S1).
      * intros _. now rewrite (wraps_left_built x o l cur Hx S).
    + cbn [fst snd]. f_equal. apply H2.
      intros l' x' fs0 E. injection E as <- <- <-. exact S.
  - simpl. f_equal. apply H2. discriminate.
Qed.

Lemma reduce_all_tokens (fs : list frame) :
  forall cur C,
    stacked fs ->
    forallb frame_ok fs = true ->
    open_parens fs = 0 ->
    (forall l x fs0, fs = FOp l x :: fs0 ->
                     wrap (wraps_right x cur) (tokens_of cur) = C) ->
    (fs = [] -> tokens_of cur = C) ->
    tokens_of (snd (reduce_all fs cur)) = frames_tokens fs ++ C.
Proof.
  induction fs as [|[l x|] fs IH]; intros cur C St Hok Hp H1 H2.
  - simpl. now apply H2.
  - cbn [forallb frame_ok] in Hok. apply andb_true_iff in Hok as [Hx Hok].
    cbn [reduce_all].
    rewrite (IH (Node l x cur) (tokens_of (Node l x cur))).
    + cbn [frames_tokens tokens_of].
      rewrite <- (H1 l x fs eq_refl), <- !app_assoc. reflexivity.
    + now apply stacked_tail in St.
    + exact Hok.
    + exact Hp.
    + intros l' x' fs0 ->. cbn [forallb frame_ok] in Hok.
      apply andb_true_iff in Hok as [Hx' _].
      destruct St as [S1 _].
      now rewrite (wraps_right_built x' x l cur Hx' S1).
    + reflexivity.
  - discriminate Hp.
Qed.

Lemma atom_tokens_leaf (a : expr) :
  (pivot a =? "") = true -> atom_tokens a = tokens_of a.
Proof. unfold atom_tokens. now intros ->. Qed.

Lemma wraps_left_leaf (o : string) (a : expr) :
  (pivot a =? "") = true -> wraps_left o a = false.
Proof. unfold wraps_left. now intros ->. Qed.

Lemma wraps_right_leaf (o : string) (a : expr) :
  (pivot a =? "") = true -> wraps_right o a = false.
Proof. unfold wraps_right. now intros ->. Qed.

(** Closing a chain in which every parenthesised operand is needed gives a
    tree whose text is the text of the chain. *)
Lemma feed_all_tokens (items : list (string * expr)) :
  forall fs cur,
    stacked fs ->
    forallb frame_ok fs = true ->
    open_parens fs = 0 ->
    forallb item_wf items = true ->
    needed_all (top_op fs) cur items None = true ->
    tokens_of (close (feed_all items (fs, cur)))
    = frames_tokens fs ++ atom_tokens cur ++ items_tokens items.
Proof.
  unfold feed_all.
  induction items as [|[o a] items IH]; intros fs cur St Hok Hp Hit N.
  - cbn [fold_left items_tokens needed_all] in *. unfold close.
    cbn [fst snd]. rewrite app_nil_r.
    destruct (pivot cur =? "") eqn:Pn.
    + apply reduce_all_tokens; try assumption.
      * intros l x fs0 _.
        now rewrite (wraps_right_leaf x cur Pn), (atom_tokens_leaf cur Pn).
      * intros _. now rewrite (atom_tokens_leaf cur Pn).
    + unfold needed in N. rewrite Pn in N. cbn [orb] in N.
      destruct fs as [|[l x|] fs0]; try discriminate.
      apply reduce_all_tokens; try assumption.
      * intros l' x' fs1 E. injection E as <- <- <-.
        cbn [top_op] in N. rewrite N. unfold atom_tokens. now rewrite Pn.
      * discriminate.
  - cbn [forallb] in Hit. apply andb_true_iff in Hit as [Hi Hit].
    unfold item_wf in Hi. cbn [fst snd] in Hi.
    apply andb_true_iff in Hi as [Ho Ha].
    cbn [needed_all] in N. apply andb_true_iff in N as [N1 N2].
    assert (T : frames_tokens (fst (reduce_op o fs cur))
                ++ wrap (wraps_left o (snd (reduce_op o fs cur)))
                     (tokens_of (snd (reduce_op o fs cur)))
                = frames_tokens fs ++ atom_tokens cur).
    { apply reduce_op_tokens; try assumption.
      - intros l x fs0 -> S. cbn [forallb frame_ok] in Hok.
        apply andb_true_iff in Hok as [Hx _].
        destruct (pivot cur =? "") eqn:Pn.
        + now rewrite (wraps_right_leaf x cur Pn), (atom_tokens_leaf cur Pn).
        + unfold needed in N1. rewrite Pn in N1. cbn [orb top_op] in N1.
          assert (W : wraps_right x cur = true).
          { apply orb_true_iff in N1 as [N1|N1]; [|exact N1].
            now apply (wraps_right_from_left x o cur Hx). }
          rewrite W. unfold atom_tokens. now rewrite Pn.
      - intros Hs.
        destruct (pivot cur =? "") eqn:Pn.
        + now rewrite (wraps_left_leaf o cur Pn), (atom_tokens_leaf cur Pn).
        + unfold needed in N1. rewrite Pn in N1. cbn [orb] in N1.
          assert (W : wraps_left o cur = true).
          { apply orb_true_iff in N1 as [N1|N1]; [exact N1|].
            destruct fs as [|[l x|] fs0]; try discriminate.
            cbn [forallb frame_ok] in Hok.
            apply andb_true_iff in Hok as [Hx _].
            apply (wraps_left_from_right x o cur Hx); [|exact N1].
            now apply (Hs l x fs0). }
          rewrite W. unfold atom_tokens. now rewrite Pn. }
    destruct (reduce_op_groupings o fs cur 1 St) as [_ St'].
    { intros. apply bit_le_one. }
    { apply bit_le_one. }
    destruct (feed_ok fs cur o a Hok Ho) as (K1 & K2 & K3).
    pose proof (feed_parens fs cur (o, a)) as K4.
    cbn [fold_left items_tokens]. unfold feed in *.
    destruct (reduce_op o fs cur) as [fs1 t]. cbn [fst snd] in *.
    rewrite IH; try assumption.
    + cbn [frames_tokens]. rewrite <- !app_assoc.
      rewrite app_assoc, T, <- !app_assoc. reflexivity.
    + now rewrite K4.
Qed.

Lemma items_tokens_app (xs ys : list (string * expr)) :
  items_tokens (xs ++ ys) = items_tokens xs ++ items_tokens ys.
Proof.
  induction xs as [|[o a] xs IH]; [reflexivity|].
  simpl. now rewrite IH, <- app_assoc.
Qed.

(** The text of a tree is the text of its chain, and the tree [shunt]
    makes of it has the same text. *)
Lemma norm_tokens (t : expr) :
  wf_expr t = true ->
  atom_tokens (fst (chain t)) ++ items_tokens (snd (chain t)) = tokens_of t
  /\ tokens_of (norm t) = tokens_of t.
Proof.
  induction t as [s|l IHl op r IHr]; intros Hwf.
  - split; reflexivity.
  - assert (A : atom_tokens (fst (chain (Node l op r)))
                ++ items_tokens (snd (chain (Node l op r)))
                = tokens_of (Node l op r)).
    { simpl in Hwf. apply andb_true_iff in Hwf as [Hwf Hr].
      apply andb_true_iff in Hwf as [Hl Hop].
      destruct (IHl Hl) as [Al Bl]. destruct (IHr Hr) as [Ar Br].
      cbn [chain fst snd tokens_of]. rewrite items_tokens_app.
      cbn [items_tokens]. rewrite app_assoc. f_equal; [|f_equal].
      - destruct (wraps_left op l) eqn:W.
        + cbn [fst snd items_tokens]. fold (norm l). rewrite app_nil_r.
          unfold atom_tokens. rewrite Bl.
          destruct (norm_pivot l Hl) as [_ ->].
          unfold wraps_left in W. apply andb_true_iff in W as [W _].
          now rewrite W.
        + exact Al.
      - destruct (wraps_right op r) eqn:W.
        + cbn [fst snd items_tokens]. fold (norm r). rewrite app_nil_r.
          unfold atom_tokens. rewrite Br.
          destruct (norm_pivot r Hr) as [_ ->].
          unfold wraps_right in W. apply andb_true_iff in W as [W _].
          now rewrite W.
        + exact Ar. }
    split; [exact A|].
    destruct (chain_wf _ Hwf) as [W0 Wi].
    pose proof (chain_needed _ Hwf None None) as N.
    unfold norm, parse_chain.
    rewrite (feed_all_tokens _ [] _ I eq_refl eq_refl Wi N).
    exact A.
Qed.

(** X13.  The output of a valid expression is a fixed point of the
    function: the call on it returns it unchanged. *)
Theorem output_is_fixed_point (e out : string) :
  valid_expression e ->
  returns e out ->
  returns out out.
Proof.
  intros Hv Hr.
  destruct (valid_expression_tree e Hv) as (t & _ & W & _ & R).
  pose proof (returns_functional e out (text t) Hr R) as ->.
  destruct (valid_expression_tree (text t) (valid_expression_text t W))
    as (t1 & P1 & _ & _ & R1).
  rewrite tokenize_text, parse_tokens_of in P1 by assumption.
  injection P1 as <-.
  rewrite <- (join_tokens_of (norm t)) in R1.
  destruct (norm_tokens t W) as [_ E]. rewrite E, join_tokens_of in R1.
  exact R1.
Qed.

Lemma output_is_fixed_point_witness :
  returns "x123+y+z+t+v+w" "x123+y+z+t+v+w".
Proof.
  apply (output_is_fixed_point "x123+(y+z)+(t+(v+w))" "x123+y+z+t+v+w").
  - reflexivity.
  - exists 40. reflexivity.
Defined.

(* ================================================================= *)
(** ** The output has the value of the input *)

Lemma satisfied_follows (op o : string) (l r : expr) :
  in_operator_info op = true ->
  in_operator_info o = true ->
  wraps_left o (Node l op r) = false ->
  regroups_left o (Node l op r) = false ->
  satisfied op o = true.
Proof.
  intros Hop Ho. operator_cases Hop; operator_cases Ho;
    vm_compute; congruence.
Qed.

Lemma satisfied_regroups (x op : string) (l r : expr) :
  in_operator_info x = true ->
  in_operator_info op = true ->
  satisfied x op = true ->
  wraps_right x (Node l op r) = false ->
  prec x = prec op /\ (prec x < 2)%nat /\ (x = "+" \/ x = "*").
Proof.
  intros Hx Hop. operator_cases Hx; operator_cases Hop;
    vm_compute; intros; try discriminate; repeat split; auto.
Qed.

Lemma satisfied_same_prec (x op o : string) :
  in_operator_info x = true ->
  in_operator_info op = true ->
  prec x = prec op ->
  satisfied x o = satisfied op o.
Proof.
  intros Hx Hop E. now rewrite (satisfied_spec x o Hx),
    (satisfied_spec op o Hop), E.
Qed.

Lemma unsatisfied_same_prec (y x op : string) :
  in_operator_info y = true ->
  prec x = prec op ->
  satisfied y x = false ->
  satisfied y op = false.
Proof.
  intros Hy E. now rewrite (satisfied_spec y x Hy),
    (satisfied_spec y op Hy), E.
Qed.

Section ValueLaws.

Variable A : Type.
Variable leaf : string -> A.
Variable add : A -> A -> A.
Variable sub : A -> A -> A.
Variable mul : A -> A -> A.
Variable div : A -> A -> A.
Variable pow : A -> A -> A.

Hypothesis add_add : forall a b c, add a (add b c) = add (add a b) c.
Hypothesis add_sub : forall a b c, add a (sub b c) = sub (add a b) c.
Hypothesis mul_mul : forall a b c, mul a (mul b c) = mul (mul a b) c.
Hypothesis mul_div : forall a b c, mul a (div b c) = div (mul a b) c.

Local Abbreviation val := (value A leaf add sub mul div pow).
Local Abbreviation app_op := (apply_op A add sub mul div pow).
Local Abbreviation vred_op := (vreduce_op A add sub mul div pow).
Local Abbreviation vred_all := (vreduce_all A add sub mul div pow).
Local Abbreviation vfd := (vfeed A add sub mul div pow).
Local Abbreviation vfd_all := (vfeed_all A add sub mul div pow).
Local Abbreviation vcl := (vclose A add sub mul div pow).
Local Abbreviation fvalues := (frames_values A leaf add sub mul div pow).
Local Abbreviation ivalues := (items_values A leaf add sub mul div pow).

(** The four laws, as one: the right operand of a ["+"] or ["*"] may be
    regrouped with an operator of the same precedence. *)
Lemma regroup_law (x op : string) (a0 a b : A) :
  in_operator_info op = true ->
  prec x = prec op ->
  x = "+" \/ x = "*" ->
  app_op x a0 (app_op op a b) = app_op op (app_op x a0 a) b.
Proof.
  intros Hop E [-> | ->]; operator_cases Hop; try discriminate E;
    unfold apply_op; simpl; auto.
Qed.

Lemma vreduce_op_stay (o : string) (fs : list (A * string)) (v : A) :
  vtop_unsatisfied A fs o -> vred_op o fs v = (fs, v).
Proof.
  destruct fs as [|[l y] fs]; simpl; [reflexivity|]. now intros ->.
Qed.

Lemma vreduce_op_stacked (o : string) (fs : list (A * string)) :
  forall v,
    in_operator_info o = true ->
    vstacked A fs ->
    vstacked A ((snd (vred_op o fs v), o) :: fst (vred_op o fs v)).
Proof.
  induction fs as [|[l y] fs IH]; intros v Ho St.
  - simpl. auto.
  - cbn [vreduce_op]. destruct (satisfied y o) eqn:S.
    + apply IH; [assumption|]. simpl in St. tauto.
    + cbn [fst snd]. simpl. simpl in St. tauto.
Qed.

Lemma vfeed_all_next (k : list (string * A)) (t : expr)
    (s1 s2 : list (A * string) * A) :
  follows A t k ->
  vcl s1 = vcl s2 ->
  (forall o c,
      in_operator_info o = true ->
      wraps_left o t = false -> regroups_left o t = false ->
      vfd s1 (o, c) = vfd s2 (o, c)) ->
  vcl (vfd_all k s1) = vcl (vfd_all k s2).
Proof.
  intros F C N. destruct k as [|[o c] k]; [exact C|].
  simpl in F. destruct F as (Ho & Wl & Rl).
  unfold vfeed_all. cbn [fold_left]. now rewrite (N o c Ho Wl Rl).
Qed.

(** Pushing [op] between two operands comes to the value of the node,
    for everything that may follow it. *)
Lemma vfeed_node (fs : list (A * string)) (a b : A) (op : string)
    (l r : expr) (k : list (string * A)) :
  in_operator_info op = true ->
  vstacked A fs ->
  admits A fs (Node l op r) ->
  follows A (Node l op r) k ->
  vcl (vfd_all k (vfd (fs, a) (op, b)))
  = vcl (vfd_all k (fs, app_op op a b)).
Proof.
  intros Hop St Ad Fo.
  destruct fs as [|[a0 x] fs0].
  - apply (vfeed_all_next k (Node l op r)); [assumption | reflexivity|].
    intros o c Ho Wl Rl. cbn [vfeed vreduce_op].
    now rewrite (satisfied_follows op o l r Hop Ho Wl Rl).
  - simpl in St. destruct St as (Hx & Tu & St). simpl in Ad.
    destruct (satisfied x op) eqn:S.
    + destruct (satisfied_regroups x op l r Hx Hop S Ad) as (E & P2 & Kx).
      assert (Stay : forall v, vred_op op fs0 v = (fs0, v)).
      { intros v. apply vreduce_op_stay.
        destruct fs0 as [|[a1 y] fs1]; [exact I|]. simpl in Tu |- *.
        simpl in St. destruct St as (Hy & _).
        now apply (unsatisfied_same_prec y x op Hy E). }
      cbn [vfeed vreduce_op]. rewrite S, Stay.
      apply (vfeed_all_next k (Node l op r)); [assumption | |].
      * unfold vclose. cbn [fst snd vreduce_all].
        now rewrite (regroup_law x op a0 a b Hop E Kx).
      * intros o c Ho Wl Rl. cbn [vfeed vreduce_op].
        pose proof (satisfied_follows op o l r Hop Ho Wl Rl) as So.
        rewrite So, (satisfied_same_prec x op o Hx Hop E), So.
        now rewrite (regroup_law x op a0 a b Hop E Kx).
    + cbn [vfeed vreduce_op]. rewrite S.
      apply (vfeed_all_next k (Node l op r)); [assumption | reflexivity|].
      intros o c Ho Wl Rl. cbn [vfeed vreduce_op].
      now rewrite (satisfied_follows op o l r Hop Ho Wl Rl).
Qed.

Lemma open_parens_op (l : expr) (x : string) (fs : list frame) :
  open_parens (FOp l x :: fs) = open_parens fs.
Proof. reflexivity. Qed.

Lemma reduce_op_values (o : string) (fs : list frame) :
  forall cur,
    open_parens fs = 0 ->
    vred_op o (fvalues fs) (val cur)
    = (fvalues (fst (reduce_op o fs cur)), val (snd (reduce_op o fs cur))).
Proof.
  induction fs as [|[l x|] fs IH]; intros cur Hp; [reflexivity| |discriminate].
  cbn [frames_values vreduce_op reduce_op].
  destruct (satisfied x o); [|reflexivity].
  now rewrite <- IH.
Qed.

Lemma reduce_all_values (fs : list frame) :
  forall cur,
    open_parens fs = 0 ->
    vred_all (fvalues fs) (val cur) = val (snd (reduce_all fs cur)).
Proof.
  induction fs as [|[l x|] fs IH]; intros cur Hp; [reflexivity| |discriminate].
  cbn [frames_values vreduce_all reduce_all]. now rewrite <- IH.
Qed.

Lemma feed_all_values (items : list (string * expr)) :
  forall fs cur,
    open_parens fs = 0 ->
    vfd_all (ivalues items) (fvalues fs, val cur)
    = (fvalues (fst (feed_all items (fs, cur))),
       val (snd (feed_all items (fs, cur)))).
Proof.
  unfold vfeed_all, feed_all.
  induction items as [|[o a] items IH]; intros fs cur Hp; [reflexivity|].
  cbn [items_values map fold_left fst snd].
  pose proof (reduce_op_values o fs cur Hp) as R.
  pose proof (reduce_op_parens o fs cur) as P.
  unfold vfeed at 2. unfold feed at 2 4. rewrite R.
  destruct (reduce_op o fs cur) as [fs' t]. cbn [fst snd] in *.
  apply (IH (FOp t o :: fs') a). rewrite open_parens_op. congruence.
Qed.

(** The value of the tree [shunt] makes of the text of [t], by the machine
    on values. *)
Lemma norm_value_machine (t : expr) :
  val (norm t) = vcl (vfd_all (ivalues (snd (chain t))) ([], val (fst (chain t)))).
Proof.
  unfold norm, parse_chain, close.
  change (@nil (A * string)) with (fvalues []).
  rewrite feed_all_values by reflexivity. unfold vclose. cbn [fst snd].
  rewrite reduce_all_values; [reflexivity|].
  now rewrite feed_all_parens.
Qed.

Lemma admits_left (fs : list (A * string)) (l r : expr) (op : string) :
  wf_expr (Node l op r) = true ->
  vstacked A fs ->
  admits A fs (Node l op r) ->
  wraps_left op l = false ->
  admits A fs l.
Proof.
  intros Hwf St Ad Wl. destruct fs as [|[a0 x] fs0]; [exact I|].
  simpl in St, Ad |- *. destruct St as (Hx & _).
  simpl in Hwf. apply andb_true_iff in Hwf as [Hwf _].
  apply andb_true_iff in Hwf as [Hl Hop].
  destruct (wf_pivot l Hl) as [[_ [s ->]]|[Hp _]]; [reflexivity|].
  revert Ad Wl. unfold wraps_right, wraps_left. cbn [pivot].
  revert Hp. generalize (pivot l). intros pl Hp.
  operator_cases Hx; operator_cases Hop; operator_cases Hp;
    vm_compute; congruence.
Qed.

Lemma follows_right (k : list (string * A)) (l r : expr) (op : string) :
  wf_expr (Node l op r) = true ->
  follows A (Node l op r) k ->
  wraps_right op r = false ->
  follows A r k.
Proof.
  intros Hwf Fo Wr. destruct k as [|[o c] k]; [exact I|].
  simpl in Fo |- *. destruct Fo as (Ho & Wl & Rl).
  split; [assumption|].
  simpl in Hwf. apply andb_true_iff in Hwf as [Hwf Hr].
  apply andb_true_iff in Hwf as [_ Hop].
  destruct (wf_pivot r Hr) as [[_ [s ->]]|[Hp _]]; [split; reflexivity|].
  revert Wl Rl Wr. unfold wraps_right, wraps_left, regroups_left.
  cbn [pivot]. revert Hp. generalize (pivot r). intros pr Hp.
  operator_cases Ho; operator_cases Hop; operator_cases Hp;
    vm_compute; intros; try discriminate; split; reflexivity.
Qed.

(** Feeding the text of [t] comes to feeding one operand with the value
    of [t], wherever that text may stand without parentheses. *)
Lemma chain_value (t : expr) :
  wf_expr t = true ->
  no_power_of_power t = true ->
  forall fs k,
    vstacked A fs ->
    admits A fs t ->
    follows A t k ->
    vcl (vfd_all (ivalues (snd (chain t)) ++ k) (fs, val (fst (chain t))))
    = vcl (vfd_all k (fs, val t)).
Proof.
  induction t as [s|l IHl op r IHr]; intros Hwf Hnp fs k St Ad Fo;
    [reflexivity|].
  pose proof Hwf as Hwf0.
  simpl in Hwf. apply andb_true_iff in Hwf as [Hwf Hr].
  apply andb_true_iff in Hwf as [Hl Hop].
  simpl in Hnp. apply andb_true_iff in Hnp as [Hnp Rg].
  apply andb_true_iff in Hnp as [Npl Npr]. apply negb_true_iff in Rg.
  assert (Nl : val (norm l) = val l).
  { rewrite norm_value_machine.
    rewrite <- (app_nil_r (ivalues (snd (chain l)))).
    now apply (IHl Hl Npl [] []). }
  assert (Nr : val (norm r) = val r).
  { rewrite norm_value_machine.
    rewrite <- (app_nil_r (ivalues (snd (chain r)))).
    now apply (IHr Hr Npr [] []). }
  cbn [chain fst snd].
  unfold items_values. rewrite map_app. cbn [map fst snd].
  fold (ivalues (snd (if wraps_left op l
                      then (parse_chain (chain l), [])
                      else chain l))).
  fold (ivalues (snd (if wraps_right op r
                      then (parse_chain (chain r), [])
                      else chain r))).
  rewrite <- app_assoc. cbn [app].
  assert (L : forall k',
             (wraps_left op l = false -> follows A l k') ->
             vcl (vfd_all
                    (ivalues (snd (if wraps_left op l
                                   then (parse_chain (chain l), [])
                                   else chain l)) ++ k')
                    (fs, val (fst (if wraps_left op l
                                   then (parse_chain (chain l), [])
                                   else chain l))))
             = vcl (vfd_all k' (fs, val l))).
  { intros k' Fl. destruct (wraps_left op l) eqn:W.
    - cbn [fst snd items_values map app]. fold (norm l). now rewrite Nl.
    - apply (IHl Hl Npl); try assumption.
      + now apply (admits_left fs l r op).
      + now apply Fl. }
  rewrite L by (intros W; simpl; auto).
  unfold vfeed_all at 1. cbn [fold_left].
  fold (vfd_all (ivalues (snd (if wraps_right op r
                               then (parse_chain (chain r), [])
                               else chain r)) ++ k)).
  change (val (Node l op r)) with (app_op op (val l) (val r)).
  rewrite <- (vfeed_node fs (val l) (val r) op l r k Hop St Ad Fo).
  unfold vfeed.
  pose proof (vreduce_op_stacked op fs (val l) Hop St) as St'.
  destruct (vred_op op fs (val l)) as [fs' v']. cbn [fst snd] in St'.
  destruct (wraps_right op r) eqn:W.
  - cbn [fst snd items_values map app]. fold (norm r). now rewrite Nr.
  - apply (IHr Hr Npr); [exact St' | exact W |].
    now apply (follows_right k l r op).
Qed.

(** The tree [shunt] makes of the text of a tree has the value of the
    tree. *)
Lemma norm_value (t : expr) :
  wf_expr t = true ->
  no_power_of_power t = true ->
  val (norm t) = val t.
Proof.
  intros Hwf Hnp. rewrite norm_value_machine.
  rewrite <- (app_nil_r (ivalues (snd (chain t)))).
  now apply (chain_value t Hwf Hnp [] []).
Qed.

(** X14.  The output has the value of the input.  Read the operands by
    any [leaf], ["+"], ["-"], ["*"], ["/"] by operations for which a right
    operand of ["+"] or ["*"] may be regrouped ([a+(b+c) = (a+b)+c],
    [a+(b-c) = (a+b)-c], [a*(b*c) = (a*b)*c], [a*(b/c) = (a*b)/c]), and
    ["^"] by any operation at all: for a valid expression in which no
    ["^"] has a left operand led by ["^"], the postfix sequence of the
    output evaluates to the value of the postfix sequence of the input. *)
Theorem output_keeps_value (e out : string) (t : expr) :
  valid_expression e ->
  returns e out ->
  tree_of_postfix (shunt (tokenize e)) = Some t ->
  no_power_of_power t = true ->
  exists t',
    tree_of_postfix (shunt (tokenize out)) = Some t'
    /\ val t' = val t.
Proof.
  intros Hv Hr Ht Hnp.
  destruct (valid_expression_output e out Hv Hr) as (t0 & W & _ & S & _ & S').
  rewrite S, (tree_of_postfix_postfix t0 W) in Ht. injection Ht as <-.
  exists (norm t0). split.
  - rewrite S'. apply tree_of_postfix_postfix. now apply norm_wf.
  - now apply norm_value.
Qed.

End ValueLaws.

(** The rational numbers are such a reading: the four laws hold in the
    field, with [x / 0 = 0]. *)
Lemma output_keeps_value_witness :
  exists t',
    tree_of_postfix (shunt (tokenize "a+b-c*d/e")) = Some t'
    /\ value Qcanon.Qc
         (fun s => Qcanon.Q2Qc
                     (QArith_base.Qmake (BinInt.Z.of_nat (String.length s)) BinNums.xH))
         Qcanon.Qcplus Qcanon.Qcminus Qcanon.Qcmult Qcanon.Qcdiv
         (fun a _ => a) t'
       = value Qcanon.Qc
           (fun s => Qcanon.Q2Qc
                       (QArith_base.Qmake (BinInt.Z.of_nat (String.length s)) BinNums.xH))
           Qcanon.Qcplus Qcanon.Qcminus Qcanon.Qcmult Qcanon.Qcdiv
           (fun a _ => a)
           (Node (Leaf "a") "+"
              (Node (Leaf "b") "-"
                 (Node (Leaf "c") "*" (Node (Leaf "d") "/" (Leaf "e"))))).
Proof.
  apply (output_keeps_value Qcanon.Qc
           (fun s => Qcanon.Q2Qc
                       (QArith_base.Qmake (BinInt.Z.of_nat (String.length s)) BinNums.xH))
           Qcanon.Qcplus Qcanon.Qcminus Qcanon.Qcmult Qcanon.Qcdiv
           (fun a _ => a)
           (fun a b c => Qcanon.Qcplus_assoc a b c)
           (fun a b c => Qcanon.Qcplus_assoc a b (Qcanon.Qcopp c))
           (fun a b c => Qcanon.Qcmult_assoc a b c)
           (fun a b c => Qcanon.Qcmult_assoc a b (Qcanon.Qcinv c))
           "a + (b - (c * (d / e)))" "a+b-c*d/e").
  - reflexivity.
  - exists 40. reflexivity.
  - reflexivity.
  - reflexivity.
Defined.
